(** * Barnes-Hut octree of the planetesimal simulation

    A shallow embedding of the two octrees of the repository,
    [src/octree.js] (bucketed leaves, module [Bucket]) and
    [src/OctreeNode.js] (one body per leaf, module [Strict]), with the
    properties of insertion, mass aggregation and the gravity walk.

    Numbers.  A JavaScript number is modelled twice.

    In [Bucket] and [Strict] it is a [num]: a rational (a finite double,
    taken without rounding), the two infinities and NaN.  Arithmetic and
    comparisons on the special values follow IEEE 754 as JavaScript
    applies it; the sign of zero is not tracked, so a division of a
    non-zero number by zero takes the sign of the dividend.  [Math.sqrt]
    has no exact rational counterpart: the development is parametric in
    a function [sqrtQ] standing for it on the non-negative rationals, of
    which nothing is assumed.  These definitions carry the properties of
    the structure of the trees and of the order of the operations, which
    hold of the doubles as they hold of the rationals.

    In [Double] it is a binary64 float, and the bucketed octree is
    defined again on it.  These definitions carry the properties that
    rounding and overflow decide: on doubles a subdivision without end
    does not exist, since the regions of the children end up excluding
    the position and the body is dropped, and a force overflows. *)

From Stdlib Require Import QArith Lqa Lia List Bool Arith ZArith.
From Stdlib Require Import Setoid Morphisms Permutation.
From Stdlib Require Import Floats.
Import ListNotations.

Set Warnings "-register-all,-inexact-float".

(** ** JavaScript numbers *)

Module JS.

Inductive num : Type :=
| Fin (q : Q)
| PInf
| NInf
| NaN.

Definition zero : num := Fin 0.
Definition one : num := Fin 1.

Definition Qltb (a b : Q) : bool := negb (Qle_bool b a).

(** [a + b].  On finite numbers the sum is the exact rational: it is
    neither rounded nor can it overflow. *)
Definition nadd (a b : num) : num :=
  match a, b with
  | NaN, _ | _, NaN => NaN
  | Fin x, Fin y => Fin (x + y)
  | PInf, NInf | NInf, PInf => NaN
  | PInf, _ | _, PInf => PInf
  | NInf, _ | _, NInf => NInf
  end.

Definition nsub (a b : num) : num :=
  match a, b with
  | NaN, _ | _, NaN => NaN
  | Fin x, Fin y => Fin (x - y)
  | PInf, PInf | NInf, NInf => NaN
  | PInf, _ | _, NInf => PInf
  | NInf, _ | _, PInf => NInf
  end.

(** The infinity of the given sign, NaN for sign zero. *)
Definition signed_inf (c : comparison) : num :=
  match c with
  | Gt => PInf
  | Lt => NInf
  | Eq => NaN
  end.

(** [a * b], exact on finite numbers as [nadd] is. *)
Definition nmul (a b : num) : num :=
  match a, b with
  | NaN, _ | _, NaN => NaN
  | Fin x, Fin y => Fin (x * y)
  | PInf, Fin y | Fin y, PInf => signed_inf (y ?= 0)
  | NInf, Fin y | Fin y, NInf => signed_inf (0 ?= y)
  | PInf, PInf | NInf, NInf => PInf
  | PInf, NInf | NInf, PInf => NInf
  end.

Definition ndiv (a b : num) : num :=
  match a, b with
  | NaN, _ | _, NaN => NaN
  | Fin x, Fin y =>
      if Qeq_bool y 0 then signed_inf (x ?= 0) else Fin (x / y)
  | Fin _, PInf | Fin _, NInf => Fin 0
  | PInf, Fin y => if Qltb y 0 then NInf else PInf
  | NInf, Fin y => if Qltb y 0 then PInf else NInf
  | _, _ => NaN
  end.

(** [a < b], [a <= b] and [a === b]; every comparison with NaN is false. *)
Definition nlt (a b : num) : bool :=
  match a, b with
  | Fin x, Fin y => Qltb x y
  | NInf, Fin _ | NInf, PInf | Fin _, PInf => true
  | _, _ => false
  end.

Definition nle (a b : num) : bool :=
  match a, b with
  | Fin x, Fin y => Qle_bool x y
  | NInf, Fin _ | NInf, PInf | Fin _, PInf | PInf, PInf | NInf, NInf => true
  | _, _ => false
  end.

Definition ngt (a b : num) : bool := nlt b a.
Definition nge (a b : num) : bool := nle b a.

Definition neq (a b : num) : bool :=
  match a, b with
  | Fin x, Fin y => Qeq_bool x y
  | PInf, PInf | NInf, NInf => true
  | _, _ => false
  end.

Definition finite (a : num) : Prop :=
  match a with
  | Fin _ => True
  | _ => False
  end.

(** A finite positive number. *)
Definition positive (a : num) : Prop :=
  match a with
  | Fin q => (0 < q)%Q
  | _ => False
  end.

(** Equality of numbers as values: rationals up to [Qeq]. *)
Definition num_eq (a b : num) : Prop :=
  match a, b with
  | Fin x, Fin y => x == y
  | PInf, PInf | NInf, NInf | NaN, NaN => True
  | _, _ => False
  end.

Definition num_eqb (a b : num) : bool :=
  match a, b with
  | Fin x, Fin y => Qeq_bool x y
  | PInf, PInf | NInf, NInf | NaN, NaN => true
  | _, _ => false
  end.

Section Sqrt.
Variable sqrtQ : Q -> Q.

(** [Math.sqrt]. *)
Definition nsqrt (a : num) : num :=
  match a with
  | Fin q => if Qltb q 0 then NaN else Fin (sqrtQ q)
  | PInf => PInf
  | _ => NaN
  end.
End Sqrt.

(** [Math.max(a, b)]: NaN when an argument is NaN. *)
Definition nmax (a b : num) : num :=
  match a, b with
  | NaN, _ | _, NaN => NaN
  | _, _ => if nlt a b then b else a
  end.

End JS.

Import JS.

Declare Scope num_scope.
Delimit Scope num_scope with num.
Infix "+" := nadd : num_scope.
Infix "-" := nsub : num_scope.
Infix "*" := nmul : num_scope.
Infix "/" := ndiv : num_scope.
Infix "<?" := nlt : num_scope.
Infix "<=?" := nle : num_scope.
Infix ">?" := ngt : num_scope.
Infix ">=?" := nge : num_scope.
Infix "===" := neq (at level 70) : num_scope.
Infix "=n=" := num_eq (at level 70) : num_scope.

(** ** The Vec3 class of the cannon library

    The library is a dependency of the repository and not part of its
    sources; the methods the octrees call are modelled component by
    component after their use at the call sites. *)

Module Vec3.

Record vec3 : Type := mk { x : num; y : num; z : num }.

Definition zero : vec3 := mk JS.zero JS.zero JS.zero.

Definition finite (v : vec3) : Prop :=
  JS.finite (x v) /\ JS.finite (y v) /\ JS.finite (z v).

Definition vec_eq (a b : vec3) : Prop :=
  (x a =n= x b)%num /\ (y a =n= y b)%num /\ (z a =n= z b)%num.

Definition vec_eqb (a b : vec3) : bool :=
  num_eqb (x a) (x b) && num_eqb (y a) (y b) && num_eqb (z a) (z b).

Local Open Scope num_scope.

(** [this.vadd(v, target)]: [target.x = v.x + this.x] and so on. *)
Definition vadd (this v : vec3) : vec3 :=
  mk (x v + x this) (y v + y this) (z v + z this).

(** [this.vsub(v)]: [this.x - v.x] and so on. *)
Definition vsub (this v : vec3) : vec3 :=
  mk (x this - x v) (y this - y v) (z this - z v).

(** [this.mult(s)], also named [scale]: [s * this.x] and so on. *)
Definition mult (this : vec3) (s : num) : vec3 :=
  mk (s * x this) (s * y this) (s * z this).

Definition scale := mult.

(** [this.norm2()], the dot product of the vector with itself. *)
Definition norm2 (this : vec3) : num :=
  x this * x this + y this * y this + z this * z this.

(** [this.distanceSquared(p)]. *)
Definition distanceSquared (this p : vec3) : num :=
  (x p - x this) * (x p - x this) + (y p - y this) * (y p - y this)
  + (z p - z this) * (z p - z this).

Section Sqrt.
Variable sqrtQ : Q -> Q.

(** [this.norm()]. *)
Definition norm (this : vec3) : num := nsqrt sqrtQ (norm2 this).

(** [this.unit(target)]: the vector scaled by the inverse of its norm,
    and (1,0,0) when the norm is not positive. *)
Definition unit (this : vec3) : vec3 :=
  let ninv := norm this in
  if ninv >? JS.zero then
    let ninv := JS.one / ninv in
    mk (x this * ninv) (y this * ninv) (z this * ninv)
  else mk JS.one JS.zero JS.zero.

(** Modelled from the spec: [normalize], as [OctreeNode.js] chains it
    ([v.normalize().scale(magnitude)]), yields the unit vector of the
    spec's "unit vector x magnitude"; the zero vector when the norm is
    not positive.  The method of the cannon-es library returns the
    norm instead: [Strict.CannonES] has the walk with it. *)
Definition normalize (this : vec3) : vec3 :=
  let n := norm this in
  if n >? JS.zero then
    let invN := JS.one / n in
    mk (x this * invN) (y this * invN) (z this * invN)
  else zero.
End Sqrt.

End Vec3.

Import Vec3.

(** A body as the octrees read it: an object with a position and a mass.
    [id] stands for the identity of the JavaScript object, which is what
    [===] and [!==] compare. *)
Module Body.
Record body : Type := mk { id : nat; position : vec3; mass : num }.
Definition same (a b : body) : bool := Nat.eqb (id a) (id b).

Definition finite_body (b : body) : Prop :=
  Vec3.finite (position b) /\ JS.finite (mass b).

(** The sum of the masses of a list of bodies. *)
Definition sum_mass (bs : list body) : num :=
  fold_right (fun b acc => (mass b + acc)%num) JS.zero bs.
End Body.

Abbreviation body := Body.body.

(** Results of the recursive methods: [None] when the given call depth
    does not suffice, which is how a recursion without end shows. *)
Definition bind {A B : Type} (m : option A) (k : A -> option B) : option B :=
  match m with
  | Some a => k a
  | None => None
  end.

Notation "x <- m ;; k" := (bind m (fun x => k))
  (at level 61, m at next level, right associativity).

(** ** The bucketed octree: [src/octree.js] *)

Module Bucket.

Local Open Scope num_scope.

(** [class OctreeNode] of [octree.js]. *)
Inductive OctreeNode : Type :=
  mkNode {
    center : vec3;
    halfSize : num;
    mass : num;
    com : vec3;
    isLeaf : bool;
    bodies : list body;
    children : list OctreeNode
  }.

(** [Octree.MAX_BODIES_PER_NODE], set by the constructor of [Octree]. *)
Definition MAX_BODIES_PER_NODE : nat := 10.

(** [new OctreeNode(center, halfSize)]. *)
Definition new_OctreeNode (c : vec3) (h : num) : OctreeNode :=
  mkNode c h JS.zero Vec3.zero true [] [].

Definition isEmpty (n : OctreeNode) : bool :=
  isLeaf n && Nat.eqb (length (bodies n)) 0.

Definition contains (n : OctreeNode) (point : vec3) : bool :=
  (x point >=? x (center n) - halfSize n) &&
  (x point <=? x (center n) + halfSize n) &&
  (y point >=? y (center n) - halfSize n) &&
  (y point <=? y (center n) + halfSize n) &&
  (z point >=? z (center n) - halfSize n) &&
  (z point <=? z (center n) + halfSize n).

(** [updateMassDistribution(body)] with a body given, as [insert] calls
    it. *)
Definition updateMassDistribution (n : OctreeNode) (b : body) : OctreeNode :=
  let newMass := mass n + Body.mass b in
  let p := Body.position b in
  let c := com n in
  mkNode (center n) (halfSize n) newMass
    (Vec3.mk ((x c * mass n + x p * Body.mass b) / newMass)
             ((y c * mass n + y p * Body.mass b) / newMass)
             ((z c * mass n + z p * Body.mass b) / newMass))
    (isLeaf n) (bodies n) (children n).

(** The sign triples of the three nested loops of [subdivide], in the
    order in which the children are pushed. *)
Definition octant_signs : list (Q * Q * Q) :=
  flat_map (fun sx => flat_map (fun sy => map (fun sz => (sx, sy, sz))
                                              [-1; 1]%Q) [-1; 1]%Q) [-1; 1]%Q.

(** [this.center.x + x * quarterSize] and so on, without the rounding
    of the sum: see [Double.Bucket.childCenter] for the doubles, on
    which the eight centres of a small enough node coincide. *)
Definition childCenter (c : vec3) (quarterSize : num) (s : Q * Q * Q) : vec3 :=
  let '(sx, sy, sz) := s in
  Vec3.mk (x c + Fin sx * quarterSize)
          (y c + Fin sy * quarterSize)
          (z c + Fin sz * quarterSize).

Definition new_children (c : vec3) (h : num) : list OctreeNode :=
  let quarterSize := h * Fin 0.5 in
  map (fun s => new_OctreeNode (childCenter c quarterSize s) quarterSize)
      octant_signs.

Section Recursive.
(** [child.insert], at the call depth that is left. *)
Variable insert : OctreeNode -> body -> option OctreeNode.

(** The loop of [_insertIntoChild] over [this.children]: the first
    child that contains the position takes the body. *)
Fixpoint insert_first (cs : list OctreeNode) (b : body)
  : option (list OctreeNode) :=
  match cs with
  | [] => Some []
  | child :: rest =>
      if contains child (Body.position b) then
        child' <- insert child b ;; Some (child' :: rest)
      else
        rest' <- insert_first rest b ;; Some (child :: rest')
  end.

Definition _insertIntoChild (n : OctreeNode) (b : body)
  : option OctreeNode :=
  cs <- insert_first (children n) b ;;
  Some (mkNode (center n) (halfSize n) (mass n) (com n) (isLeaf n)
               (bodies n) cs).

(** [bodiesToMove.forEach(body => this._insertIntoChild(body))]. *)
Fixpoint move_bodies (n : OctreeNode) (bs : list body)
  : option OctreeNode :=
  match bs with
  | [] => Some n
  | b :: rest => n' <- _insertIntoChild n b ;; move_bodies n' rest
  end.

Definition subdivide (n : OctreeNode) : option OctreeNode :=
  let bodiesToMove := bodies n in
  move_bodies
    (mkNode (center n) (halfSize n) (mass n) (com n) false []
            (children n ++ new_children (center n) (halfSize n)))
    bodiesToMove.
End Recursive.

(** [OctreeNode.insert(body)]; [fuel] bounds the depth of the calls. *)
Fixpoint insert (fuel : nat) (n : OctreeNode) (b : body)
  : option OctreeNode :=
  match fuel with
  | O => None
  | S fuel' =>
      n1 <- (if negb (isLeaf n) then _insertIntoChild (insert fuel') n b
             else
               let n' := mkNode (center n) (halfSize n) (mass n) (com n)
                                (isLeaf n) (bodies n ++ [b]) (children n) in
               if Nat.ltb MAX_BODIES_PER_NODE (length (bodies n'))
               then subdivide (insert fuel') n'
               else Some n') ;;
      let n2 := updateMassDistribution n1 b in
      if isLeaf n2 && Nat.ltb MAX_BODIES_PER_NODE (length (bodies n2))
      then subdivide (insert fuel') n2
      else Some n2
  end.

(** [class Octree], with the fields the rebuild and the walk use. *)
Record Octree : Type :=
  mkOctree { gravityConstant : num; root : OctreeNode }.

(** [new Octree(worldSize, gravityConstant)]. *)
Definition new_Octree (worldSize gravityConstant : num) : Octree :=
  mkOctree gravityConstant
           (new_OctreeNode Vec3.zero (worldSize / Fin 2)).

Definition clear (t : Octree) : Octree :=
  mkOctree (gravityConstant t)
           (new_OctreeNode (center (root t)) (halfSize (root t))).

Definition Octree_insert (fuel : nat) (t : Octree) (b : body)
  : option Octree :=
  r <- insert fuel (root t) b ;; Some (mkOctree (gravityConstant t) r).

(** [this.bodies.forEach(body => this.octree.insert(body))]. *)
Fixpoint insert_all (fuel : nat) (t : Octree) (bs : list body)
  : option Octree :=
  match bs with
  | [] => Some t
  | b :: rest => t' <- Octree_insert fuel t b ;; insert_all fuel t' rest
  end.

(** The rebuild of a simulation step ([update] of [sim.js]): [clear],
    then every body inserted. *)
Definition rebuild (fuel : nat) (t : Octree) (bs : list body)
  : option Octree :=
  insert_all fuel (clear t) bs.

Section Walk.
Variable sqrtQ : Q -> Q.

(** The pairwise term of the leaf branch of [_calculateGravity]. *)
Definition leaf_term (G : num) (b : body) (force : vec3) (otherBody : body)
  : vec3 :=
  if negb (Body.same otherBody b) then
    let direction := vsub (Body.position otherBody) (Body.position b) in
    let distanceSquared := norm2 direction in
    if distanceSquared >? Fin 1e-10 then
      let strength := (G * Body.mass b * Body.mass otherBody)
                      / distanceSquared in
      let unitDirection := unit sqrtQ direction in
      let gravityForce := mult unitDirection strength in
      vadd force gravityForce
    else force
  else force.

(** The point-mass term of an internal node that passes the test. *)
Definition node_term (G : num) (n : OctreeNode) (b : body) : vec3 :=
  let directionToCOM := vsub (com n) (Body.position b) in
  let distance := norm sqrtQ directionToCOM in
  let strength := (G * Body.mass b * mass n) / (distance * distance) in
  mult (unit sqrtQ directionToCOM) strength.

(** The test [(node.halfSize / distance) < theta]. *)
Definition accepts (n : OctreeNode) (b : body) (theta : num) : bool :=
  let directionToCOM := vsub (com n) (Body.position b) in
  let distance := norm sqrtQ directionToCOM in
  (halfSize n / distance) <? theta.

(** [_calculateGravity(node, body, theta, force)]; the result is the
    vector [force] after the call. *)
Fixpoint _calculateGravity (G : num) (n : OctreeNode) (b : body)
         (theta : num) (force : vec3) : vec3 :=
  match n with
  | mkNode _ _ _ _ leaf bs cs =>
      if negb leaf then
        if accepts n b theta then vadd force (node_term G n b)
        else fold_left (fun f child => _calculateGravity G child b theta f)
                       cs force
      else fold_left (leaf_term G b) bs force
  end.

(** [calculateGravity(body, theta = 0.5)]. *)
Definition calculateGravity (t : Octree) (b : body) (theta : num) : vec3 :=
  _calculateGravity (gravityConstant t) (root t) b theta Vec3.zero.
End Walk.

(** *** Notions the properties of the bucketed octree are stated with *)

(** The region of a node: its centre and half size. *)
Definition geom (n : OctreeNode) : vec3 * num := (center n, halfSize n).

(** The bodies stored in the subtree of a node. *)
Fixpoint subtree_bodies (n : OctreeNode) : list body :=
  match n with
  | mkNode _ _ _ _ _ bs cs => bs ++ flat_map subtree_bodies cs
  end.

(** The nodes of the subtree of a node, the node itself first. *)
Fixpoint nodes (n : OctreeNode) : list OctreeNode :=
  n :: match n with
       | mkNode _ _ _ _ _ _ cs => flat_map nodes cs
       end.

Definition in_bounds (n : OctreeNode) (b : body) : Prop :=
  contains n (Body.position b) = true.

(** One axis of [contains]. *)
Definition axis_in (c h p : num) : bool := (p >=? c - h) && (p <=? c + h).

Fixpoint height (n : OctreeNode) : nat :=
  match n with
  | mkNode _ _ _ _ _ _ cs =>
      Datatypes.S (fold_right (fun child acc => Nat.max (height child) acc)
                              0%nat cs)
  end.

(** The aggregates of a node. *)
Definition aggregates (n : OctreeNode) : num * vec3 := (mass n, com n).

(** In the trees that insertion builds from bodies of positive mass, a
    node without mass is a leaf without body. *)
Inductive weighty : OctreeNode -> Prop :=
| weighty_intro c h q cm leaf bs cs :
    (0 <= q)%Q ->
    (q == 0 -> leaf = true /\ bs = []) ->
    Forall (fun b => positive (Body.mass b)) bs ->
    Forall weighty cs ->
    weighty (mkNode c h (Fin q) cm leaf bs cs).

(** A tree all of whose numbers are finite, with half sizes that are not
    negative. *)
Inductive tame : OctreeNode -> Prop :=
| tame_intro c h m cm leaf bs cs :
    (0 <= h)%Q -> JS.finite m -> Vec3.finite cm ->
    Forall Body.finite_body bs -> Forall tame cs ->
    tame (mkNode c (Fin h) m cm leaf bs cs).

(** What a recursive call of [insert] is known to keep, in the induction
    on the call depth. *)
Definition ins_weighty (ins : OctreeNode -> body -> option OctreeNode)
  : Prop :=
  forall n b n',
    weighty n -> positive (Body.mass b) -> ins n b = Some n' -> weighty n'.

(** What a recursive call of [insert] is known to keep finite. *)
Definition ins_tame (ins : OctreeNode -> body -> option OctreeNode)
  : Prop :=
  forall n b n',
    tame n -> weighty n -> Body.finite_body b -> positive (Body.mass b) ->
    ins n b = Some n' -> tame n'.

(** *** The maintenance methods of [octree.js] *)

(** [Octree.MIN_BODIES_PER_NODE], set by the constructor of [Octree]. *)
Definition MIN_BODIES_PER_NODE : nat := 5.

(** [this.bodies.indexOf(body)] followed by [splice(index, 1)]: the first
    element that is the body is taken out; [None] when [indexOf] yields
    -1. *)
Fixpoint splice_body (b : body) (bs : list body) : option (list body) :=
  match bs with
  | [] => None
  | o :: rest =>
      if Body.same o b then Some rest
      else option_map (cons o) (splice_body b rest)
  end.

(** [remove(body)].  The call [this.updateMassDistribution()] passes no
    body, so it changes nothing. *)
Fixpoint remove (n : OctreeNode) (b : body) : OctreeNode :=
  match n with
  | mkNode c h m cm leaf bs cs =>
      match splice_body b bs with
      | Some bs' => mkNode c h m cm leaf bs' cs
      | None =>
          if negb leaf then
            mkNode c h m cm leaf bs (map (fun child => remove child b) cs)
          else n
      end
  end.

(** [merge()]. *)
Definition merge (n : OctreeNode) : OctreeNode :=
  if negb (isLeaf n) && forallb isLeaf (children n) then
    let totalBodies :=
      fold_left (fun sum child => (sum + length (bodies child))%nat)
                (children n) 0%nat in
    if Nat.ltb totalBodies MIN_BODIES_PER_NODE then
      mkNode (center n) (halfSize n) (mass n) (com n) true
             (concat (map bodies (children n))) []
    else n
  else n.

(** [_pruneEmptyNodes(node)]. *)
Fixpoint _pruneEmptyNodes (n : OctreeNode) : OctreeNode :=
  match n with
  | mkNode c h m cm leaf bs cs =>
      if negb leaf then
        let nonEmptyChildren :=
          filter (fun child => negb (isEmpty child))
                 (map _pruneEmptyNodes cs) in
        mkNode c h m cm
               (if Nat.eqb (length nonEmptyChildren) 0 then true else leaf)
               bs nonEmptyChildren
      else n
  end.

(** [pruneEmptyNodes()]. *)
Definition pruneEmptyNodes (t : Octree) : Octree :=
  mkOctree (gravityConstant t) (_pruneEmptyNodes (root t)).

(** The shape of the trees that insertion and removal make of an empty
    root of finite region: a leaf holds at most [MAX_BODIES_PER_NODE]
    bodies, all of its region, and has no child; an internal node holds no
    body and has the eight octants of its region as children.  Nothing is
    said of the aggregates. *)
Inductive shape : OctreeNode -> Prop :=
| shape_leaf c h m cm bs :
    Vec3.finite c -> JS.finite h ->
    Forall (in_bounds (new_OctreeNode c h)) bs ->
    (length bs <= MAX_BODIES_PER_NODE)%nat ->
    shape (mkNode c h m cm true bs [])
| shape_internal c h m cm cs :
    Vec3.finite c -> JS.finite h ->
    map geom cs = map geom (new_children c h) ->
    Forall shape cs ->
    shape (mkNode c h m cm false [] cs).

(** What a recursive call of [insert] is known to do to the shape and to
    the bodies that are stored. *)
Definition ins_shape (ins : OctreeNode -> body -> option OctreeNode)
  : Prop :=
  forall n b n',
    shape n -> in_bounds n b -> ins n b = Some n' ->
    shape n' /\ geom n' = geom n /\
    Permutation (subtree_bodies n') (b :: subtree_bodies n).

(** The identities of the bodies of a list. *)
Definition ids (bs : list body) : list nat := map Body.id bs.

(** The bodies of a list other than [b]. *)
Definition others (b : body) (bs : list body) : list body :=
  filter (fun o => negb (Body.same o b)) bs.

(** What [remove] leaves of a node whatever the body: its region, its
    aggregates and its flag. *)
Definition frame (k : OctreeNode) : vec3 * num * (num * vec3) * bool :=
  (center k, halfSize k, aggregates k, isLeaf k).

(** [list.forEach(child => visit(child))] for a visit that may not
    return: the children after their visits, in order. *)
Section Each.
Context {A B : Type}.
Variable visit : A -> option B.

Fixpoint each (l : list A) : option (list B) :=
  match l with
  | [] => Some []
  | a :: rest => a' <- visit a ;; rest' <- each rest ;; Some (a' :: rest')
  end.
End Each.

(** [_updateNodeStructure(node)]; [fuel] bounds the depth of the calls of
    [insert] that [subdivide] makes.  [node.merge()] either leaves the
    node as it is or turns it into a leaf without children, and then
    [node.children.forEach] visits nothing: the two cases are told apart
    by the flag of the merged node
    ([BucketExtra._updateNodeStructure_internal] is the statement of the
    source). *)
Fixpoint _updateNodeStructure (fuel : nat) (n : OctreeNode)
  : option OctreeNode :=
  match n with
  | mkNode c h m cm leaf bs cs =>
      if leaf then
        if Nat.ltb MAX_BODIES_PER_NODE (length bs)
        then subdivide (insert fuel) n
        else Some n
      else
        let n1 := merge n in
        if isLeaf n1 then Some n1
        else
          cs' <- each (_updateNodeStructure fuel) cs ;;
          Some (mkNode c h m cm false bs cs')
  end.

(** [updateStructure()]. *)
Definition updateStructure (fuel : nat) (t : Octree) : option Octree :=
  r <- _updateNodeStructure fuel (root t) ;;
  Some (mkOctree (gravityConstant t) r).

(** An internal node of a pruned tree has a child, and no empty one. *)
Definition trimmed (k : OctreeNode) : Prop :=
  isLeaf k = false ->
  children k <> [] /\ Forall (fun c => isEmpty c = false) (children k).

(** The tree with every stored body replaced by its image under [r]. *)
Fixpoint relabel (r : body -> body) (n : OctreeNode) : OctreeNode :=
  match n with
  | mkNode c h m cm leaf bs cs =>
      mkNode c h m cm leaf (map r bs) (map (relabel r) cs)
  end.

Definition relabel_tree (r : body -> body) (t : Octree) : Octree :=
  mkOctree (gravityConstant t) (relabel r (root t)).

End Bucket.

(** ** The octree with one body per leaf: [src/OctreeNode.js] *)

Module Strict.

Local Open Scope num_scope.

(** [class OctreeNode] of [OctreeNode.js]; [children] is the array of
    eight slots, [None] for [null]. *)
Inductive OctreeNode : Type :=
  mkNode {
    center : vec3;
    halfDimension : vec3;
    children : list (option OctreeNode);
    body : option Body.body;
    mass : num;
    centerOfMass : vec3
  }.

(** [new OctreeNode(center, halfDimension)]. *)
Definition new_OctreeNode (c h : vec3) : OctreeNode :=
  mkNode c h (repeat None 8) None JS.zero Vec3.zero.

(** [clear()]: the children it clears recursively are dropped from the
    array, so the node is left with its slots all [null]. *)
Definition clear (n : OctreeNode) : OctreeNode :=
  mkNode (center n) (halfDimension n) (map (fun _ => None) (children n))
         None JS.zero Vec3.zero.

Definition is_null (c : option OctreeNode) : bool :=
  match c with
  | None => true
  | Some _ => false
  end.

Definition isLeaf (n : OctreeNode) : bool := forallb is_null (children n).

Definition getOctantIndex (n : OctreeNode) (position : vec3) : nat :=
  let index := 0%nat in
  let index := if x position >=? x (center n) then Nat.lor index 4 else index in
  let index := if y position >=? y (center n) then Nat.lor index 2 else index in
  let index := if z position >=? z (center n) then Nat.lor index 1 else index in
  index.

(** [this.children[i]]; a slot that does not exist reads as absent. *)
Definition get_child (n : OctreeNode) (i : nat) : option OctreeNode :=
  match nth_error (children n) i with
  | Some c => c
  | None => None
  end.

(** [array[i] = v]; an array too short is extended. *)
Fixpoint set_nth (i : nat) (v : option OctreeNode)
         (l : list (option OctreeNode)) : list (option OctreeNode) :=
  match i, l with
  | O, [] => [v]
  | O, _ :: t => v :: t
  | S i', [] => None :: set_nth i' v []
  | S i', h :: t => h :: set_nth i' v t
  end.

Definition set_child (n : OctreeNode) (i : nat) (c : option OctreeNode)
  : OctreeNode :=
  mkNode (center n) (halfDimension n) (set_nth i c (children n)) (body n)
         (mass n) (centerOfMass n).

(** [(i & bit ? 0.5 : -0.5)], with [k] the position of the bit. *)
Definition half_sign (i k : nat) : num :=
  if Nat.testbit i k then Fin 0.5 else Fin (-0.5).

(** The child that the loop of [subdivide] builds for index [i]. *)
Definition subdivide_child (n : OctreeNode) (i : nat) : OctreeNode :=
  let newHalf := scale (halfDimension n) (Fin 0.5) in
  new_OctreeNode
    (Vec3.mk (x (center n) + x newHalf * half_sign i 2)
             (y (center n) + y newHalf * half_sign i 1)
             (z (center n) + z newHalf * half_sign i 0))
    newHalf.

Definition subdivide (n : OctreeNode) : OctreeNode :=
  mkNode (center n) (halfDimension n)
         (map (fun i => Some (subdivide_child n i)) (seq 0 8)
          ++ skipn 8 (children n))
         (body n) (mass n) (centerOfMass n).

(** The child that [insert] builds for an octant whose slot is empty. *)
Definition insert_child (n : OctreeNode) (octantIndex : nat) : OctreeNode :=
  new_OctreeNode
    (Vec3.mk
       (x (center n) + x (halfDimension n) * half_sign octantIndex 2)
       (y (center n) + y (halfDimension n) * half_sign octantIndex 1)
       (z (center n) + z (halfDimension n) * half_sign octantIndex 0))
    (scale (halfDimension n) (Fin 0.5)).

Definition updateMassAndCenterOfMass (n : OctreeNode) (b : Body.body)
  : OctreeNode :=
  let totalMass := mass n + Body.mass b in
  let com := scale (vadd (scale (centerOfMass n) (mass n))
                         (scale (Body.position b) (Body.mass b)))
                   (JS.one / totalMass) in
  mkNode (center n) (halfDimension n) (children n) (body n) totalMass com.

Section Recursive.
(** [child.insert], at the call depth that is left. *)
Variable insert : OctreeNode -> Body.body -> option OctreeNode.

(** The body of [if (this.isLeaf())] for a leaf that holds
    [this_body]: subdivide, hand the occupant to its octant, and empty
    [this.body].  [subdivide] has just filled the slot that is read. *)
Definition split_leaf (n : OctreeNode) (this_body : Body.body)
  : option OctreeNode :=
  let n' := subdivide n in
  let i := getOctantIndex n' (Body.position this_body) in
  match get_child n' i with
  | Some child =>
      child' <- insert child this_body ;;
      Some (mkNode (center n') (halfDimension n')
                   (set_nth i (Some child') (children n')) None
                   (mass n') (centerOfMass n'))
  | None => None
  end.

(** The rest of [insert]: the new body goes to its octant, whose node
    is created when the slot is empty, and the aggregates are
    updated. *)
Definition insert_in_octant (n : OctreeNode) (b : Body.body)
  : option OctreeNode :=
  let octantIndex := getOctantIndex n (Body.position b) in
  let child := match get_child n octantIndex with
               | None => insert_child n octantIndex
               | Some c => c
               end in
  child' <- insert child b ;;
  Some (updateMassAndCenterOfMass
          (set_child n octantIndex (Some child')) b).
End Recursive.

(** [insert(body)]; [fuel] bounds the depth of the calls. *)
Fixpoint insert (fuel : nat) (n : OctreeNode) (b : Body.body)
  : option OctreeNode :=
  match fuel with
  | O => None
  | S fuel' =>
      match body n, isLeaf n with
      | None, true =>
          Some (mkNode (center n) (halfDimension n) (children n) (Some b)
                       (Body.mass b) (Body.position b))
      | Some this_body, true =>
          n1 <- split_leaf (insert fuel') n this_body ;;
          insert_in_octant (insert fuel') n1 b
      | _, false => insert_in_octant (insert fuel') n b
      end
  end.

(** The rebuild cycle on a root: [clear()], then every body inserted. *)
Fixpoint insert_all (fuel : nat) (n : OctreeNode) (bs : list Body.body)
  : option OctreeNode :=
  match bs with
  | [] => Some n
  | b :: rest => n' <- insert fuel n b ;; insert_all fuel n' rest
  end.

Definition rebuild (fuel : nat) (n : OctreeNode) (bs : list Body.body)
  : option OctreeNode :=
  insert_all fuel (clear n) bs.

(** [this.size]: no constructor or method of the class assigns the
    property, so the read yields [undefined], which is NaN in the
    arithmetic of the test. *)
Definition size (n : OctreeNode) : num := NaN.

Definition is_body (n : OctreeNode) (b : Body.body) : bool :=
  match body n with
  | Some this_body => Body.same b this_body
  | None => false
  end.

Section Walk.
Variable sqrtQ : Q -> Q.

(** The term added by the direct branch of [calculateForcesOnBody]. *)
Definition point_mass_term (G : num) (n : OctreeNode) (b : Body.body)
  : vec3 :=
  let distanceSquared :=
    distanceSquared (centerOfMass n) (Body.position b) in
  let magnitude := (G * mass n * Body.mass b) / distanceSquared in
  scale (normalize sqrtQ (vsub (centerOfMass n) (Body.position b)))
        magnitude.

(** The test [this.size * this.size / distanceSquared < theta * theta
    || this.isLeaf()]. *)
Definition accepts (n : OctreeNode) (b : Body.body) (theta : num) : bool :=
  let distanceSquared :=
    distanceSquared (centerOfMass n) (Body.position b) in
  ((size n * size n) / distanceSquared <? theta * theta) || isLeaf n.

(** [calculateForcesOnBody(body, theta, force, G)]; the result is the
    vector [force] after the call. *)
Fixpoint calculateForcesOnBody (n : OctreeNode) (b : Body.body)
         (theta : num) (force : vec3) (G : num) : vec3 :=
  match n with
  | mkNode _ _ cs _ m cm =>
      if (m === JS.zero) || is_body n b then force
      else
        let distanceSquared := distanceSquared cm (Body.position b) in
        if distanceSquared === JS.zero then force
        else if accepts n b theta then
          vadd force (point_mass_term G n b)
        else
          fold_left
            (fun f child =>
               match child with
               | Some c => calculateForcesOnBody c b theta f G
               | None => f
               end) cs force
  end.
End Walk.

(** [calculateForcesOnBody] with [normalize] as the cannon-es library
    has it: the method scales the vector in place and returns its norm, a
    number, so the call of [scale] on what it returns raises a TypeError,
    which nothing in the walk catches. *)
Module CannonES.

(** What a call comes to: the vector [force] after it, or the exception
    thrown out of it. *)
Inductive outcome : Type :=
| Returns (force : vec3)
| TypeError.

Fixpoint calculateForcesOnBody (n : OctreeNode) (b : Body.body)
         (theta : num) (force : vec3) (G : num) : outcome :=
  match n with
  | mkNode _ _ cs _ m cm =>
      if (m === JS.zero) || is_body n b then Returns force
      else
        let distanceSquared := distanceSquared cm (Body.position b) in
        if distanceSquared === JS.zero then Returns force
        else if ((size n * size n) / distanceSquared <? theta * theta)
                || isLeaf n then
          let magnitude := (G * m * Body.mass b) / distanceSquared in
          TypeError
        else
          fold_left
            (fun acc child =>
               match acc, child with
               | Returns f, Some c => calculateForcesOnBody c b theta f G
               | _, _ => acc
               end) cs (Returns force)
  end.

End CannonES.

(** *** Notions the properties of this octree are stated with *)

Definition occupant (b : option Body.body) : list Body.body :=
  match b with
  | Some b => [b]
  | None => []
  end.

(** The bodies stored in the subtree of a node. *)
Fixpoint subtree_bodies (n : OctreeNode) : list Body.body :=
  match n with
  | mkNode _ _ cs b _ _ =>
      occupant b ++
      flat_map (fun child => match child with
                             | Some c => subtree_bodies c
                             | None => []
                             end) cs
  end.

(** The nodes of the subtree of a node, the node itself first. *)
Fixpoint nodes (n : OctreeNode) : list OctreeNode :=
  n :: match n with
       | mkNode _ _ cs _ _ _ =>
           flat_map (fun child => match child with
                                  | Some c => nodes c
                                  | None => []
                                  end) cs
       end.

(** The aggregate mass of a node is the sum over its subtree. *)
Definition mass_eq (n : OctreeNode) : Prop :=
  mass n =n= Body.sum_mass (subtree_bodies n).

Definition mass_ok (n : OctreeNode) : Prop := Forall mass_eq (nodes n).

Definition bodies_opt (child : option OctreeNode) : list Body.body :=
  match child with
  | Some c => subtree_bodies c
  | None => []
  end.

Definition subtree_mass (n : OctreeNode) : num := Body.sum_mass (subtree_bodies n).
Definition slot_mass (c : option OctreeNode) : num := Body.sum_mass (bodies_opt c).
Definition children_mass (cs : list (option OctreeNode)) : num :=
  Body.sum_mass (flat_map bodies_opt cs).

Definition children_ok (cs : list (option OctreeNode)) : Prop :=
  forall k, In (Some k) cs -> mass_ok k.

Definition nth_child (cs : list (option OctreeNode)) (i : nat)
  : option OctreeNode :=
  match nth_error cs i with
  | Some c => c
  | None => None
  end.

(** What a recursive call of [insert] is known to do, in the induction
    on the call depth. *)
Definition ins_ok (ins : OctreeNode -> Body.body -> option OctreeNode)
  : Prop :=
  forall n b n',
    mass_ok n -> ins n b = Some n' ->
    mass_ok n' /\ subtree_mass n' =n= subtree_mass n + Body.mass b.

(** The cube of centre [c] and half extent [h], as a region of space. *)
Definition in_region (c h p : vec3) : bool :=
  (x p >=? x c - x h) && (x p <=? x c + x h) &&
  (y p >=? y c - y h) && (y p <=? y c + y h) &&
  (z p >=? z c - z h) && (z p <=? z c + z h).

(** The masses of a list of bodies as a node comes to them: the mass of
    the first is taken as it is, the masses of the others are added to
    it one after the other. *)
Definition running (l : list Body.body) : num :=
  match l with
  | [] => JS.zero
  | b :: rest => fold_left (fun m a => m + Body.mass a) rest (Body.mass b)
  end.

(** At every node the mass is the running sum over the bodies stored in
    the subtree of the node, in some order; a node with no body in its
    subtree is a leaf. *)
Inductive tallied : OctreeNode -> Prop :=
| tallied_intro c h cs ob m cm l :
    m = running l ->
    Permutation l (occupant ob ++ flat_map bodies_opt cs) ->
    (l = [] -> forallb is_null cs = true) ->
    (forall k, In (Some k) cs -> tallied k) ->
    tallied (mkNode c h cs ob m cm).

(** The position [p] lies, on every axis, at half the half extent [h]
    or more above the centre [c]: in the outer part of the last octant
    of the region. *)
Definition outer (c h p : vec3) : Prop :=
  exists cx cy cz hx hy hz px py pz : Q,
    c = Vec3.mk (Fin cx) (Fin cy) (Fin cz) /\
    h = Vec3.mk (Fin hx) (Fin hy) (Fin hz) /\
    p = Vec3.mk (Fin px) (Fin py) (Fin pz) /\
    (0 <= hx /\ 0 <= hy /\ 0 <= hz)%Q /\
    (cx + hx * (1 # 2) <= px /\ cy + hy * (1 # 2) <= py
     /\ cz + hz * (1 # 2) <= pz)%Q.

(** What [clear] keeps of a node: its region and its array of slots. *)
Definition slots (n : OctreeNode) : vec3 * vec3 * nat :=
  (center n, halfDimension n, length (children n)).

(** What a recursive call of [insert] is known to do to the bodies that
    are stored. *)
Definition ins_stores (ins : OctreeNode -> Body.body -> option OctreeNode)
  : Prop :=
  forall n b n',
    ins n b = Some n' ->
    Permutation (subtree_bodies n') (b :: subtree_bodies n).

(** The octant of [p] for a node of centre [c]: [getOctantIndex] reads
    nothing but the centre of the node. *)
Definition octant (c p : vec3) : nat :=
  getOctantIndex (new_OctreeNode c Vec3.zero) p.

(** The trees that insertion builds: a node that holds a body is a leaf,
    and the bodies below slot [i] of a node are those of its octant
    [i]. *)
Inductive proper : OctreeNode -> Prop :=
| proper_intro c h cs ob m cm :
    (ob <> None -> forallb is_null cs = true) ->
    (forall i k, nth_child cs i = Some k ->
                 proper k /\
                 Forall (fun b => octant c (Body.position b) = i)
                        (subtree_bodies k)) ->
    proper (mkNode c h cs ob m cm).

(** What [proper] says of one node. *)
Definition placed (k : OctreeNode) : Prop :=
  (body k <> None -> isLeaf k = true) /\
  forall i c, nth_child (children k) i = Some c ->
              Forall (fun b => getOctantIndex k (Body.position b) = i)
                     (subtree_bodies c).

Definition ins_proper (ins : OctreeNode -> Body.body -> option OctreeNode)
  : Prop :=
  forall n b n',
    proper n -> ins n b = Some n' -> proper n' /\ center n' = center n.

End Strict.

(** ** The simulation: the callers of the octree in [src/sim.js] *)

Module Sim.
Import Bucket.
Local Open Scope num_scope.

(** The object [{ mass: body.mass, position: body.position }] that
    [applyGravity] and [restart] hand to the octree: an object of its
    own, of identity [fresh], with the mass and the position of the
    body. *)
Definition bodyObject (fresh : nat) (b : body) : body :=
  Body.mk fresh (Body.position b) (Body.mass b).

Section Forces.
Variable sqrtQ : Q -> Q.

(** The identity of the object made for the body of a given
    identity. *)
Variable fresh : nat -> nat.

(** [applyGravity()]: a new octree, the objects made for the bodies
    inserted, and for every body the force that is added to
    [body.force]. *)
Definition applyGravity (fuel : nat) (worldSize gravityConstant : num)
           (bodies : list body) : option (list vec3) :=
  octree <- insert_all fuel (new_Octree worldSize gravityConstant)
                       (map (fun b => bodyObject (fresh (Body.id b)) b)
                            bodies) ;;
  Some (map (fun b => calculateGravity sqrtQ octree b (Fin 0.5)) bodies).

(** The first half of [update(deltaTime, enableColorMapping)]: the
    octree rebuilt from the bodies themselves, and for every body the
    force handed to [body.applyForce]. *)
Definition update (fuel : nat) (octree : Octree) (bodies : list body)
  : option (Octree * list vec3) :=
  octree' <- rebuild fuel octree bodies ;;
  Some (octree',
        map (fun b => calculateGravity sqrtQ octree' b (Fin 0.5)) bodies).

(** [calculateAcceleration(body)]. *)
Definition calculateAcceleration (octree : Octree) (b : body) : vec3 :=
  let force := calculateGravity sqrtQ octree b (Fin 0.5) in
  scale force (JS.one / Body.mass b).

(** [calculateMaxAcceleration()]; [acceleration.length()] is the norm
    of the vector. *)
Definition calculateMaxAcceleration (octree : Octree)
           (bodies : list body) : num :=
  fold_left
    (fun maxAccelerationMagnitude b =>
       let acceleration := calculateAcceleration octree b in
       let accelerationMagnitude := norm sqrtQ acceleration in
       nmax maxAccelerationMagnitude accelerationMagnitude)
    bodies JS.zero.
End Forces.

(** A stored body [o] whose object [r o] is not the body [b], and which
    is at the position of [b] if it is [b]. *)
Definition told_apart (r : body -> body) (b o : body) : Prop :=
  Body.same (r o) b = false /\
  (Body.same o b = true -> Body.position o = Body.position b).

End Sim.

(** ** Sample runs *)

(** A square root for the sample runs: exact on the rationals [n/d] for
    which [n*d] is a perfect square, rounded down otherwise. *)
Definition sqrt_floor (q : Q) : Q :=
  Z.sqrt (Qnum q * Zpos (Qden q)) # Qden q.

Module Samples.

Definition v3 (a b c : Q) : vec3 := Vec3.mk (Fin a) (Fin b) (Fin c).

(** The world of the bucketed octree: side 100, gravity constant 1. *)
Definition world : Bucket.Octree := Bucket.new_Octree (Fin 100) (Fin 1).

(** A root of the octree with one body per leaf. *)
Definition sroot : Strict.OctreeNode :=
  Strict.new_OctreeNode Vec3.zero (v3 50 50 50).

(** Two bodies of mass 100 at distance 20. *)
Definition bodyA : body := Body.mk 1 (v3 (-10) 0 0) (Fin 100).
Definition bodyB : body := Body.mk 2 (v3 10 0 0) (Fin 100).

(** Two unit masses on the x axis and a target at the origin. *)
Definition near1 : body := Body.mk 1 (v3 1 0 0) (Fin 1).
Definition near3 : body := Body.mk 2 (v3 3 0 0) (Fin 1).
Definition target : body := Body.mk 9 (v3 0 0 0) (Fin 1).

(** Two bodies at the same position. *)
Definition twin1 : body := Body.mk 1 (v3 1 1 1) (Fin 1).
Definition twin2 : body := Body.mk 2 (v3 1 1 1) (Fin 1).

(** One body more than a bucket holds, all at the same position. *)
Definition eleven_twins : list body :=
  map (fun i => Body.mk i (v3 1 1 1) (Fin 1)) (seq 0 11).

(** A body of mass [m] at the origin and a unit mass at distance 1. *)
Definition heavy (m : Q) : body := Body.mk 1 (v3 0 0 0) (Fin m).
Definition probe : body := Body.mk 2 (v3 1 0 0) (Fin 1).

(** Bodies that a validation would refuse. *)
Definition negative_mass : body := Body.mk 7 (v3 1 2 3) (Fin (-5)).
Definition nan_position : body :=
  Body.mk 8 (Vec3.mk NaN (Fin 0) PInf) (Fin 2).

(** Two bodies of the region of [sroot], 10 apart on every axis. *)
Definition apart1 : body := Body.mk 1 (v3 30 30 30) (Fin 1).
Definition apart2 : body := Body.mk 2 (v3 40 40 40) (Fin 1).

(** A body none of whose coordinates is a number. *)
Definition lost (i : nat) : body := Body.mk i (Vec3.mk NaN NaN NaN) (Fin 2).

(** A body at the position of [near1]. *)
Definition shadow : body := Body.mk 4 (v3 1 0 0) (Fin 1).

(** A unit mass at distance one millionth of the origin. *)
Definition close : body := Body.mk 3 (v3 0.000001 0 0) (Fin 1).

(** A node of half extent 8 that holds a body, and a point of its
    region near a corner. *)
Definition cube : Strict.OctreeNode :=
  Strict.mkNode Vec3.zero (v3 8 8 8) (repeat None 8) (Some near1) (Fin 1)
                (v3 1 0 0).
Definition corner : vec3 := v3 7 7 7.

(** Eleven bodies of the world, one more than a bucket holds, and a body
    outside the world. *)
Definition crowd : list body :=
  map (fun i => Body.mk i (v3 (inject_Z (Z.of_nat i) * 4 - 20) 3 (-7))
                        (Fin (inject_Z (Z.of_nat i) + 1)))
      (seq 0 11).

(** A body of [crowd], and the same body after it has moved. *)
Definition mover : body := Body.mk 3 (v3 (-8) 3 (-7)) (Fin 4).

(** A body that [crowd] does not hold. *)
Definition stranger : body := Body.mk 77 (v3 1 1 1) (Fin 1).

(** A body of the world in an octant that [crowd] leaves empty. *)
Definition settler : body := Body.mk 60 (v3 10 (-10) 10) (Fin 2).

(** A body without mass, as the static bodies of the physics engine
    are. *)
Definition ghost : body := Body.mk 99 (v3 1 1 1) (Fin 0).

End Samples.

(** * The bucketed octree on IEEE 754 doubles

    The definitions of [Bucket] again, method by method, with a
    JavaScript number taken for what it is: a binary64 float, every
    operation rounded to nearest, with overflow to the infinities, NaN
    and the signed zeros.  [Math.sqrt] is the correctly rounded square
    root.  Where a property depends on the rounding (how deep a
    subdivision goes, whether a body is lost, whether a force stays
    finite) it is stated on these definitions. *)

Module Double.

Local Open Scope float_scope.

(** The methods of the cannon [Vec3] that [octree.js] calls. *)
Module Vec3.

Record vec3 : Type := mk { x : float; y : float; z : float }.

Definition zero : vec3 := mk 0 0 0.

(** [this.vadd(v, target)]: [target.x = v.x + this.x] and so on. *)
Definition vadd (this v : vec3) : vec3 :=
  mk (x v + x this) (y v + y this) (z v + z this).

(** [this.vsub(v)]: [this.x - v.x] and so on. *)
Definition vsub (this v : vec3) : vec3 :=
  mk (x this - x v) (y this - y v) (z this - z v).

(** [this.mult(s)]: [s * this.x] and so on. *)
Definition mult (this : vec3) (s : float) : vec3 :=
  mk (s * x this) (s * y this) (s * z this).

(** [this.norm2()]. *)
Definition norm2 (this : vec3) : float :=
  x this * x this + y this * y this + z this * z this.

(** [this.norm()]. *)
Definition norm (this : vec3) : float :=
  sqrt (x this * x this + y this * y this + z this * z this).

(** [this.unit(target)]: the vector scaled by the inverse of its norm,
    and (1,0,0) when the norm is not positive. *)
Definition unit (this : vec3) : vec3 :=
  let ninv := norm this in
  if 0 <? ninv then
    let ninv := 1 / ninv in
    mk (x this * ninv) (y this * ninv) (z this * ninv)
  else mk 1 0 0.

End Vec3.

Import Vec3.

Module Body.
Record body : Type := mk { id : nat; position : vec3; mass : float }.
Definition same (a b : body) : bool := Nat.eqb (id a) (id b).
End Body.

Module Bucket.

(** [class OctreeNode] of [octree.js]. *)
Inductive OctreeNode : Type :=
  mkNode {
    center : vec3;
    halfSize : float;
    mass : float;
    com : vec3;
    isLeaf : bool;
    bodies : list Body.body;
    children : list OctreeNode
  }.

Definition MAX_BODIES_PER_NODE : nat := 10.

(** [new OctreeNode(center, halfSize)]. *)
Definition new_OctreeNode (c : vec3) (h : float) : OctreeNode :=
  mkNode c h 0 Vec3.zero true [] [].

Definition contains (n : OctreeNode) (point : vec3) : bool :=
  (x (center n) - halfSize n <=? x point) &&
  (x point <=? x (center n) + halfSize n) &&
  (y (center n) - halfSize n <=? y point) &&
  (y point <=? y (center n) + halfSize n) &&
  (z (center n) - halfSize n <=? z point) &&
  (z point <=? z (center n) + halfSize n).

(** [updateMassDistribution(body)] with a body given. *)
Definition updateMassDistribution (n : OctreeNode) (b : Body.body)
  : OctreeNode :=
  let newMass := mass n + Body.mass b in
  let p := Body.position b in
  let c := com n in
  mkNode (center n) (halfSize n) newMass
    (Vec3.mk ((x c * mass n + x p * Body.mass b) / newMass)
             ((y c * mass n + y p * Body.mass b) / newMass)
             ((z c * mass n + z p * Body.mass b) / newMass))
    (isLeaf n) (bodies n) (children n).

(** The values of the three loop variables of [subdivide], in the order
    in which the children are pushed. *)
Definition octant_signs : list (float * float * float) :=
  flat_map (fun sx => flat_map (fun sy => map (fun sz => (sx, sy, sz))
                                              [-1; 1]) [-1; 1]) [-1; 1].

(** [this.center.x + x * quarterSize] and so on: the product is exact,
    the sum is rounded. *)
Definition childCenter (c : vec3) (quarterSize : float)
           (s : float * float * float) : vec3 :=
  let '(sx, sy, sz) := s in
  Vec3.mk (x c + sx * quarterSize)
          (y c + sy * quarterSize)
          (z c + sz * quarterSize).

Definition new_children (c : vec3) (h : float) : list OctreeNode :=
  let quarterSize := h * 0.5 in
  map (fun s => new_OctreeNode (childCenter c quarterSize s) quarterSize)
      octant_signs.

Section Recursive.
(** [child.insert], at the call depth that is left. *)
Variable insert : OctreeNode -> Body.body -> option OctreeNode.

(** The loop of [_insertIntoChild]: the first child that contains the
    position takes the body; without such a child nothing is done. *)
Fixpoint insert_first (cs : list OctreeNode) (b : Body.body)
  : option (list OctreeNode) :=
  match cs with
  | [] => Some []
  | child :: rest =>
      if contains child (Body.position b) then
        child' <- insert child b ;; Some (child' :: rest)
      else
        rest' <- insert_first rest b ;; Some (child :: rest')
  end.

Definition _insertIntoChild (n : OctreeNode) (b : Body.body)
  : option OctreeNode :=
  cs <- insert_first (children n) b ;;
  Some (mkNode (center n) (halfSize n) (mass n) (com n) (isLeaf n)
               (bodies n) cs).

(** [bodiesToMove.forEach(body => this._insertIntoChild(body))]. *)
Fixpoint move_bodies (n : OctreeNode) (bs : list Body.body)
  : option OctreeNode :=
  match bs with
  | [] => Some n
  | b :: rest => n' <- _insertIntoChild n b ;; move_bodies n' rest
  end.

Definition subdivide (n : OctreeNode) : option OctreeNode :=
  let bodiesToMove := bodies n in
  move_bodies
    (mkNode (center n) (halfSize n) (mass n) (com n) false []
            (children n ++ new_children (center n) (halfSize n)))
    bodiesToMove.
End Recursive.

(** [OctreeNode.insert(body)]; [fuel] bounds the depth of the calls. *)
Fixpoint insert (fuel : nat) (n : OctreeNode) (b : Body.body)
  : option OctreeNode :=
  match fuel with
  | O => None
  | S fuel' =>
      n1 <- (if negb (isLeaf n) then _insertIntoChild (insert fuel') n b
             else
               let n' := mkNode (center n) (halfSize n) (mass n) (com n)
                                (isLeaf n) (bodies n ++ [b]) (children n) in
               if Nat.ltb MAX_BODIES_PER_NODE (length (bodies n'))
               then subdivide (insert fuel') n'
               else Some n') ;;
      let n2 := updateMassDistribution n1 b in
      if isLeaf n2 && Nat.ltb MAX_BODIES_PER_NODE (length (bodies n2))
      then subdivide (insert fuel') n2
      else Some n2
  end.

(** [class Octree], with the fields the rebuild and the walk use. *)
Record Octree : Type :=
  mkOctree { gravityConstant : float; root : OctreeNode }.

(** [new Octree(worldSize, gravityConstant)]. *)
Definition new_Octree (worldSize gravityConstant : float) : Octree :=
  mkOctree gravityConstant
           (new_OctreeNode (Vec3.mk 0 0 0) (worldSize / 2)).

Definition clear (t : Octree) : Octree :=
  mkOctree (gravityConstant t)
           (new_OctreeNode (center (root t)) (halfSize (root t))).

Definition Octree_insert (fuel : nat) (t : Octree) (b : Body.body)
  : option Octree :=
  r <- insert fuel (root t) b ;; Some (mkOctree (gravityConstant t) r).

(** [this.bodies.forEach(body => this.octree.insert(body))]. *)
Fixpoint insert_all (fuel : nat) (t : Octree) (bs : list Body.body)
  : option Octree :=
  match bs with
  | [] => Some t
  | b :: rest => t' <- Octree_insert fuel t b ;; insert_all fuel t' rest
  end.

(** The rebuild of a simulation step: [clear], then every body
    inserted. *)
Definition rebuild (fuel : nat) (t : Octree) (bs : list Body.body)
  : option Octree :=
  insert_all fuel (clear t) bs.

(** The pairwise term of the leaf branch of [_calculateGravity]. *)
Definition leaf_term (G : float) (b : Body.body) (force : vec3)
           (otherBody : Body.body) : vec3 :=
  if negb (Body.same otherBody b) then
    let direction := vsub (Body.position otherBody) (Body.position b) in
    let distanceSquared := norm2 direction in
    if 1e-10 <? distanceSquared then
      let strength := (G * Body.mass b * Body.mass otherBody)
                      / distanceSquared in
      let unitDirection := unit direction in
      let gravityForce := mult unitDirection strength in
      vadd force gravityForce
    else force
  else force.

(** The point-mass term of an internal node that passes the test. *)
Definition node_term (G : float) (n : OctreeNode) (b : Body.body) : vec3 :=
  let directionToCOM := vsub (com n) (Body.position b) in
  let distance := norm directionToCOM in
  let strength := (G * Body.mass b * mass n) / (distance * distance) in
  mult (unit directionToCOM) strength.

(** The test [(node.halfSize / distance) < theta]. *)
Definition accepts (n : OctreeNode) (b : Body.body) (theta : float) : bool :=
  let directionToCOM := vsub (com n) (Body.position b) in
  let distance := norm directionToCOM in
  (halfSize n / distance) <? theta.

(** [_calculateGravity(node, body, theta, force)]; the result is the
    vector [force] after the call. *)
Fixpoint _calculateGravity (G : float) (n : OctreeNode) (b : Body.body)
         (theta : float) (force : vec3) : vec3 :=
  match n with
  | mkNode _ _ _ _ leaf bs cs =>
      if negb leaf then
        if accepts n b theta then vadd force (node_term G n b)
        else fold_left (fun f child => _calculateGravity G child b theta f)
                       cs force
      else fold_left (leaf_term G b) bs force
  end.

(** [calculateGravity(body, theta = 0.5)]. *)
Definition calculateGravity (t : Octree) (b : Body.body) (theta : float)
  : vec3 :=
  _calculateGravity (gravityConstant t) (root t) b theta Vec3.zero.

(** [isEmpty()]. *)
Definition isEmpty (n : OctreeNode) : bool :=
  isLeaf n && Nat.eqb (length (bodies n)) 0.

(** [this.bodies.indexOf(body)] followed by [splice(index, 1)]: the first
    element that is the body is taken out; [None] when [indexOf] yields
    -1. *)
Fixpoint splice_body (b : Body.body) (bs : list Body.body)
  : option (list Body.body) :=
  match bs with
  | [] => None
  | o :: rest =>
      if Body.same o b then Some rest
      else option_map (cons o) (splice_body b rest)
  end.

(** [remove(body)].  The call [this.updateMassDistribution()] passes no
    body, so it changes nothing. *)
Fixpoint remove (n : OctreeNode) (b : Body.body) : OctreeNode :=
  match n with
  | mkNode c h m cm leaf bs cs =>
      match splice_body b bs with
      | Some bs' => mkNode c h m cm leaf bs' cs
      | None =>
          if negb leaf then
            mkNode c h m cm leaf bs (map (fun child => remove child b) cs)
          else n
      end
  end.

(** [_pruneEmptyNodes(node)]. *)
Fixpoint _pruneEmptyNodes (n : OctreeNode) : OctreeNode :=
  match n with
  | mkNode c h m cm leaf bs cs =>
      if negb leaf then
        let nonEmptyChildren :=
          filter (fun child => negb (isEmpty child))
                 (map _pruneEmptyNodes cs) in
        mkNode c h m cm
               (if Nat.eqb (length nonEmptyChildren) 0 then true else leaf)
               bs nonEmptyChildren
      else n
  end.

(** *** Notions the properties are stated with *)

(** The bodies stored in the subtree of a node. *)
Fixpoint subtree_bodies (n : OctreeNode) : list Body.body :=
  match n with
  | mkNode _ _ _ _ _ bs cs => bs ++ flat_map subtree_bodies cs
  end.

(** The number of levels of the subtree of a node. *)
Fixpoint height (n : OctreeNode) : nat :=
  match n with
  | mkNode _ _ _ _ _ _ cs =>
      S (fold_right (fun child acc => Nat.max (height child) acc) 0%nat cs)
  end.

(** The nodes of the subtree of a node, the node itself first. *)
Fixpoint nodes (n : OctreeNode) : list OctreeNode :=
  n :: match n with
       | mkNode _ _ _ _ _ _ cs => flat_map nodes cs
       end.

(** The region of a node: its centre and half size. *)
Definition geom (n : OctreeNode) : vec3 * float := (center n, halfSize n).

(** The aggregates of a node. *)
Definition aggregates (n : OctreeNode) : float * vec3 := (mass n, com n).

(** The loop of [_insertIntoChild], for a tree walk [visit] in place of
    the insertion: the first child that contains [p] is visited. *)
Fixpoint first_containing {A : Type} (visit : OctreeNode -> A) (none : A)
         (p : vec3) (cs : list OctreeNode) : A :=
  match cs with
  | [] => none
  | child :: rest =>
      if contains child p then visit child
      else first_containing visit none p rest
  end.

(** No leaf below [n] takes a body at [p]: [n] is internal, and no child
    contains [p] or the first that does is in the same situation. *)
Fixpoint homeless (p : vec3) (n : OctreeNode) : bool :=
  match n with
  | mkNode _ _ _ _ leaf _ cs =>
      negb leaf && first_containing (homeless p) true p cs
  end.

(** The children of a node with the first that contains [p] replaced. *)
Fixpoint replace_first (visit : OctreeNode -> OctreeNode) (p : vec3)
         (cs : list OctreeNode) : list OctreeNode :=
  match cs with
  | [] => []
  | child :: rest =>
      if contains child p then visit child :: rest
      else child :: replace_first visit p rest
  end.

(** The tree in which every node on the insertion path of [b] took the
    mass of [b] into its aggregates, and nothing else changed. *)
Fixpoint credit (b : Body.body) (n : OctreeNode) : OctreeNode :=
  match n with
  | mkNode c h m cm leaf bs cs =>
      updateMassDistribution
        (mkNode c h m cm leaf bs
                (replace_first (credit b) (Body.position b) cs))
        b
  end.

(** The nodes that [insert] visits for a body at [p] in a tree without a
    home for it, the node itself first. *)
Fixpoint path (p : vec3) (n : OctreeNode) : list OctreeNode :=
  n :: match n with
       | mkNode _ _ _ _ _ _ cs => first_containing (path p) [] p cs
       end.

(** The masses of the bodies of a list added to 0 one after the other,
    as the successive calls of [updateMassDistribution] add them. *)
Definition running_mass (l : list Body.body) : float :=
  fold_left (fun m b => m + Body.mass b) l 0.

(** [counted arrived n]: the mass of [n] is the running sum over
    [arrived], the bodies that [insert] was called with at this node, in
    the order of the calls; these are the bodies that the node holds,
    the bodies that arrived at its children, and the bodies that it
    dropped, for which it had no child that contained them; and so for
    every node below. *)
Inductive counted : list Body.body -> OctreeNode -> Prop :=
| counted_intro c h m cm leaf bs cs arrived below here :
    m = running_mass arrived ->
    Forall2 counted below cs ->
    Permutation arrived (bs ++ concat below ++ here) ->
    counted arrived (mkNode c h m cm leaf bs cs).

End Bucket.

Module Samples.

Definition v3 (a b c : float) : vec3 := Vec3.mk a b c.

(** The world of the bucketed octree: side 100, gravity constant 1. *)
Definition world : Bucket.Octree := Bucket.new_Octree 100 1.

(** The two-body scenario: masses 100 at distance 20. *)
Definition bodyA : Body.body := Body.mk 1 (v3 (-10) 0 0) 100.
Definition bodyB : Body.body := Body.mk 2 (v3 10 0 0) 100.

(** Eleven bodies of mass 1 at the point (1,1,1). *)
Definition twin (i : nat) : Body.body := Body.mk i (v3 1 1 1) 1.
Definition eleven_twins : list Body.body := map twin (seq 1 11).

(** Two bodies of mass 2^700, a finite double, at distance 2. *)
Definition giantA : Body.body := Body.mk 1 (v3 1 0 0) 0x1p+700.
Definition giantB : Body.body := Body.mk 2 (v3 3 0 0) 0x1p+700.

(** Eleven bodies of mass 1 apart from one another, and a body far from
    all of them. *)
Definition crowd : list Body.body :=
  map (fun ip => Body.mk (fst ip) (v3 (snd ip) 8 (-16)) 1)
      (combine (seq 1 11) [-20; -16; -12; -8; -4; 0; 4; 8; 12; 16; 20]).
Definition far : Body.body := Body.mk 40 (v3 1000 8 (-16)) 1.

(** A body at the centre of mass of [crowd]. *)
Definition middle : Body.body := Body.mk 42 (v3 0 8 (-16)) 1.

(** Two unit masses at distance 5e-6. *)
Definition speckA : Body.body := Body.mk 1 (v3 0 0 0) 1.
Definition speckB : Body.body := Body.mk 2 (v3 5e-06 0 0) 1.

(** Bodies that are not valid: a negative mass, a position that is not
    a number, a mass of zero. *)
Definition negative_mass : Body.body := Body.mk 7 (v3 1 2 3) (-5).
Definition nowhere (i : nat) : Body.body := Body.mk i (v3 nan nan nan) 2.
Definition massless : Body.body := Body.mk 8 (v3 1 2 3) 0.

End Samples.

End Double.

(** * Properties *)

(** ** Arithmetic of JavaScript numbers *)

Module JSFacts.

Lemma num_eq_refl (a : num) : (a =n= a)%num.
Proof. destruct a; simpl; auto with qarith. Qed.

Lemma num_eq_sym (a b : num) : (a =n= b)%num -> (b =n= a)%num.
Proof. destruct a, b; simpl; auto with qarith. Qed.

Lemma num_eq_trans (a b c : num) :
  (a =n= b)%num -> (b =n= c)%num -> (a =n= c)%num.
Proof.
  destruct a, b, c; simpl; try tauto.
  intros H1 H2. now rewrite H1.
Qed.

#[export] Instance num_eq_equiv : Equivalence num_eq.
Proof.
  split; [exact num_eq_refl | exact num_eq_sym | exact num_eq_trans].
Qed.

#[export] Instance nadd_proper : Proper (num_eq ==> num_eq ==> num_eq) nadd.
Proof.
  intros a a' Ha b b' Hb.
  destruct a, a', b, b'; simpl in *; try tauto.
  now rewrite Ha, Hb.
Qed.

Lemma nadd_comm (a b : num) : (a + b =n= b + a)%num.
Proof. destruct a, b; simpl; auto. ring. Qed.

Lemma nadd_assoc (a b c : num) : (a + (b + c) =n= (a + b) + c)%num.
Proof. destruct a, b, c; simpl; auto. ring. Qed.

Lemma nadd_zero_l (a : num) : (JS.zero + a =n= a)%num.
Proof. destruct a; simpl; auto. ring. Qed.

Lemma nadd_zero_r (a : num) : (a + JS.zero =n= a)%num.
Proof. destruct a; simpl; auto. ring. Qed.

Lemma nadd_shuffle (a m r : num) : ((a + m) + r =n= (a + r) + m)%num.
Proof.
  rewrite <- !nadd_assoc. now rewrite (nadd_comm m r).
Qed.

Lemma Qltb_lt (a b : Q) : Qltb a b = true <-> (a < b)%Q.
Proof.
  unfold Qltb. rewrite negb_true_iff.
  split; intro H.
  - apply Qnot_le_lt. intro Hle. apply Qle_bool_iff in Hle. congruence.
  - destruct (Qle_bool b a) eqn:E; auto.
    apply Qle_bool_iff in E. apply Qlt_not_le in H. contradiction.
Qed.

Lemma Qltb_ge (a b : Q) : Qltb a b = false <-> (b <= a)%Q.
Proof.
  unfold Qltb. rewrite negb_false_iff. apply Qle_bool_iff.
Qed.

Lemma sum_mass_app (a b : list body) :
  (Body.sum_mass (a ++ b) =n= Body.sum_mass a + Body.sum_mass b)%num.
Proof.
  induction a as [|u a IH]; simpl.
  - symmetry. apply nadd_zero_l.
  - rewrite IH. apply nadd_assoc.
Qed.

End JSFacts.

Import JSFacts.

Arguments nadd : simpl never.
Arguments nsub : simpl never.
Arguments nmul : simpl never.
Arguments ndiv : simpl never.
Arguments num_eq : simpl never.

(** ** Finite vectors *)

Module FiniteFacts.
Local Open Scope num_scope.

Lemma finite_inv a : JS.finite a -> exists q, a = Fin q.
Proof. destruct a; simpl; try contradiction. eauto. Qed.

Lemma nadd_finite a b : JS.finite a -> JS.finite b -> JS.finite (a + b).
Proof. destruct a, b; unfold nadd, nsub, nmul; simpl; tauto. Qed.

Lemma nsub_finite a b : JS.finite a -> JS.finite b -> JS.finite (a - b).
Proof. destruct a, b; unfold nadd, nsub, nmul; simpl; tauto. Qed.

Lemma nmul_finite a b : JS.finite a -> JS.finite b -> JS.finite (a * b).
Proof. destruct a, b; unfold nadd, nsub, nmul; simpl; tauto. Qed.

Lemma ndiv_finite a q :
  JS.finite a -> ~ (q == 0)%Q -> JS.finite (a / Fin q).
Proof.
  destruct a as [p| | |]; simpl; try contradiction. intros _ Hq.
  unfold ndiv. destruct (Qeq_bool q 0) eqn:E; simpl; auto.
  apply Qeq_bool_iff in E. contradiction.
Qed.

Lemma vsub_finite a b : Vec3.finite a -> Vec3.finite b -> Vec3.finite (vsub a b).
Proof.
  intros (H1 & H2 & H3) (H4 & H5 & H6).
  repeat split; simpl; apply nsub_finite; auto.
Qed.

Lemma norm2_finite v : Vec3.finite v -> JS.finite (norm2 v).
Proof.
  intros (H1 & H2 & H3). unfold norm2.
  repeat apply nadd_finite; apply nmul_finite; auto.
Qed.

Section Sqrt.
Variable sqrtQ : Q -> Q.

(** The inverse of a norm that passed the test [n > 0.0] is finite. *)
Lemma inverse_norm_finite v :
  (norm sqrtQ v >? JS.zero) = true -> JS.finite (JS.one / norm sqrtQ v).
Proof.
  unfold ngt. destruct (norm sqrtQ v) as [s| | |]; simpl; try discriminate.
  - intro H. apply Qltb_lt in H. apply ndiv_finite; simpl; auto. lra.
  - intros _. unfold ndiv. simpl. exact I.
Qed.

Lemma unit_finite v : Vec3.finite v -> Vec3.finite (unit sqrtQ v).
Proof.
  intros (H1 & H2 & H3). unfold unit.
  destruct (norm sqrtQ v >? JS.zero) eqn:E.
  - apply inverse_norm_finite in E.
    repeat split; simpl; apply nmul_finite; auto.
  - repeat split; simpl; auto.
Qed.

Lemma norm_of_finite v :
  Vec3.finite v -> norm sqrtQ v = NaN \/ exists d, norm sqrtQ v = Fin d.
Proof.
  intro H. apply norm2_finite in H. apply finite_inv in H.
  destruct H as [q Hq]. unfold norm. rewrite Hq. simpl.
  destruct (Qltb q 0); eauto.
Qed.
End Sqrt.

End FiniteFacts.

Import FiniteFacts.

(** ** The bucketed octree *)

Module BucketFacts.
Import Bucket.
Local Open Scope num_scope.

(** *** Insertion keeps the region of the node *)

Section Geometry.
Variable ins : OctreeNode -> body -> option OctreeNode.
Hypothesis ins_geom : forall n b n', ins n b = Some n' -> geom n' = geom n.

Lemma _insertIntoChild_geom n b n' :
  _insertIntoChild ins n b = Some n' -> geom n' = geom n.
Proof.
  unfold _insertIntoChild.
  destruct (insert_first ins (children n) b); simpl; intro H;
    inversion H; reflexivity.
Qed.

Lemma move_bodies_geom bs : forall n n',
  move_bodies ins n bs = Some n' -> geom n' = geom n.
Proof.
  induction bs as [|b bs IH]; simpl; intros n n' H.
  - now inversion H.
  - destruct (_insertIntoChild ins n b) as [m|] eqn:E; simpl in H;
      try discriminate.
    rewrite (IH _ _ H). eapply _insertIntoChild_geom; eauto.
Qed.

Lemma subdivide_geom n n' :
  subdivide ins n = Some n' -> geom n' = geom n.
Proof.
  unfold subdivide. intro H. apply move_bodies_geom in H. exact H.
Qed.
End Geometry.

Lemma insert_geom fuel n b n' :
  insert fuel n b = Some n' -> geom n' = geom n.
Proof.
  destruct fuel as [|f]; simpl; intro H; try discriminate.
  match type of H with (bind ?m _ = _) => destruct m as [n1|] eqn:E1 end;
    simpl in H; try discriminate.
  assert (G1 : geom n1 = geom n).
  { destruct (negb (isLeaf n)).
    - eapply _insertIntoChild_geom; eauto.
    - match type of E1 with (if ?c then _ else _) = _ => destruct c end.
      + apply subdivide_geom in E1. exact E1.
      + inversion E1; reflexivity. }
  match type of H with (if ?c then _ else _) = _ => destruct c end.
  - rewrite <- G1. apply subdivide_geom in H. exact H.
  - inversion H; subst. exact G1.
Qed.

(** *** The eight children cover the region of their parent *)

Lemma contains_axes n p :
  contains n p =
  axis_in (x (center n)) (halfSize n) (x p) &&
  axis_in (y (center n)) (halfSize n) (y p) &&
  axis_in (z (center n)) (halfSize n) (z p).
Proof. unfold contains, axis_in. now rewrite !andb_assoc. Qed.

Lemma contains_geom a b p : geom a = geom b -> contains a p = contains b p.
Proof.
  unfold geom. intro H. inversion H as [[Hc Hh]].
  unfold contains. now rewrite Hc, Hh.
Qed.

Lemma axis_cover (c h : Q) (p : num) :
  axis_in (Fin c) (Fin h) p = true ->
  axis_in (Fin c + Fin (-1) * (Fin h * Fin 0.5)) (Fin h * Fin 0.5) p = true \/
  axis_in (Fin c + Fin 1 * (Fin h * Fin 0.5)) (Fin h * Fin 0.5) p = true.
Proof.
  unfold axis_in, nge, nadd, nsub, nmul.
  destruct p as [q| | |]; simpl; try discriminate.
  rewrite !andb_true_iff, !Qle_bool_iff. intros [H1 H2].
  destruct (Qlt_le_dec q c) as [Hlt|Hge]; [left|right]; split; lra.
Qed.

Lemma cover c h p :
  Vec3.finite c -> JS.finite h ->
  contains (new_OctreeNode c h) p = true ->
  existsb (fun child => contains child p) (new_children c h) = true.
Proof.
  intros (Hx & Hy & Hz) Hh.
  destruct c as [cx cy cz]; simpl in Hx, Hy, Hz.
  destruct cx as [cx| | |], cy as [cy| | |], cz as [cz| | |]; try contradiction.
  destruct h as [h| | |]; try contradiction.
  rewrite contains_axes.
  cbn [center halfSize new_OctreeNode Vec3.x Vec3.y Vec3.z].
  rewrite !andb_true_iff. intros [[Ax Ay] Az].
  apply axis_cover in Ax, Ay, Az.
  unfold new_children, octant_signs.
  cbn [flat_map map app existsb].
  rewrite !contains_axes.
  cbn [center halfSize new_OctreeNode childCenter Vec3.x Vec3.y Vec3.z].
  destruct Ax as [Ax|Ax], Ay as [Ay|Ay], Az as [Az|Az];
    rewrite Ax, Ay, Az; cbn [andb orb]; rewrite ?orb_true_r; reflexivity.
Qed.

Lemma existsb_geom p cs cs0 :
  map geom cs = map geom cs0 ->
  existsb (fun child => contains child p) cs =
  existsb (fun child => contains child p) cs0.
Proof.
  revert cs0. induction cs as [|c cs IH]; intros [|c0 cs0]; simpl;
    try discriminate; auto.
  intro H.
  assert (Hg : geom c = geom c0) by (unfold geom in *; congruence).
  assert (Hr : map geom cs = map geom cs0) by congruence.
  rewrite (contains_geom c c0 p Hg). now rewrite (IH _ Hr).
Qed.

(** *** Induction on the nodes of a tree *)

Lemma OctreeNode_ind' (P : OctreeNode -> Prop) :
  (forall c h m cm leaf bs cs,
      Forall P cs -> P (mkNode c h m cm leaf bs cs)) ->
  forall n, P n.
Proof.
  intro H. fix IH 1. intros [c h m cm leaf bs cs]. apply H.
  induction cs as [|k cs IHcs]; constructor; [apply IH | exact IHcs].
Qed.

(** *** Rebuilding twice *)

Lemma insert_all_geom fuel bs : forall t t',
  insert_all fuel t bs = Some t' ->
  geom (root t') = geom (root t) /\ gravityConstant t' = gravityConstant t.
Proof.
  induction bs as [|b bs IH]; intros t t' H; cbn [insert_all] in H.
  - inversion H; subst. auto.
  - unfold Octree_insert in H.
    destruct (insert fuel (root t) b) as [r|] eqn:E; simpl in H;
      try discriminate.
    destruct (IH _ _ H) as [H1 H2]. cbn [root gravityConstant] in *.
    split; auto. rewrite H1. eapply insert_geom; eauto.
Qed.

Lemma rebuild_clear fuel t bs t' :
  rebuild fuel t bs = Some t' -> clear t' = clear t.
Proof.
  unfold rebuild. intro H. apply insert_all_geom in H.
  destruct H as [Hg HG]. unfold geom in Hg. cbn [clear root center halfSize
    new_OctreeNode gravityConstant] in *.
  inversion Hg as [[Hc Hh]]. unfold clear. now rewrite Hc, Hh, HG.
Qed.

Lemma rebuild_again fuel t bs t' :
  rebuild fuel t bs = Some t' -> rebuild fuel t' bs = Some t'.
Proof.
  intro H. unfold rebuild. rewrite (rebuild_clear _ _ _ _ H). exact H.
Qed.

(** *** A leaf with room takes the body without subdividing *)

Lemma insert_leaf_room fuel n b :
  isLeaf n = true -> (length (bodies n) < MAX_BODIES_PER_NODE)%nat ->
  insert (S fuel) n b =
  Some (updateMassDistribution
          (mkNode (center n) (halfSize n) (mass n) (com n) true
                  (bodies n ++ [b]) (children n)) b).
Proof.
  intros Hl Hlen. cbn [insert]. rewrite Hl. cbn [negb].
  assert (E : Nat.ltb MAX_BODIES_PER_NODE (length (bodies n ++ [b])) = false).
  { apply Nat.ltb_ge. rewrite length_app. simpl. lia. }
  cbn [bodies]. rewrite E. cbn [bind].
  cbn [updateMassDistribution isLeaf bodies]. rewrite E. reflexivity.
Qed.

Lemma insert_all_room fuel bs : forall t,
  isLeaf (root t) = true ->
  (length (bodies (root t)) + length bs <= MAX_BODIES_PER_NODE)%nat ->
  exists t',
    insert_all (S fuel) t bs = Some t' /\
    isLeaf (root t') = true /\
    bodies (root t') = bodies (root t) ++ bs /\
    children (root t') = children (root t).
Proof.
  induction bs as [|b bs IH]; intros t Hl Hlen; cbn [insert_all].
  - exists t. rewrite app_nil_r. auto.
  - unfold Octree_insert. rewrite insert_leaf_room; auto.
    2:{ simpl in Hlen. lia. }
    cbn [bind].
    match goal with |- context [insert_all _ ?t1 bs] =>
      destruct (IH t1) as (t' & H1 & H2 & H3 & H4) end.
    + reflexivity.
    + cbn [root updateMassDistribution bodies]. rewrite length_app.
      simpl in *. lia.
    + exists t'. cbn [root updateMassDistribution bodies children] in *.
      rewrite <- app_assoc in H3. auto.
Qed.

Lemma rebuild_small fuel t bs :
  (length bs <= MAX_BODIES_PER_NODE)%nat ->
  exists t',
    rebuild (S fuel) t bs = Some t' /\
    isLeaf (root t') = true /\ bodies (root t') = bs /\
    children (root t') = [].
Proof.
  intro Hlen. unfold rebuild.
  destruct (insert_all_room fuel bs (clear t)) as (t' & H1 & H2 & H3 & H4);
    auto.
  exists t'. auto.
Qed.

(** *** The gravity walk *)

Section Walk.
Variable sqrtQ : Q -> Q.

Lemma _calculateGravity_unfold G n b theta force :
  _calculateGravity sqrtQ G n b theta force =
  if isLeaf n then fold_left (leaf_term sqrtQ G b) (bodies n) force
  else if accepts sqrtQ n b theta then
         vadd force (node_term sqrtQ G n b)
       else fold_left
              (fun f child => _calculateGravity sqrtQ G child b theta f)
              (children n) force.
Proof. destruct n as [c h m cm [|] bs cs]; reflexivity. Qed.

Lemma leaf_term_self G b force : leaf_term sqrtQ G b force b = force.
Proof. unfold leaf_term, Body.same. now rewrite Nat.eqb_refl. Qed.

Lemma walk_sole_occupant G n b theta force :
  isLeaf n = true -> bodies n = [b] ->
  _calculateGravity sqrtQ G n b theta force = force.
Proof.
  intros Hl Hb. rewrite _calculateGravity_unfold, Hl, Hb. simpl.
  apply leaf_term_self.
Qed.

Lemma walk_empty_leaf G n b theta force :
  isLeaf n = true -> bodies n = [] ->
  _calculateGravity sqrtQ G n b theta force = force.
Proof.
  intros Hl Hb. now rewrite _calculateGravity_unfold, Hl, Hb.
Qed.

Lemma walk_single_body fuel t b theta t' :
  rebuild fuel t [b] = Some t' ->
  calculateGravity sqrtQ t' b theta = Vec3.zero.
Proof.
  destruct fuel as [|f]; [discriminate|]. intro H.
  destruct (rebuild_small f t [b]) as (t1 & H1 & H2 & H3 & _).
  { unfold MAX_BODIES_PER_NODE. simpl. lia. }
  rewrite H in H1. inversion H1; subst t1.
  unfold calculateGravity. now apply walk_sole_occupant.
Qed.

End Walk.

(** *** Nodes without mass in trees built from bodies of positive mass *)

Section Weighty.
Variable ins : OctreeNode -> body -> option OctreeNode.
Hypothesis Hins : ins_weighty ins.

Lemma insert_first_weighty cs b cs' :
  Forall weighty cs -> positive (Body.mass b) ->
  insert_first ins cs b = Some cs' -> Forall weighty cs'.
Proof.
  revert cs'. induction cs as [|c cs IH]; simpl; intros cs' Hall Hb H.
  - inversion H; subst. constructor.
  - inversion Hall as [|? ? Hc Hcs]; subst.
    destruct (contains c (Body.position b)).
    + destruct (ins c b) as [c'|] eqn:E; simpl in H; inversion H; subst.
      constructor; auto. eapply Hins; eauto.
    + destruct (insert_first ins cs b) as [r|] eqn:E; simpl in H;
        inversion H; subst.
      constructor; auto.
Qed.

Lemma move_bodies_weighty c h m cm bs : forall cs n',
  Forall weighty cs -> Forall (fun b => positive (Body.mass b)) bs ->
  move_bodies ins (mkNode c h m cm false [] cs) bs = Some n' ->
  exists cs', n' = mkNode c h m cm false [] cs' /\ Forall weighty cs'.
Proof.
  induction bs as [|b bs IH]; intros cs n' Hall Hbs H;
    cbn [move_bodies] in H.
  - inversion H; subst. eauto.
  - inversion Hbs as [|? ? Hb Hbs']; subst.
    unfold _insertIntoChild in H.
    cbn [children center halfSize mass com isLeaf bodies] in H.
    destruct (insert_first ins cs b) as [cs1|] eqn:E; simpl in H;
      try discriminate.
    eapply IH; [|exact Hbs'|exact H].
    eapply insert_first_weighty; eauto.
Qed.
End Weighty.

Lemma new_children_weighty c h : Forall weighty (new_children c h).
Proof.
  unfold new_children, octant_signs. cbn [flat_map map app].
  repeat constructor; try lra; auto.
Qed.

Lemma insert_weighty fuel : ins_weighty (insert fuel).
Proof.
  induction fuel as [|f IH]; intros n b n' Hn Hb H; simpl in H;
    try discriminate.
  inversion Hn as [c h q cm leaf bs cs Hq Hz Hbs Hcs]; subst.
  destruct (Body.mass b) as [qb| | |] eqn:Em; try contradiction.
  simpl in Hb.
  cbn [isLeaf negb center halfSize mass com bodies children] in H.
  destruct leaf; cbn [negb] in H.
  - destruct (Nat.ltb MAX_BODIES_PER_NODE (length (bs ++ [b]))) eqn:Elen.
    + unfold subdivide in H at 1.
      cbn [isLeaf negb center halfSize mass com bodies children app] in H.
      match type of H with (bind ?mv _ = _) => destruct mv as [n1|] eqn:E1 end;
        simpl in H; try discriminate.
      assert (Hbs' : Forall (fun b0 => positive (Body.mass b0)) (bs ++ [b])).
      { apply Forall_app; split; auto. constructor; auto.
        rewrite Em. exact Hb. }
      assert (Hcs' : Forall weighty (cs ++ new_children c h)).
      { apply Forall_app; split; auto. apply new_children_weighty. }
      destruct (move_bodies_weighty _ IH c h (Fin q) cm (bs ++ [b]) _ _
                  Hcs' Hbs' E1) as (cs' & -> & Hall').
      cbn [isLeaf andb updateMassDistribution center halfSize mass com bodies
           children] in H.
      inversion H; subst. unfold updateMassDistribution;
      cbn [center halfSize mass com isLeaf bodies children];
      rewrite Em; unfold nadd.
      constructor; auto; try lra.
    + simpl in H.
      cbn [isLeaf andb updateMassDistribution center halfSize mass com bodies
           children] in H.
      rewrite Elen in H. simpl in H. inversion H; subst.
      unfold updateMassDistribution;
      cbn [center halfSize mass com isLeaf bodies children];
      rewrite Em; unfold nadd.
      constructor; auto; try lra.
      apply Forall_app; split; auto. constructor; auto.
      rewrite Em. exact Hb.
  - unfold _insertIntoChild in H.
    cbn [isLeaf negb center halfSize mass com bodies children] in H.
    destruct (insert_first (insert f) cs b) as [cs1|] eqn:E; simpl in H;
      try discriminate.
    cbn [isLeaf andb updateMassDistribution center halfSize mass com bodies
         children] in H.
    inversion H; subst. unfold updateMassDistribution;
      cbn [center halfSize mass com isLeaf bodies children];
      rewrite Em; unfold nadd.
    constructor; auto; try lra.
    eapply insert_first_weighty; eauto. rewrite Em. exact Hb.
Qed.

Lemma rebuild_weighty fuel t bs t' :
  Forall (fun b => positive (Body.mass b)) bs ->
  rebuild fuel t bs = Some t' -> weighty (root t').
Proof.
  unfold rebuild. intros Hbs H.
  assert (H0 : weighty (root (clear t))).
  { cbn [clear root]. unfold new_OctreeNode.
    apply (weighty_intro _ _ 0); auto; try lra. }
  revert H0 H. generalize (clear t). clear t.
  induction bs as [|b bs IH]; intros t H0 H; cbn [insert_all] in H.
  - now inversion H; subst.
  - inversion Hbs as [|? ? Hb Hbs']; subst.
    unfold Octree_insert in H.
    destruct (insert fuel (root t) b) as [r|] eqn:E; simpl in H;
      try discriminate.
    apply (IH Hbs' (mkOctree (gravityConstant t) r)); auto.
    cbn [root]. eapply insert_weighty; eauto.
Qed.

Lemma weighty_nodes n : weighty n -> Forall weighty (nodes n).
Proof.
  induction n as [c h m cm leaf bs cs IH] using OctreeNode_ind'.
  intro Hn. cbn [nodes]. constructor; auto.
  rewrite Forall_flat_map.
  assert (Hcs : Forall weighty cs) by (inversion Hn; subst; auto).
  rewrite Forall_forall in *. intros k Hk. exact (IH k Hk (Hcs k Hk)).
Qed.

Lemma walk_massless sqrtQ G n b theta force :
  weighty n -> mass n =n= JS.zero ->
  _calculateGravity sqrtQ G n b theta force = force.
Proof.
  intros Hn Hm. inversion Hn as [c h q cm leaf bs cs Hq Hz Hbs Hcs]; subst.
  cbn [mass] in Hm. unfold num_eq, JS.zero in Hm.
  destruct (Hz Hm) as [-> ->]. now apply walk_empty_leaf.
Qed.

(** *** Trees built from finite bodies of positive mass are finite *)

Lemma update_finite c h q cm leaf bs cs b :
  (0 <= q)%Q -> Vec3.finite cm -> Body.finite_body b ->
  positive (Body.mass b) ->
  JS.finite (mass (updateMassDistribution
                     (mkNode c h (Fin q) cm leaf bs cs) b)) /\
  Vec3.finite (com (updateMassDistribution
                      (mkNode c h (Fin q) cm leaf bs cs) b)).
Proof.
  intros Hq (Hx & Hy & Hz) [(Px & Py & Pz) _] Hb.
  destruct (Body.mass b) as [qb| | |] eqn:Em; try contradiction.
  simpl in Hb. unfold updateMassDistribution. cbn [mass com]. rewrite Em.
  assert (Hm : JS.finite (Fin qb)) by exact I.
  assert (Hq' : JS.finite (Fin q)) by exact I.
  assert (Hnz : ~ q + qb == 0) by lra.
  split; [exact I|].
  change (Fin q + Fin qb) with (Fin (q + qb)).
  repeat split; cbn [Vec3.x Vec3.y Vec3.z]; apply ndiv_finite; auto;
    apply nadd_finite; apply nmul_finite; auto.
Qed.

Section Tame.
Variable ins : OctreeNode -> body -> option OctreeNode.
Hypothesis Hins : ins_tame ins.
Hypothesis Hweighty : ins_weighty ins.

Lemma insert_first_tame cs b cs' :
  Forall tame cs -> Forall weighty cs ->
  Body.finite_body b -> positive (Body.mass b) ->
  insert_first ins cs b = Some cs' -> Forall tame cs'.
Proof.
  revert cs'. induction cs as [|c cs IH]; simpl; intros cs' Ht Hw Hf Hb H.
  - inversion H; subst. constructor.
  - inversion Ht as [|? ? Hc Hcs]; inversion Hw as [|? ? Wc Wcs]; subst.
    destruct (contains c (Body.position b)).
    + destruct (ins c b) as [c'|] eqn:E; simpl in H; inversion H; subst.
      constructor; auto. eapply Hins; eauto.
    + destruct (insert_first ins cs b) as [r|] eqn:E; simpl in H;
        inversion H; subst.
      constructor; auto.
Qed.

Lemma move_bodies_tame c h m cm bs : forall cs n',
  Forall tame cs -> Forall weighty cs ->
  Forall Body.finite_body bs ->
  Forall (fun b => positive (Body.mass b)) bs ->
  move_bodies ins (mkNode c h m cm false [] cs) bs = Some n' ->
  exists cs', n' = mkNode c h m cm false [] cs' /\ Forall tame cs'.
Proof.
  induction bs as [|b bs IH]; intros cs n' Ht Hw Hf Hp H;
    cbn [move_bodies] in H.
  - inversion H; subst. eauto.
  - inversion Hf as [|? ? Hb Hf']; inversion Hp as [|? ? Pb Hp']; subst.
    unfold _insertIntoChild in H.
    cbn [children center halfSize mass com isLeaf bodies] in H.
    destruct (insert_first ins cs b) as [cs1|] eqn:E; simpl in H;
      try discriminate.
    eapply (IH cs1); [| |exact Hf'|exact Hp'|exact H].
    + eapply insert_first_tame; eauto.
    + eapply insert_first_weighty; eauto.
Qed.
End Tame.

Lemma new_children_tame c h :
  (0 <= h)%Q -> Forall tame (new_children c (Fin h)).
Proof.
  intro Hh. unfold new_children, octant_signs. cbn [flat_map map app].
  change (Fin h * Fin 0.5) with (Fin (h * 0.5)).
  assert (H0 : 0 <= h * 0.5) by lra.
  repeat constructor; auto.
Qed.

Lemma insert_tame fuel : ins_tame (insert fuel).
Proof.
  induction fuel as [|f IH]; intros n b n' Hn Hw Hf Hb H; simpl in H;
    try discriminate.
  inversion Hw as [c h0 q cm leaf bs cs Hq Hz Hbs Hcs]; subst.
  inversion Hn as [c' h m' cm' leaf' bs' cs' Hh Hm Hcm Hfb Hct]; subst.
  pose proof (update_finite c (Fin h) q cm) as Hup.
  cbn [isLeaf negb center halfSize mass com bodies children] in H.
  destruct leaf; cbn [negb] in H.
  - destruct (Nat.ltb MAX_BODIES_PER_NODE (length (bs ++ [b]))) eqn:Elen.
    + unfold subdivide in H at 1.
      cbn [isLeaf negb center halfSize mass com bodies children app] in H.
      match type of H with (bind ?mv _ = _) => destruct mv as [n1|] eqn:E1 end;
        simpl in H; try discriminate.
      assert (Hbs' : Forall (fun b0 => positive (Body.mass b0)) (bs ++ [b]))
        by (apply Forall_app; split; auto).
      assert (Hfb' : Forall Body.finite_body (bs ++ [b]))
        by (apply Forall_app; split; auto).
      assert (Hct' : Forall tame (cs ++ new_children c (Fin h)))
        by (apply Forall_app; split; auto using new_children_tame).
      assert (Hcs' : Forall weighty (cs ++ new_children c (Fin h)))
        by (apply Forall_app; split; auto using new_children_weighty).
      destruct (move_bodies_tame _ IH (insert_weighty f) c (Fin h) (Fin q) cm
                  (bs ++ [b]) _ _ Hct' Hcs' Hfb' Hbs' E1)
        as (cs1 & -> & Hall').
      cbn [isLeaf andb] in H. inversion H; subst.
      destruct (Hup false [] cs1 b Hq Hcm Hf Hb) as [U1 U2].
      unfold updateMassDistribution in *.
      cbn [center halfSize mass com isLeaf bodies children] in *.
      constructor; auto.
    + simpl in H.
      cbn [isLeaf andb updateMassDistribution center halfSize mass com bodies
           children] in H.
      rewrite Elen in H. simpl in H. inversion H; subst.
      destruct (Hup true (bs ++ [b]) cs b Hq Hcm Hf Hb) as [U1 U2].
      unfold updateMassDistribution in *.
      cbn [center halfSize mass com isLeaf bodies children] in *.
      constructor; auto. apply Forall_app; split; auto.
  - unfold _insertIntoChild in H.
    cbn [isLeaf negb center halfSize mass com bodies children] in H.
    destruct (insert_first (insert f) cs b) as [cs1|] eqn:E; simpl in H;
      try discriminate.
    cbn [isLeaf andb] in H. inversion H; subst.
    destruct (Hup false bs cs1 b Hq Hcm Hf Hb) as [U1 U2].
    unfold updateMassDistribution in *.
    cbn [center halfSize mass com isLeaf bodies children] in *.
    constructor; auto.
    eapply insert_first_tame; eauto using insert_weighty.
Qed.

Lemma rebuild_tame fuel t bs t' h :
  halfSize (root t) = Fin h -> (0 <= h)%Q ->
  Forall Body.finite_body bs ->
  Forall (fun b => positive (Body.mass b)) bs ->
  rebuild fuel t bs = Some t' -> tame (root t').
Proof.
  unfold rebuild. intros Eh Hh Hf Hp H.
  assert (H0 : tame (root (clear t)) /\ weighty (root (clear t))).
  { cbn [clear root]. unfold new_OctreeNode. rewrite Eh. split.
    - constructor; auto; [exact I|repeat split].
    - apply (weighty_intro _ _ 0); auto; try lra. }
  revert H0 H. generalize (clear t). clear t Eh.
  induction bs as [|b bs IH]; intros t [H0 W0] H; cbn [insert_all] in H.
  - now inversion H; subst.
  - inversion Hf as [|? ? Hb Hf']; inversion Hp as [|? ? Pb Hp']; subst.
    unfold Octree_insert in H.
    destruct (insert fuel (root t) b) as [r|] eqn:E; simpl in H;
      try discriminate.
    apply (IH Hf' Hp' (mkOctree (gravityConstant t) r)); auto.
    cbn [root]. split.
    + eapply insert_tame; eauto.
    + eapply insert_weighty; eauto.
Qed.

End BucketFacts.

(** ** The octree with one body per leaf *)

Module StrictFacts.
Import Strict.
Local Open Scope num_scope.

(** *** Insertion keeps the aggregate masses exact *)

Lemma mass_ok_unfold c h cs b m cm :
  mass_ok (mkNode c h cs b m cm) <->
  m =n= Body.sum_mass (occupant b) + children_mass cs /\ children_ok cs.
Proof.
  unfold mass_ok, children_ok. cbn [nodes]. rewrite Forall_cons_iff.
  unfold mass_eq at 1. cbn [mass subtree_bodies].
  fold bodies_opt. rewrite sum_mass_app. fold (children_mass cs).
  rewrite Forall_flat_map, Forall_forall.
  split; intros [Hm Hc]; split; auto.
  - intros k Hk. exact (Hc _ Hk).
  - intros [k|] Hk; [exact (Hc _ Hk)|constructor].
Qed.

Lemma Ss_cons c cs : children_mass (c :: cs) =n= slot_mass c + children_mass cs.
Proof. unfold children_mass, slot_mass. simpl. apply sum_mass_app. Qed.

Lemma Ss_leaf cs : forallb is_null cs = true -> children_mass cs = JS.zero.
Proof.
  unfold children_mass. induction cs as [|[k|] cs IH]; simpl; try discriminate; auto.
Qed.

Lemma children_ok_leaf cs : forallb is_null cs = true -> children_ok cs.
Proof.
  intros H k Hk. rewrite forallb_forall in H. apply H in Hk. discriminate.
Qed.


Lemma nth_set_nth i v : forall cs, nth_child (set_nth i v cs) i = v.
Proof.
  unfold nth_child.
  induction i as [|i IH]; intros [|c cs]; simpl; auto; apply IH.
Qed.

Lemma Ss_set_nth m c' i : forall cs,
  subtree_mass c' =n= slot_mass (nth_child cs i) + m ->
  children_mass (set_nth i (Some c') cs) =n= children_mass cs + m.
Proof.
  unfold nth_child.
  induction i as [|i IH]; intros [|c cs]; simpl; intro H.
  - rewrite Ss_cons. unfold slot_mass at 1. simpl. fold (subtree_mass c'). rewrite H.
    apply nadd_shuffle.
  - rewrite !Ss_cons. unfold slot_mass at 1. simpl. fold (subtree_mass c'). rewrite H.
    apply nadd_shuffle.
  - rewrite Ss_cons. unfold slot_mass at 1. simpl. rewrite nadd_zero_l.
    apply IH. destruct i; exact H.
  - rewrite !Ss_cons. rewrite (IH cs H). apply nadd_assoc.
Qed.

Lemma children_ok_set_nth c' i : forall cs,
  children_ok cs -> mass_ok c' -> children_ok (set_nth i (Some c') cs).
Proof.
  unfold children_ok.
  induction i as [|i IH]; intros [|c cs] Hcs Hc' k; simpl; intros Hk.
  - destruct Hk as [Hk|[]]. now inversion Hk; subst.
  - destruct Hk as [Hk|Hk]; [now inversion Hk; subst|].
    apply Hcs. now right.
  - destruct Hk as [Hk|Hk]; [discriminate|].
    apply (IH [] (fun _ F => match F with end) Hc' k Hk).
  - destruct Hk as [Hk|Hk]; [apply Hcs; now left|].
    apply (IH cs (fun k0 H0 => Hcs k0 (or_intror H0)) Hc' k Hk).
Qed.


Lemma new_OctreeNode_ok c h : mass_ok (new_OctreeNode c h).
Proof.
  unfold new_OctreeNode. apply mass_ok_unfold. split.
  - reflexivity.
  - apply children_ok_leaf. reflexivity.
Qed.

Lemma getOctantIndex_lt n p : (getOctantIndex n p < 8)%nat.
Proof.
  unfold getOctantIndex.
  destruct (x p >=? x (center n)), (y p >=? y (center n)),
    (z p >=? z (center n)); apply Nat.ltb_lt; reflexivity.
Qed.

Lemma get_child_subdivide n i :
  (i < 8)%nat -> get_child (subdivide n) i = Some (subdivide_child n i).
Proof.
  intro H. unfold get_child, subdivide. cbn [children map seq].
  do 8 (destruct i as [|i]; [reflexivity|]). lia.
Qed.

Lemma nth_child_In cs i k : nth_child cs i = Some k -> In (Some k) cs.
Proof.
  unfold nth_child. destruct (nth_error cs i) as [c|] eqn:E; try discriminate.
  intros ->. eapply nth_error_In; eauto.
Qed.

Section Step.
Variable ins : OctreeNode -> Body.body -> option OctreeNode.
Hypothesis Hins : ins_ok ins.

(** The child of slot [i], or a fresh node [fresh] when it is empty,
    takes the body. *)
Lemma slot_ok cs i fresh b child' :
  children_ok cs -> mass_ok fresh -> subtree_mass fresh = JS.zero ->
  ins (match nth_child cs i with Some c => c | None => fresh end) b
  = Some child' ->
  children_ok (set_nth i (Some child') cs) /\
  children_mass (set_nth i (Some child') cs) =n= children_mass cs + Body.mass b.
Proof.
  intros Hcs Hf HSf E.
  assert (Hchild : mass_ok child' /\
                   subtree_mass child' =n= slot_mass (nth_child cs i) + Body.mass b).
  { destruct (nth_child cs i) as [c|] eqn:En.
    - apply (Hins _ _ _ (Hcs _ (nth_child_In _ _ _ En)) E).
    - destruct (Hins _ _ _ Hf E) as [H1 H2]. split; auto.
      rewrite H2, HSf. reflexivity. }
  destruct Hchild as [H1 H2]. split.
  - now apply children_ok_set_nth.
  - now apply Ss_set_nth.
Qed.

Lemma insert_in_octant_ok c h cs ob m cm b n' :
  children_ok cs -> m =n= Body.sum_mass (occupant ob) + children_mass cs ->
  insert_in_octant ins (mkNode c h cs ob m cm) b = Some n' ->
  mass_ok n' /\
  subtree_mass n' =n= (Body.sum_mass (occupant ob) + children_mass cs) + Body.mass b.
Proof.
  intros Hcs Hm H. unfold insert_in_octant in H.
  set (j := getOctantIndex (mkNode c h cs ob m cm) (Body.position b)) in *.
  unfold get_child in H. cbn [children] in H. fold (nth_child cs j) in H.
  match type of H with (bind ?mv _ = _) => destruct mv as [child'|] eqn:E end;
    simpl in H; try discriminate.
  inversion H; subst. clear H.
  destruct (slot_ok cs j (insert_child (mkNode c h cs ob m cm) j) b child'
              Hcs (new_OctreeNode_ok _ _) eq_refl E) as [H1 H2].
  unfold updateMassAndCenterOfMass, set_child.
  cbn [center halfDimension children body mass centerOfMass].
  split.
  - apply mass_ok_unfold. split; auto.
    rewrite H2, Hm. symmetry. apply nadd_assoc.
  - unfold subtree_mass. cbn [subtree_bodies]. fold bodies_opt.
    rewrite sum_mass_app.
    fold (children_mass (set_nth j (Some child') cs)). rewrite H2.
    apply nadd_assoc.
Qed.
End Step.

(** The slots of a leaf once [subdivide] has run. *)
Lemma subdivide_children_ok n :
  isLeaf n = true ->
  children_ok (children (subdivide n)) /\ children_mass (children (subdivide n)) = JS.zero.
Proof.
  unfold isLeaf. intro Hl. unfold subdivide. cbn [children]. split.
  - intros k Hk. apply in_app_or in Hk. destruct Hk as [Hk|Hk].
    + apply in_map_iff in Hk. destruct Hk as (i & Hi & _).
      inversion Hi; subst. apply new_OctreeNode_ok.
    + assert (Hs : forallb is_null (skipn 8 (children n)) = true).
      { rewrite <- (firstn_skipn 8 (children n)), forallb_app in Hl.
        now apply andb_true_iff in Hl. }
      exact (children_ok_leaf _ Hs k Hk).
  - unfold children_mass. rewrite flat_map_app. cbn [map seq flat_map bodies_opt app].
    assert (Hs : forallb is_null (skipn 8 (children n)) = true).
    { rewrite <- (firstn_skipn 8 (children n)), forallb_app in Hl.
      now apply andb_true_iff in Hl. }
    apply Ss_leaf in Hs. unfold children_mass in Hs. exact Hs.
Qed.

Lemma insert_ok fuel : ins_ok (insert fuel).
Proof.
  induction fuel as [|f IH]; intros n b n' Hn H; simpl in H;
    try discriminate.
  destruct n as [c h cs ob m cm].
  cbn [body] in H. fold (isLeaf (mkNode c h cs ob m cm)) in H.
  apply mass_ok_unfold in Hn. destruct Hn as [Hm Hcs].
  destruct (isLeaf (mkNode c h cs ob m cm)) eqn:El.
  - destruct ob as [this_body|].
    + (* an occupied leaf: subdivision *)
      match type of H with (bind ?mv _ = _) => destruct mv as [n1|] eqn:E1 end;
        simpl in H; try discriminate.
      unfold split_leaf in E1.
      rewrite get_child_subdivide in E1 by apply getOctantIndex_lt.
      match type of E1 with (bind ?mv _ = _) =>
        destruct mv as [child'|] eqn:E2 end; simpl in E1; try discriminate.
      inversion E1; subst n1. clear E1.
      destruct (subdivide_children_ok _ El) as [Hok0 HS0].
      set (n0 := subdivide (mkNode c h cs (Some this_body) m cm)) in *.
      set (i := getOctantIndex n0 (Body.position this_body)) in *.
      assert (Hslot : nth_child (children n0) i
                      = Some (subdivide_child
                                (mkNode c h cs (Some this_body) m cm) i)).
      { apply (get_child_subdivide (mkNode c h cs (Some this_body) m cm)).
        apply getOctantIndex_lt. }
      assert (E2' : insert f (match nth_child (children n0) i with
                              | Some c0 => c0
                              | None => new_OctreeNode Vec3.zero Vec3.zero
                              end) this_body = Some child').
      { rewrite Hslot. exact E2. }
      destruct (slot_ok _ IH _ _ _ _ _ Hok0 (new_OctreeNode_ok _ _) eq_refl E2')
        as [H1 H2].
      assert (Hleaf : children_mass cs = JS.zero) by (apply Ss_leaf; exact El).
      assert (Hm1 : mass n0 =n= Body.sum_mass (occupant None)
                                + children_mass (set_nth i (Some child') (children n0))).
      { rewrite H2, HS0. unfold n0. cbn [mass subdivide].
        rewrite Hm, Hleaf. simpl. 
        rewrite !nadd_zero_l, !nadd_zero_r. reflexivity. }
      destruct (insert_in_octant_ok _ IH _ _ _ _ _ _ _ _ H1 Hm1 H) as [H3 H4].
      split; auto.
      rewrite H4, H2, HS0. unfold subtree_mass. cbn [subtree_bodies]. fold bodies_opt.
      rewrite sum_mass_app. fold (children_mass cs). rewrite Hleaf. simpl.
      rewrite !nadd_zero_l, !nadd_zero_r. reflexivity.
    + (* an empty leaf *)
      inversion H; subst. clear H.
      assert (Hleaf : children_mass cs = JS.zero) by (apply Ss_leaf; exact El).
      split.
      * apply mass_ok_unfold. split; auto. rewrite Hleaf. simpl.
        rewrite !nadd_zero_r. reflexivity.
      * unfold subtree_mass. cbn [subtree_bodies]. fold bodies_opt.
        rewrite !sum_mass_app. fold (children_mass cs). rewrite Hleaf. simpl.
        rewrite !nadd_zero_l, !nadd_zero_r. reflexivity.
  - (* an internal node *)
    assert (H' : insert_in_octant (insert f) (mkNode c h cs ob m cm) b
                 = Some n') by (destruct ob; exact H).
    destruct (insert_in_octant_ok _ IH _ _ _ _ _ _ _ _ Hcs Hm H') as [H3 H4].
    split; auto.
    rewrite H4. unfold subtree_mass. cbn [subtree_bodies]. fold bodies_opt.
    rewrite sum_mass_app. reflexivity.
Qed.

Lemma clear_leaf n : isLeaf (clear n) = true.
Proof.
  unfold isLeaf, clear. cbn [children].
  induction (children n) as [|k cs IH]; simpl; auto.
Qed.

Lemma clear_ok n : mass_ok (clear n) /\ subtree_mass (clear n) = JS.zero.
Proof.
  pose proof (clear_leaf n) as Hl. unfold isLeaf in Hl.
  unfold clear in *. cbn [children] in Hl. split.
  - apply mass_ok_unfold. split.
    + rewrite (Ss_leaf _ Hl). reflexivity.
    + now apply children_ok_leaf.
  - unfold subtree_mass. cbn [subtree_bodies occupant app]. fold bodies_opt.
    exact (Ss_leaf _ Hl).
Qed.

Lemma insert_all_ok fuel bs : forall n n',
  mass_ok n -> insert_all fuel n bs = Some n' ->
  mass_ok n' /\ subtree_mass n' =n= subtree_mass n + Body.sum_mass bs.
Proof.
  induction bs as [|b bs IH]; intros n n' Hn H; cbn [insert_all] in H.
  - inversion H; subst. split; auto. simpl. symmetry. apply nadd_zero_r.
  - destruct (insert fuel n b) as [r|] eqn:E; simpl in H; try discriminate.
    destruct (insert_ok fuel _ _ _ Hn E) as [Hr HS].
    destruct (IH _ _ Hr H) as [H1 H2]. split; auto.
    rewrite H2, HS. simpl. symmetry. apply nadd_assoc.
Qed.

(** The single-occupant half of the conservation of mass. *)
Lemma strict_rebuild_mass_ok fuel n bs n' :
  rebuild fuel n bs = Some n' ->
  mass_ok n' /\ mass n' =n= Body.sum_mass bs.
Proof.
  intro H. unfold rebuild in H.
  destruct (clear_ok n) as [H0 HS0].
  destruct (insert_all_ok fuel bs _ _ H0 H) as [H1 H2]. split; auto.
  pose proof H1 as Hok. unfold mass_ok in Hok.
  destruct n' as [c h cs ob m cm]. cbn [nodes] in Hok.
  inversion Hok as [|? ? Hm _]; subst. unfold mass_eq in Hm.
  fold (subtree_mass (mkNode c h cs ob m cm)) in Hm. cbn [mass] in *.
  rewrite Hm, H2, HS0. apply nadd_zero_l.
Qed.

(** *** Insertion keeps the region and the eight slots of the node *)

Lemma set_nth_length i v : forall cs,
  (i < length cs)%nat -> length (set_nth i v cs) = length cs.
Proof.
  induction i as [|i IH]; intros [|c cs]; simpl; intro H; try lia.
  rewrite IH; lia.
Qed.

Lemma subdivide_length n :
  length (children n) = 8%nat -> length (children (subdivide n)) = 8%nat.
Proof.
  intro H. unfold subdivide. cbn [children].
  rewrite length_app, length_map, length_seq, length_skipn. lia.
Qed.

Section Slots.
Variable ins : OctreeNode -> Body.body -> option OctreeNode.

Lemma split_leaf_slots n ob n' :
  length (children n) = 8%nat ->
  split_leaf ins n ob = Some n' -> slots n' = slots n.
Proof.
  intros Hlen H. unfold split_leaf in H.
  pose proof (subdivide_length n Hlen) as Hlen0.
  assert (Hc : center (subdivide n) = center n) by reflexivity.
  assert (Hh : halfDimension (subdivide n) = halfDimension n)
    by reflexivity.
  pose proof (getOctantIndex_lt (subdivide n) (Body.position ob)) as Hi.
  remember (subdivide n) as n0 eqn:En0. clear En0.
  destruct (get_child n0 _) as [child|]; try discriminate.
  destruct (ins child ob) as [child'|]; cbn [bind] in H; inversion H; subst.
  unfold slots. cbn [center halfDimension children].
  rewrite set_nth_length by lia. congruence.
Qed.

Lemma insert_in_octant_slots n b n' :
  length (children n) = 8%nat ->
  insert_in_octant ins n b = Some n' -> slots n' = slots n.
Proof.
  intros Hlen H. unfold insert_in_octant in H.
  match type of H with (bind ?mv _ = _) => destruct mv as [child'|] end;
    simpl in H; inversion H; subst.
  unfold slots, updateMassAndCenterOfMass, set_child.
  cbn [center halfDimension children].
  rewrite set_nth_length; auto. rewrite Hlen. apply getOctantIndex_lt.
Qed.
End Slots.

Lemma insert_slots fuel n b n' :
  length (children n) = 8%nat ->
  insert fuel n b = Some n' -> slots n' = slots n.
Proof.
  destruct fuel as [|f]; simpl; intros Hlen H; try discriminate.
  destruct (body n) as [this_body|], (isLeaf n).
  - match type of H with (bind ?mv _ = _) => destruct mv as [n1|] eqn:E1 end;
      simpl in H; try discriminate.
    pose proof (split_leaf_slots _ _ _ _ Hlen E1) as H1.
    assert (Hlen1 : length (children n1) = 8%nat).
    { unfold slots in H1. inversion H1. congruence. }
    rewrite <- H1. eapply insert_in_octant_slots; eauto.
  - eapply insert_in_octant_slots; eauto.
  - inversion H; subst. reflexivity.
  - eapply insert_in_octant_slots; eauto.
Qed.

Lemma insert_all_slots fuel bs : forall n n',
  length (children n) = 8%nat ->
  insert_all fuel n bs = Some n' -> slots n' = slots n.
Proof.
  induction bs as [|b bs IH]; intros n n' Hlen H; cbn [insert_all] in H.
  - now inversion H.
  - destruct (insert fuel n b) as [r|] eqn:E; simpl in H; try discriminate.
    pose proof (insert_slots _ _ _ _ Hlen E) as H1.
    assert (Hlen1 : length (children r) = 8%nat).
    { unfold slots in H1. inversion H1. congruence. }
    rewrite <- H1. eapply IH; eauto.
Qed.

Lemma map_const_length {A B : Type} (v : B) (l l' : list A) :
  length l = length l' -> map (fun _ => v) l = map (fun _ => v) l'.
Proof.
  revert l'. induction l as [|a l IH]; intros [|a' l']; simpl; intro H;
    try discriminate; auto.
  f_equal. apply IH. lia.
Qed.

Lemma strict_rebuild_again fuel n bs n' :
  length (children n) = 8%nat ->
  rebuild fuel n bs = Some n' -> rebuild fuel n' bs = Some n'.
Proof.
  intros Hlen H. unfold rebuild in *.
  assert (Hs : slots n' = slots n).
  { pose proof (insert_all_slots fuel bs (clear n) n') as Hs.
    unfold slots in *. cbn [clear center halfDimension children] in Hs.
    rewrite length_map in Hs. auto. }
  unfold slots in Hs. inversion Hs as [[Hc Hh Hl]].
  assert (E : clear n' = clear n).
  { unfold clear. rewrite Hc, Hh. f_equal. now apply map_const_length. }
  rewrite E. exact H.
Qed.

(** *** An empty leaf takes any body; coincident bodies never settle *)

Lemma insert_empty_leaf fuel n b :
  body n = None -> isLeaf n = true ->
  insert (Datatypes.S fuel) n b =
  Some (mkNode (center n) (halfDimension n) (children n) (Some b)
               (Body.mass b) (Body.position b)).
Proof. intros Hb Hl. cbn [insert]. now rewrite Hb, Hl. Qed.

Lemma getOctantIndex_center a b p :
  center a = center b -> getOctantIndex a p = getOctantIndex b p.
Proof. unfold getOctantIndex. now intros ->. Qed.

Lemma insert_coincident fuel : forall n b1 b2,
  isLeaf n = true -> body n = Some b1 ->
  Body.position b1 = Body.position b2 ->
  insert fuel n b2 = None.
Proof.
  induction fuel as [|f IH]; intros n b1 b2 Hl Hb Hp; cbn [insert]; auto.
  rewrite Hb, Hl. unfold split_leaf.
  rewrite get_child_subdivide by apply getOctantIndex_lt.
  set (i := getOctantIndex (subdivide n) (Body.position b1)).
  destruct f as [|f']; [reflexivity|].
  rewrite insert_empty_leaf by reflexivity. cbn [bind].
  unfold insert_in_octant.
  match goal with |- context [getOctantIndex ?n1 (Body.position b2)] =>
    replace (getOctantIndex n1 (Body.position b2)) with i
      by (rewrite <- Hp; apply getOctantIndex_center; reflexivity) end.
  unfold get_child. cbn [children]. fold (nth_child (set_nth i
    (Some (mkNode (center (subdivide_child n i))
                  (halfDimension (subdivide_child n i))
                  (children (subdivide_child n i)) (Some b1)
                  (Body.mass b1) (Body.position b1)))
    (children (subdivide n))) i).
  rewrite nth_set_nth.
  rewrite (IH _ b1 b2); auto.
Qed.

(** *** The force walk *)

Section Walk.
Variable sqrtQ : Q -> Q.

Lemma calculateForcesOnBody_unfold n b theta force G :
  calculateForcesOnBody sqrtQ n b theta force G =
  if (mass n === JS.zero) || is_body n b then force
  else if distanceSquared (centerOfMass n) (Body.position b) === JS.zero
       then force
       else if accepts n b theta then
              vadd force (point_mass_term sqrtQ G n b)
            else fold_left
                   (fun f child =>
                      match child with
                      | Some c => calculateForcesOnBody sqrtQ c b theta f G
                      | None => f
                      end) (children n) force.
Proof. destruct n; reflexivity. Qed.

(** With [this.size] undefined the quotient of the test is NaN and the
    comparison fails: only leaves pass. *)
Lemma accepts_leaf n b theta : accepts n b theta = isLeaf n.
Proof.
  unfold accepts, size. unfold nmul at 1. unfold ndiv. reflexivity.
Qed.

Lemma walk_no_mass n b theta force G :
  (mass n === JS.zero) = true ->
  calculateForcesOnBody sqrtQ n b theta force G = force.
Proof. intro H. now rewrite calculateForcesOnBody_unfold, H. Qed.

Lemma walk_own_leaf n b theta force G :
  body n = Some b ->
  calculateForcesOnBody sqrtQ n b theta force G = force.
Proof.
  intro H. rewrite calculateForcesOnBody_unfold. unfold is_body, Body.same.
  now rewrite H, Nat.eqb_refl, orb_true_r.
Qed.

Lemma strict_walk_single_body fuel n b n' theta G :
  rebuild fuel n [b] = Some n' ->
  calculateForcesOnBody sqrtQ n' b theta Vec3.zero G = Vec3.zero.
Proof.
  destruct fuel as [|f]; [discriminate|]. unfold rebuild. cbn [insert_all].
  rewrite insert_empty_leaf by (auto using clear_leaf). cbn [bind].
  intro H. inversion H; subst. now apply walk_own_leaf.
Qed.

End Walk.

Lemma strict_OctreeNode_ind (P : OctreeNode -> Prop) :
  (forall c h cs b m cm,
      (forall k, In (Some k) cs -> P k) -> P (mkNode c h cs b m cm)) ->
  forall n, P n.
Proof.
  intro H. fix IH 1. intros [c h cs b m cm]. apply H.
  induction cs as [|[k|] cs IHcs].
  - intros k0 Hk. contradiction.
  - pose proof (IH k) as Pk. intros k0 [Hk|Hk].
    + inversion Hk; subst. exact Pk.
    + now apply IHcs.
  - intros k0 [Hk|Hk]; [discriminate | now apply IHcs].
Qed.

(** *** Insertion stores the body *)

Lemma leaf_no_bodies cs :
  forallb is_null cs = true -> flat_map bodies_opt cs = [].
Proof.
  induction cs as [|[k|] cs IH]; simpl; try discriminate; auto.
Qed.

Lemma nth_child_nil i : nth_child [] i = None.
Proof. unfold nth_child. now destruct i. Qed.

Lemma bodies_set_nth c' i : forall cs,
  Permutation
    (flat_map bodies_opt (set_nth i (Some c') cs) ++ bodies_opt (nth_child cs i))
    (subtree_bodies c' ++ flat_map bodies_opt cs).
Proof.
  induction i as [|i IH]; intros [|c cs]; cbn [set_nth flat_map bodies_opt].
  - rewrite nth_child_nil. cbn [bodies_opt]. now rewrite !app_nil_r.
  - unfold nth_child. cbn [nth_error]. rewrite <- app_assoc.
    apply Permutation_app_head. apply Permutation_app_comm.
  - rewrite nth_child_nil. cbn [bodies_opt app].
    specialize (IH []). rewrite nth_child_nil in IH. exact IH.
  - unfold nth_child. cbn [nth_error]. fold (nth_child cs i).
    rewrite <- app_assoc, (IH cs).
    rewrite !app_assoc. apply Permutation_app_tail. apply Permutation_app_comm.
Qed.

Section Stores.
Variable ins : OctreeNode -> Body.body -> option OctreeNode.
Hypothesis Hins : ins_stores ins.

Lemma slot_stores cs i fresh b child' :
  subtree_bodies fresh = [] ->
  ins (match nth_child cs i with Some c => c | None => fresh end) b
  = Some child' ->
  Permutation (flat_map bodies_opt (set_nth i (Some child') cs))
              (b :: flat_map bodies_opt cs).
Proof.
  intros Hf E.
  assert (Hc : Permutation (subtree_bodies child')
                           (b :: bodies_opt (nth_child cs i))).
  { destruct (nth_child cs i) as [c|] eqn:En.
    - exact (Hins _ _ _ E).
    - rewrite (Hins _ _ _ E), Hf. reflexivity. }
  apply Permutation_app_inv_r with (l := bodies_opt (nth_child cs i)).
  rewrite bodies_set_nth, Hc. cbn [app]. apply perm_skip.
  apply Permutation_app_comm.
Qed.

Lemma insert_in_octant_stores n b n' :
  insert_in_octant ins n b = Some n' ->
  Permutation (subtree_bodies n') (b :: subtree_bodies n).
Proof.
  destruct n as [c h cs ob m cm]. intro H. unfold insert_in_octant in H.
  set (j := getOctantIndex (mkNode c h cs ob m cm) (Body.position b)) in *.
  unfold get_child in H. cbn [children] in H. fold (nth_child cs j) in H.
  match type of H with (bind ?mv _ = _) => destruct mv as [child'|] eqn:E end;
    simpl in H; try discriminate.
  inversion H; subst. clear H.
  pose proof (slot_stores cs j (insert_child (mkNode c h cs ob m cm) j) b
                child' eq_refl E) as HP.
  unfold updateMassAndCenterOfMass, set_child.
  cbn [center halfDimension children body mass centerOfMass subtree_bodies].
  fold bodies_opt. rewrite HP. symmetry. apply Permutation_middle.
Qed.
End Stores.

Lemma subdivide_no_bodies n :
  isLeaf n = true -> flat_map bodies_opt (children (subdivide n)) = [].
Proof.
  unfold isLeaf. intro Hl. unfold subdivide. cbn [children].
  rewrite flat_map_app. cbn [map seq flat_map bodies_opt app].
  apply leaf_no_bodies.
  rewrite <- (firstn_skipn 8 (children n)), forallb_app in Hl.
  now apply andb_true_iff in Hl.
Qed.

Lemma insert_stores fuel : ins_stores (insert fuel).
Proof.
  induction fuel as [|f IH]; intros n b n' H; simpl in H; try discriminate.
  destruct n as [c h cs ob m cm].
  cbn [body] in H. fold (isLeaf (mkNode c h cs ob m cm)) in H.
  destruct (isLeaf (mkNode c h cs ob m cm)) eqn:El.
  - destruct ob as [this_body|].
    + match type of H with (bind ?mv _ = _) => destruct mv as [n1|] eqn:E1 end;
        simpl in H; try discriminate.
      unfold split_leaf in E1.
      rewrite get_child_subdivide in E1 by apply getOctantIndex_lt.
      match type of E1 with (bind ?mv _ = _) =>
        destruct mv as [child'|] eqn:E2 end; simpl in E1; try discriminate.
      inversion E1; subst n1. clear E1.
      pose proof (subdivide_no_bodies _ El) as H0.
      set (n0 := subdivide (mkNode c h cs (Some this_body) m cm)) in *.
      set (i := getOctantIndex n0 (Body.position this_body)) in *.
      assert (Hslot : nth_child (children n0) i
                      = Some (subdivide_child
                                (mkNode c h cs (Some this_body) m cm) i)).
      { apply (get_child_subdivide (mkNode c h cs (Some this_body) m cm)).
        apply getOctantIndex_lt. }
      assert (E2' : insert f (match nth_child (children n0) i with
                              | Some c0 => c0
                              | None => new_OctreeNode Vec3.zero Vec3.zero
                              end) this_body = Some child').
      { rewrite Hslot. exact E2. }
      pose proof (slot_stores _ IH (children n0) i
                  (new_OctreeNode Vec3.zero Vec3.zero) this_body child'
                  eq_refl E2') as H1.
      rewrite H0 in H1.
      rewrite (insert_in_octant_stores _ IH _ _ _ H).
      apply perm_skip. cbn [subtree_bodies occupant app]. fold bodies_opt.
      unfold isLeaf in El. cbn [children] in El.
      rewrite (leaf_no_bodies _ El). exact H1.
    + inversion H; subst. reflexivity.
  - assert (H' : insert_in_octant (insert f) (mkNode c h cs ob m cm) b
                 = Some n') by (destruct ob; exact H).
    exact (insert_in_octant_stores _ IH _ _ _ H').
Qed.

Lemma insert_all_stores fuel bs : forall n n',
  insert_all fuel n bs = Some n' ->
  Permutation (subtree_bodies n') (rev bs ++ subtree_bodies n).
Proof.
  induction bs as [|b bs IH]; intros n n' H; cbn [insert_all] in H.
  - inversion H; subst. reflexivity.
  - destruct (insert fuel n b) as [r|] eqn:E; simpl in H; try discriminate.
    rewrite (IH _ _ H), (insert_stores fuel _ _ _ E).
    cbn [rev]. rewrite <- app_assoc. reflexivity.
Qed.

(** *** Bodies that share their octant at every level never settle *)

Lemma insert_same_octants fuel : forall n b1 b2,
  isLeaf n = true -> body n = Some b1 ->
  (forall k, getOctantIndex k (Body.position b2)
             = getOctantIndex k (Body.position b1)) ->
  insert fuel n b2 = None.
Proof.
  induction fuel as [|f IH]; intros n b1 b2 Hl Hb Hp; cbn [insert]; auto.
  rewrite Hb, Hl. unfold split_leaf.
  rewrite get_child_subdivide by apply getOctantIndex_lt.
  set (i := getOctantIndex (subdivide n) (Body.position b1)).
  destruct f as [|f']; [reflexivity|].
  rewrite insert_empty_leaf by reflexivity. cbn [bind].
  unfold insert_in_octant.
  match goal with |- context [getOctantIndex ?n1 (Body.position b2)] =>
    replace (getOctantIndex n1 (Body.position b2)) with i
      by (rewrite Hp; apply getOctantIndex_center; reflexivity) end.
  unfold get_child. cbn [children]. fold (nth_child (set_nth i
    (Some (mkNode (center (subdivide_child n i))
                  (halfDimension (subdivide_child n i))
                  (children (subdivide_child n i)) (Some b1)
                  (Body.mass b1) (Body.position b1)))
    (children (subdivide n))) i).
  rewrite nth_set_nth.
  rewrite (IH _ b1 b2); auto.
Qed.

(** *** Bodies in the outer part of the last octant never part

    [subdivide] centres the children at a quarter of the half extent, so
    the centre of the last child of the last child, and so on, stays
    below the centre plus half the half extent. *)

Lemma insert_never_parts (P : vec3 -> vec3 -> Prop) b1 b2 :
  (forall n,
      P (center n) (halfDimension n) ->
      getOctantIndex n (Body.position b2)
      = getOctantIndex n (Body.position b1) /\
      P (center (subdivide_child n (getOctantIndex n (Body.position b1))))
        (halfDimension
           (subdivide_child n (getOctantIndex n (Body.position b1))))) ->
  forall fuel n,
    P (center n) (halfDimension n) ->
    isLeaf n = true -> body n = Some b1 ->
    insert fuel n b2 = None.
Proof.
  intros Hstep. induction fuel as [|f IH]; intros n Hn Hl Hb; cbn [insert];
    auto.
  rewrite Hb, Hl. unfold split_leaf.
  rewrite get_child_subdivide by apply getOctantIndex_lt.
  change (getOctantIndex (subdivide n) (Body.position b1))
    with (getOctantIndex n (Body.position b1)).
  destruct (Hstep n Hn) as [Hi Hc].
  set (i := getOctantIndex n (Body.position b1)) in *.
  destruct f as [|f']; [reflexivity|].
  rewrite insert_empty_leaf by reflexivity. cbn [bind].
  unfold insert_in_octant.
  match goal with |- context [getOctantIndex ?n1 (Body.position b2)] =>
    change (getOctantIndex n1 (Body.position b2))
      with (getOctantIndex n (Body.position b2)) end.
  rewrite Hi.
  unfold get_child. cbn [children]. fold (nth_child (set_nth i
    (Some (mkNode (center (subdivide_child n i))
                  (halfDimension (subdivide_child n i))
                  (children (subdivide_child n i)) (Some b1)
                  (Body.mass b1) (Body.position b1)))
    (children (subdivide n))) i).
  rewrite nth_set_nth.
  rewrite IH; auto.
Qed.

Lemma outer_octant n p :
  outer (center n) (halfDimension n) p ->
  getOctantIndex n p = 7%nat /\
  outer (center (subdivide_child n 7)) (halfDimension (subdivide_child n 7)) p.
Proof.
  intros (cx & cy & cz & hx & hy & hz & px & py & pz
          & Hc & Hh & Hp & (Hhx & Hhy & Hhz) & (Hx & Hy & Hz)).
  split.
  - unfold getOctantIndex, nge. rewrite Hc, Hp. cbn [x y z nle].
    assert (Ex : Qle_bool cx px = true) by (apply Qle_bool_iff; lra).
    assert (Ey : Qle_bool cy py = true) by (apply Qle_bool_iff; lra).
    assert (Ez : Qle_bool cz pz = true) by (apply Qle_bool_iff; lra).
    now rewrite Ex, Ey, Ez.
  - unfold subdivide_child, new_OctreeNode, scale, mult, half_sign.
    cbn [center halfDimension Nat.testbit Nat.odd Nat.even Nat.div2 negb].
    rewrite Hc, Hh. cbn [x y z]. unfold nadd, nmul.
    exists (cx + 0.5 * hx * 0.5)%Q, (cy + 0.5 * hy * 0.5)%Q,
           (cz + 0.5 * hz * 0.5)%Q, (0.5 * hx)%Q, (0.5 * hy)%Q, (0.5 * hz)%Q,
           px, py, pz.
    split; [reflexivity|]. split; [reflexivity|]. split; [exact Hp|].
    split; repeat split; lra.
Qed.

(** Two bodies in the outer part of the last octant of a leaf: the
    second never settles. *)
Lemma outer_bodies_never_part b1 b2 fuel n :
  outer (center n) (halfDimension n) (Body.position b1) ->
  outer (center n) (halfDimension n) (Body.position b2) ->
  isLeaf n = true -> body n = Some b1 ->
  insert fuel n b2 = None.
Proof.
  intros H1 H2.
  apply (insert_never_parts
           (fun c h => outer c h (Body.position b1)
                       /\ outer c h (Body.position b2)) b1 b2);
    [|split; assumption].
  intros k [K1 K2].
  destruct (outer_octant k _ K1) as [E1 O1].
  destruct (outer_octant k _ K2) as [E2 O2].
  rewrite E1, E2. auto.
Qed.

(** *** The mass of a node after an insertion *)

Lemma insert_root_mass fuel n b n' :
  insert fuel n b = Some n' ->
  mass n' = match body n, isLeaf n with
            | None, true => Body.mass b
            | _, _ => mass n + Body.mass b
            end.
Proof.
  destruct fuel as [|f]; cbn [insert]; [discriminate|].
  assert (Hoct : forall k,
             insert_in_octant (insert f) k b = Some n' ->
             mass n' = mass k + Body.mass b).
  { intros k H. unfold insert_in_octant in H.
    match type of H with (bind ?m _ = _) => destruct m as [c'|] end;
      cbn [bind] in H; [|discriminate].
    inversion H; subst. reflexivity. }
  destruct (body n) as [tb|], (isLeaf n); intro H.
  - match type of H with (bind ?m _ = _) => destruct m as [n1|] eqn:E1 end;
      cbn [bind] in H; [|discriminate].
    rewrite (Hoct _ H). unfold split_leaf in E1.
    destruct (get_child (subdivide n) _) as [child|]; [|discriminate].
    match type of E1 with (bind ?m _ = _) => destruct m as [c'|] end;
      cbn [bind] in E1; [|discriminate].
    inversion E1; subst. reflexivity.
  - exact (Hoct _ H).
  - inversion H; subst. reflexivity.
  - exact (Hoct _ H).
Qed.

(** The mass of the root after a rebuild: the mass of the first body,
    and the masses of the others added to it one after the other. *)
Lemma insert_all_root_mass fuel bs : forall n n',
  (body n = None -> isLeaf n = true -> False) ->
  insert_all fuel n bs = Some n' ->
  mass n' = fold_left (fun m b => m + Body.mass b) bs (mass n).
Proof.
  induction bs as [|b bs IH]; intros n n' Hn H; cbn [insert_all] in H.
  - inversion H; subst. reflexivity.
  - destruct (insert fuel n b) as [n1|] eqn:E; cbn [bind] in H;
      [|discriminate].
    assert (Hn1 : body n1 = None -> isLeaf n1 = true -> False).
    { destruct fuel as [|f]; [discriminate|]. cbn [insert] in E.
      assert (Hoct : forall k,
                 insert_in_octant (insert f) k b = Some n1 ->
                 isLeaf n1 = true -> False).
      { intros k Hk Hl. unfold insert_in_octant in Hk.
        match type of Hk with (bind ?m _ = _) => destruct m as [c'|] end;
          cbn [bind] in Hk; [|discriminate].
        inversion Hk; subst. unfold isLeaf in Hl.
        cbn [updateMassAndCenterOfMass set_child children] in Hl.
        rewrite forallb_forall in Hl.
        specialize (Hl (Some c')). cbn [is_null] in Hl.
        assert (Hin : In (Some c')
                         (set_nth (getOctantIndex k (Body.position b))
                                  (Some c') (children k))).
        { generalize (getOctantIndex k (Body.position b)) as i.
          generalize (children k) as cs.
          intros cs i. revert cs.
          induction i as [|i IHi]; intros [|c0 cs]; cbn [set_nth];
            try (now left); right; apply IHi. }
        specialize (Hl Hin). discriminate. }
      destruct (body n) as [tb|] eqn:Eb, (isLeaf n) eqn:El.
      - match type of E with (bind ?m _ = _) => destruct m as [n0|] end;
          cbn [bind] in E; [|discriminate].
        intros _. exact (Hoct _ E).
      - intros _. exact (Hoct _ E).
      - exfalso. exact (Hn eq_refl eq_refl).
      - intros _. exact (Hoct _ E). }
    rewrite (IH _ _ Hn1 H). cbn [fold_left].
    rewrite (insert_root_mass _ _ _ _ E).
    destruct (body n) as [tb|] eqn:Eb, (isLeaf n) eqn:El; try reflexivity.
    exfalso. exact (Hn eq_refl eq_refl).
Qed.

Lemma strict_rebuild_root_mass fuel n b bs n' :
  rebuild fuel n (b :: bs) = Some n' ->
  mass n' = fold_left (fun m a => m + Body.mass a) bs (Body.mass b).
Proof.
  unfold rebuild. cbn [insert_all]. intro H.
  destruct fuel as [|f]; [discriminate|].
  rewrite insert_empty_leaf in H by (auto using clear_leaf).
  cbn [bind] in H.
  apply insert_all_root_mass in H; [exact H|].
  cbn [body]. intros Hb _. discriminate Hb.
Qed.

(** *** The walk with [normalize] as cannon-es has it *)

Lemma es_unfold n b theta force G :
  CannonES.calculateForcesOnBody n b theta force G =
  if (mass n === JS.zero) || is_body n b then CannonES.Returns force
  else if distanceSquared (centerOfMass n) (Body.position b) === JS.zero
       then CannonES.Returns force
       else if ((size n * size n)
                / distanceSquared (centerOfMass n) (Body.position b)
                <? theta * theta) || isLeaf n
            then CannonES.TypeError
            else fold_left
                   (fun acc child =>
                      match acc, child with
                      | CannonES.Returns f, Some c =>
                          CannonES.calculateForcesOnBody c b theta f G
                      | _, _ => acc
                      end) (children n) (CannonES.Returns force).
Proof. destruct n; reflexivity. Qed.

Lemma es_leaf_throws n b theta force G :
  (mass n === JS.zero) = false -> is_body n b = false ->
  (distanceSquared (centerOfMass n) (Body.position b) === JS.zero) = false ->
  isLeaf n = true ->
  CannonES.calculateForcesOnBody n b theta force G = CannonES.TypeError.
Proof.
  intros Hm Hb Hd Hl. rewrite es_unfold, Hm, Hb, Hd, Hl.
  now rewrite orb_true_r.
Qed.

Lemma es_zero_distance n b theta force G :
  (distanceSquared (centerOfMass n) (Body.position b) === JS.zero) = true ->
  CannonES.calculateForcesOnBody n b theta force G = CannonES.Returns force.
Proof.
  intro H. rewrite es_unfold, H.
  now destruct ((mass n === JS.zero) || is_body n b).
Qed.

Lemma es_thrown_stays b theta G cs :
  fold_left
    (fun acc child =>
       match acc, child with
       | CannonES.Returns f, Some c =>
           CannonES.calculateForcesOnBody c b theta f G
       | _, _ => acc
       end) cs CannonES.TypeError = CannonES.TypeError.
Proof. induction cs as [|k cs IH]; cbn [fold_left]; auto. Qed.

(** The walk adds nothing: where it returns, the force is the one it was
    given. *)
Lemma es_returns_force b theta G n : forall force f,
  CannonES.calculateForcesOnBody n b theta force G = CannonES.Returns f ->
  f = force.
Proof.
  induction n as [c h cs ob m cm IH] using strict_OctreeNode_ind.
  intros force f. rewrite es_unfold.
  destruct ((mass _ === JS.zero) || is_body _ b);
    [intro H; now inversion H|].
  destruct (distanceSquared _ _ === JS.zero); [intro H; now inversion H|].
  destruct ((_ <? _) || isLeaf _); [discriminate|].
  cbn [children]. clear - IH.
  induction cs as [|k cs IHcs]; cbn [fold_left].
  - intro H. now inversion H.
  - destruct k as [k|].
    + destruct (CannonES.calculateForcesOnBody k b theta force G) as [f0|]
        eqn:Ek.
      * apply IH in Ek; [|now left]. subst f0.
        apply IHcs. intros k0 Hk0. apply IH. now right.
      * now rewrite es_thrown_stays.
    + apply IHcs. intros k0 Hk0. apply IH. now right.
Qed.

(** *** The mass of a node is the running sum over its subtree *)

Lemma set_nth_In c' i : forall cs k,
  In (Some k) (set_nth i (Some c') cs) -> k = c' \/ In (Some k) cs.
Proof.
  induction i as [|i IH]; intros [|c cs] k H; cbn [set_nth] in H.
  - destruct H as [H|[]]. left. now inversion H.
  - destruct H as [H|H]; [left; now inversion H|right; now right].
  - destruct H as [H|H]; [discriminate|].
    destruct (IH [] k H) as [E|[]]. now left.
  - destruct H as [H|H]; [right; now left|].
    destruct (IH cs k H) as [E|E]; [now left|right; now right].
Qed.

Lemma tallied_new c h : tallied (new_OctreeNode c h).
Proof.
  apply (tallied_intro _ _ _ _ _ _ []); [reflexivity|reflexivity|reflexivity|].
  intros k Hk. cbn [repeat] in Hk.
  repeat (destruct Hk as [Hk|Hk]; [discriminate|]). contradiction.
Qed.

Lemma tallied_children n k :
  tallied n -> In (Some k) (children n) -> tallied k.
Proof. intros Hn. inversion Hn; subst. cbn [children]. auto. Qed.

Lemma running_last l b :
  l <> [] -> running (l ++ [b]) = running l + Body.mass b.
Proof.
  destruct l as [|a l]; [congruence|]. intros _.
  cbn [running app]. now rewrite fold_left_app.
Qed.

Lemma subdivide_kids n k :
  In (Some k) (children (subdivide n)) ->
  (exists t, k = subdivide_child n t) \/ In (Some k) (children n).
Proof.
  unfold subdivide, children at 1. intro H.
  apply in_app_or in H. destruct H as [H|H].
  - apply in_map_iff in H. destruct H as (t & Ht & _).
    left. exists t. now inversion Ht.
  - right. rewrite <- (firstn_skipn 8 (children n)).
    apply in_or_app. now right.
Qed.

Section Tallied.
Variable ins : OctreeNode -> Body.body -> option OctreeNode.
Hypothesis Hins : forall n b n', tallied n -> ins n b = Some n' -> tallied n'.

Lemma insert_in_octant_kids n b n' :
(forall k, In (Some k) (children n) -> tallied k) ->
insert_in_octant ins n b = Some n' ->
forall k, In (Some k) (children n') -> tallied k.
Proof.
intros Hcs H. unfold insert_in_octant in H.
set (j := getOctantIndex n (Body.position b)) in *.
match type of H with (bind ?mv _ = _) => destruct mv as [child'|] eqn:E end;
  cbn [bind] in H; [|discriminate].
inversion H; subst. clear H.
assert (Hc : tallied child').
{ apply (Hins _ _ _) with (2 := E).
  unfold get_child. destruct (nth_error (children n) j) as [[c0|]|] eqn:En.
  - apply Hcs. eapply nth_error_In; eauto.
  - apply tallied_new.
  - apply tallied_new. }
intros k Hk. unfold updateMassAndCenterOfMass, set_child in Hk.
cbn [children] in Hk. apply set_nth_In in Hk.
destruct Hk as [->|Hk]; auto.
Qed.

Lemma split_leaf_kids n o n1 :
(forall k, In (Some k) (children n) -> tallied k) ->
split_leaf ins n o = Some n1 ->
forall k, In (Some k) (children n1) -> tallied k.
Proof.
intros Hcs H. unfold split_leaf in H.
rewrite get_child_subdivide in H by apply getOctantIndex_lt.
match type of H with (bind ?mv _ = _) => destruct mv as [child'|] eqn:E end;
  cbn [bind] in H; [|discriminate].
inversion H; subst. clear H.
assert (Hc : tallied child')
  by (apply (Hins _ _ _) with (2 := E); apply tallied_new).
intros k Hk. cbn [children] in Hk. apply set_nth_In in Hk.
destruct Hk as [->|Hk]; auto.
destruct (subdivide_kids _ _ Hk) as [[t ->]|Hk'].
- apply tallied_new.
- now apply Hcs.
Qed.

End Tallied.

Lemma insert_tallied fuel : forall n b n',
  tallied n -> insert fuel n b = Some n' -> tallied n'.
Proof.
  induction fuel as [|f IH]; intros n b n' Hn H; [discriminate|].
  pose proof (insert_root_mass _ _ _ _ H) as Hm.
  pose proof (insert_stores _ _ _ _ H) as Hs.
  assert (Hkids : forall k, In (Some k) (children n') -> tallied k).
  { cbn [insert] in H.
    destruct (body n) as [o|] eqn:Eb, (isLeaf n) eqn:El.
    - match type of H with (bind ?mv _ = _) =>
        destruct mv as [n1|] eqn:E1 end; cbn [bind] in H; [|discriminate].
      eapply (insert_in_octant_kids (insert f) IH); [|exact H].
      eapply (split_leaf_kids (insert f) IH); [|exact E1].
      intros k Hk. eapply tallied_children; eauto.
    - eapply (insert_in_octant_kids (insert f) IH); [|exact H].
      intros k Hk. eapply tallied_children; eauto.
    - inversion H; subst. cbn [children].
      intros k Hk. eapply tallied_children; eauto.
    - eapply (insert_in_octant_kids (insert f) IH); [|exact H].
      intros k Hk. eapply tallied_children; eauto. }
  inversion Hn as [c h cs ob m cm l Hl Hp Hleaf Hcs]; subst.
  cbn [body mass] in Hm. fold (isLeaf (mkNode c h cs ob (running l) cm)) in *.
  destruct n' as [c' h' cs' ob' m' cm']. cbn [mass children] in *.
  cbn [subtree_bodies] in Hs. fold bodies_opt in Hs.
  destruct ob as [o|].
  - (* the node held a body *)
    apply (tallied_intro _ _ _ _ _ _ (l ++ [b])).
    + rewrite running_last.
      * exact Hm.
      * intro E. subst l. apply Permutation_nil in Hp. discriminate.
    + rewrite Hs, Hp. symmetry. apply Permutation_cons_append.
    + intro E. symmetry in E. now apply app_cons_not_nil in E.
    + exact Hkids.
  - destruct (isLeaf (mkNode c h cs None (running l) cm)) eqn:El.
    + (* an empty leaf *)
      apply (tallied_intro _ _ _ _ _ _ [b]).
      * exact Hm.
      * rewrite Hs. cbn [occupant app]. unfold isLeaf in El.
        cbn [children] in El. now rewrite (leaf_no_bodies _ El).
      * discriminate.
      * exact Hkids.
    + (* an internal node *)
      assert (Hne : l <> []).
      { intro E. specialize (Hleaf E). unfold isLeaf in El.
        cbn [children] in El. congruence. }
      apply (tallied_intro _ _ _ _ _ _ (l ++ [b])).
      * now rewrite running_last.
      * rewrite Hs, Hp. symmetry. apply Permutation_cons_append.
      * intro E. symmetry in E. now apply app_cons_not_nil in E.
      * exact Hkids.
Qed.

Lemma insert_all_tallied fuel bs : forall n n',
  tallied n -> insert_all fuel n bs = Some n' -> tallied n'.
Proof.
  induction bs as [|b bs IH]; intros n n' Hn H; cbn [insert_all] in H.
  - now inversion H; subst.
  - destruct (insert fuel n b) as [n1|] eqn:E; cbn [bind] in H;
      [|discriminate].
    eapply IH; [|exact H]. eapply insert_tallied; eauto.
Qed.

Lemma cleared_no_bodies (cs : list (option OctreeNode)) :
  flat_map bodies_opt (map (fun _ => @None OctreeNode) cs) = [] /\
  forallb is_null (map (fun _ => @None OctreeNode) cs) = true.
Proof. induction cs as [|c cs [IH1 IH2]]; split; simpl; auto. Qed.

Lemma clear_tallied n : tallied (clear n).
Proof.
  unfold clear.
  destruct (cleared_no_bodies (children n)) as [H1 H2].
  apply (tallied_intro _ _ _ _ _ _ []).
  - reflexivity.
  - cbn [occupant app]. now rewrite H1.
  - intros _. exact H2.
  - intros k Hk. apply in_map_iff in Hk. destruct Hk as (x & Hx & _).
    discriminate.
Qed.

Lemma tallied_nodes n :
  tallied n ->
  Forall (fun k =>
            exists l, mass k = running l /\
                      Permutation l (subtree_bodies k))
         (nodes n).
Proof.
  induction n as [c h cs ob m cm IH] using strict_OctreeNode_ind.
  intro Hn. inversion Hn as [? ? ? ? ? ? l Hl Hp Hleaf Hcs]; subst.
  cbn [nodes]. constructor.
  - exists l. split; [reflexivity|exact Hp].
  - rewrite Forall_flat_map. apply Forall_forall. intros [k|] Hk.
    + apply IH; auto.
    + constructor.
Qed.

Lemma rebuild_tallied fuel n bs n' :
  rebuild fuel n bs = Some n' ->
  Forall (fun k =>
            exists l, mass k = running l /\
                      Permutation l (subtree_bodies k))
         (nodes n').
Proof.
  unfold rebuild. intro H. apply tallied_nodes.
  eapply insert_all_tallied; [|exact H]. apply clear_tallied.
Qed.

End StrictFacts.

(** ** Runs on the samples *)

Module SampleFacts.
Import Samples.
Local Open Scope num_scope.

Lemma rebuild_gravityConstant fuel t bs t' :
  Bucket.rebuild fuel t bs = Some t' ->
  Bucket.gravityConstant t' = Bucket.gravityConstant t.
Proof.
  unfold Bucket.rebuild. intro H.
  apply BucketFacts.insert_all_geom in H. now destruct H.
Qed.

(** The force on [probe] in the world that holds [heavy m] and [probe]:
    the mass [m] itself, towards the origin. *)
Lemma heavy_force (m : Q) :
  exists t,
    Bucket.rebuild 1 world [heavy m; probe] = Some t /\
    exists fx fy fz,
      Bucket.calculateGravity sqrt_floor t probe (Fin 0.5)
      = Vec3.mk (Fin fx) (Fin fy) (Fin fz) /\
      fx == - m /\ fy == 0 /\ fz == 0.
Proof.
  destruct (BucketFacts.rebuild_small 0 world [heavy m; probe])
    as (t & H1 & H2 & H3 & _).
  { unfold Bucket.MAX_BODIES_PER_NODE. simpl. lia. }
  exists t. split; auto.
  unfold Bucket.calculateGravity.
  rewrite BucketFacts._calculateGravity_unfold, H2, H3.
  rewrite (rebuild_gravityConstant _ _ _ _ H1).
  cbn [fold_left]. rewrite BucketFacts.leaf_term_self.
  unfold Bucket.leaf_term.
  change (negb (Body.same (heavy m) probe)) with true. cbv iota.
  change (Body.position (heavy m)) with (v3 0 0 0).
  change (Body.position probe) with (v3 1 0 0).
  change (Body.mass (heavy m)) with (Fin m).
  change (Body.mass probe) with (Fin 1).
  set (d := vsub (v3 0 0 0) (v3 1 0 0)).
  assert (Ed2 : norm2 d = Fin 1) by (vm_compute; reflexivity).
  assert (Eu : unit sqrt_floor d = v3 (-1) 0 0) by (vm_compute; reflexivity).
  rewrite Ed2, Eu.
  change (Fin 1 >? Fin 1e-10) with true. cbv iota.
  change (Bucket.gravityConstant world) with (Fin 1).
  unfold v3, mult, vadd, Vec3.zero, JS.zero, nmul, ndiv, nadd.
  cbn [Vec3.x Vec3.y Vec3.z]. change (Qeq_bool 1 0) with false. cbv iota.
  do 3 eexists. split; [reflexivity|]. repeat split; field.
Qed.

(** The force on [probe] beside a mass [C*C + 1] exceeds [C]. *)
Lemma heavy_force_exceeds (C : Q) :
  exists t,
    Bucket.rebuild 1 world [heavy (C * C + 1); probe] = Some t /\
    (norm2 (Bucket.calculateGravity sqrt_floor t probe (Fin 0.5))
     <=? Fin (C * C)) = false.
Proof.
  destruct (heavy_force (C * C + 1))
    as (t & H & fx & fy & fz & Hf & Hx & Hy & Hz).
  exists t. split; auto. rewrite Hf.
  unfold norm2, nmul, nadd, nle. cbn [Vec3.x Vec3.y Vec3.z].
  destruct (Qle_bool _ _) eqn:E; auto.
  apply Qle_bool_iff in E. rewrite Hx, Hy, Hz in E.
  exfalso. nra.
Qed.

End SampleFacts.

(** ** The bucketed octree on doubles *)

Module DoubleFacts.
Import Double Double.Vec3 Double.Bucket.
Local Open Scope float_scope.

(** *** Comparisons and quotients that involve NaN, zero and infinity *)

Lemma leb_nan_r a : (a <=? nan) = false.
Proof.
  rewrite leb_spec. change (Prim2SF nan) with S754_nan.
  destruct (Prim2SF a) as [s|s| |s m e]; try destruct s; reflexivity.
Qed.

(** A half size that is not negative, divided by a distance of zero, is
    infinite or NaN, and below no [theta]. *)
Lemma quotient_by_zero h theta :
  (0 <=? h) = true -> (h / 0 <? theta) = false.
Proof.
  rewrite leb_spec, ltb_spec, div_spec.
  change (Prim2SF 0) with (S754_zero false).
  destruct (Prim2SF h) as [s|s| |s m e]; try destruct s; try discriminate;
    intros _; try reflexivity; cbn;
    destruct (Prim2SF theta) as [s'|s'| |s' m' e']; try destruct s';
    reflexivity.
Qed.

(** *** What insertion does to the aggregates, whatever the body *)

Lemma move_bodies_frame ins bs : forall n n',
  move_bodies ins n bs = Some n' ->
  mass n' = mass n /\ com n' = com n /\
  center n' = center n /\ halfSize n' = halfSize n.
Proof.
  induction bs as [|b bs IH]; simpl; intros n n' H.
  - inversion H; auto.
  - unfold _insertIntoChild in H.
    destruct (insert_first ins (children n) b) as [cs|]; simpl in H;
      try discriminate.
    apply IH in H. exact H.
Qed.

Lemma subdivide_frame ins n n' :
  subdivide ins n = Some n' ->
  mass n' = mass n /\ com n' = com n /\
  center n' = center n /\ halfSize n' = halfSize n.
Proof. unfold subdivide. intro H. apply move_bodies_frame in H. exact H. Qed.

Lemma double_insert_mass fuel n b n' :
  insert fuel n b = Some n' ->
  mass n' = mass n + Body.mass b /\
  com n' =
  Vec3.mk ((x (com n) * mass n + x (Body.position b) * Body.mass b)
           / (mass n + Body.mass b))
          ((y (com n) * mass n + y (Body.position b) * Body.mass b)
           / (mass n + Body.mass b))
          ((z (com n) * mass n + z (Body.position b) * Body.mass b)
           / (mass n + Body.mass b)) /\
  center n' = center n /\ halfSize n' = halfSize n.
Proof.
  destruct fuel as [|f]; simpl; intro H; try discriminate.
  match type of H with (bind ?m _ = _) => destruct m as [n1|] eqn:E1 end;
    simpl in H; try discriminate.
  assert (G1 : mass n1 = mass n /\ com n1 = com n /\
               center n1 = center n /\ halfSize n1 = halfSize n).
  { destruct (negb (isLeaf n)).
    - unfold _insertIntoChild in E1.
      destruct (insert_first (insert f) (children n) b); simpl in E1;
        inversion E1; auto.
    - match type of E1 with (if ?c then _ else _) = _ => destruct c end.
      + apply subdivide_frame in E1. exact E1.
      + inversion E1; auto. }
  destruct G1 as (Gm & Gc & Gx & Gh).
  assert (G2 : mass n' = mass (updateMassDistribution n1 b) /\
               com n' = com (updateMassDistribution n1 b) /\
               center n' = center n1 /\ halfSize n' = halfSize n1).
  { match type of H with (if ?c then _ else _) = _ => destruct c end.
    - apply subdivide_frame in H. exact H.
    - inversion H; auto. }
  destruct G2 as (-> & -> & -> & ->). unfold updateMassDistribution.
  cbn [mass com]. rewrite Gm, Gc. auto.
Qed.

(** The mass of the root after a series of insertions: the masses added
    one after the other, in the order of the insertions. *)
Lemma insert_all_mass fuel bs : forall t t',
  insert_all fuel t bs = Some t' ->
  mass (root t') = fold_left (fun m b => m + Body.mass b) bs (mass (root t)).
Proof.
  induction bs as [|b bs IH]; intros t t' H; cbn [insert_all] in H.
  - inversion H; subst. reflexivity.
  - unfold Octree_insert in H.
    destruct (insert fuel (root t) b) as [r|] eqn:E; simpl in H;
      try discriminate.
    rewrite (IH _ _ H). cbn [root fold_left].
    destruct (double_insert_mass _ _ _ _ E) as [-> _]. reflexivity.
Qed.

Lemma double_rebuild_root_mass fuel t bs t' :
  rebuild fuel t bs = Some t' ->
  mass (root t') = fold_left (fun m b => m + Body.mass b) bs 0.
Proof. unfold rebuild. intro H. now rewrite (insert_all_mass _ _ _ _ H). Qed.

(** *** A leaf with room *)

Lemma double_insert_leaf_room fuel n b :
  isLeaf n = true -> (length (bodies n) < MAX_BODIES_PER_NODE)%nat ->
  insert (S fuel) n b =
  Some (updateMassDistribution
          (mkNode (center n) (halfSize n) (mass n) (com n) true
                  (bodies n ++ [b]) (children n)) b).
Proof.
  intros Hl Hlen. cbn [insert]. rewrite Hl. cbn [negb].
  assert (E : Nat.ltb MAX_BODIES_PER_NODE (length (bodies n ++ [b])) = false).
  { apply Nat.ltb_ge. rewrite length_app. simpl. lia. }
  cbn [bodies]. rewrite E. cbn [bind].
  cbn [updateMassDistribution isLeaf bodies]. rewrite E. reflexivity.
Qed.

(** *** A body that no child contains *)

Lemma contains_nan n p : x p = nan -> contains n p = false.
Proof.
  intro H. unfold contains. rewrite H, leb_nan_r. reflexivity.
Qed.

Lemma double_insert_first_nowhere ins cs b :
  forallb (fun child => negb (contains child (Body.position b))) cs = true ->
  insert_first ins cs b = Some cs.
Proof.
  induction cs as [|k cs IH]; cbn [insert_first forallb]; auto.
  intro H. apply andb_true_iff in H. destruct H as [Hk Hcs].
  apply negb_true_iff in Hk. rewrite Hk, (IH Hcs). reflexivity.
Qed.

Lemma insert_internal_nowhere fuel n b :
  isLeaf n = false ->
  forallb (fun child => negb (contains child (Body.position b)))
          (children n) = true ->
  insert (S fuel) n b = Some (updateMassDistribution n b).
Proof.
  intros Hl Hnone. cbn [insert]. rewrite Hl. cbn [negb].
  unfold _insertIntoChild. rewrite double_insert_first_nowhere by exact Hnone.
  cbn [bind]. destruct n as [c h m cm leaf bs cs]. cbn [isLeaf] in Hl.
  subst. reflexivity.
Qed.

Lemma nowhere_with_nan cs p :
  x p = nan ->
  forallb (fun child => negb (contains child p)) cs = true.
Proof.
  intro H. apply forallb_forall. intros k _.
  now rewrite (contains_nan k p H).
Qed.

Lemma double_insert_all_room fuel bs : forall t,
  isLeaf (root t) = true ->
  (length (bodies (root t)) + length bs <= MAX_BODIES_PER_NODE)%nat ->
  exists t',
    insert_all (S fuel) t bs = Some t' /\
    isLeaf (root t') = true /\
    bodies (root t') = bodies (root t) ++ bs /\
    children (root t') = children (root t).
Proof.
  induction bs as [|b bs IH]; intros t Hl Hlen; cbn [insert_all].
  - exists t. rewrite app_nil_r. auto.
  - unfold Octree_insert. rewrite double_insert_leaf_room; auto.
    2:{ simpl in Hlen. lia. }
    cbn [bind].
    match goal with |- context [insert_all _ ?t1 bs] =>
      destruct (IH t1) as (t' & H1 & H2 & H3 & H4) end.
    + reflexivity.
    + cbn [root updateMassDistribution bodies]. rewrite length_app.
      simpl in *. lia.
    + exists t'. cbn [root updateMassDistribution bodies children] in *.
      rewrite <- app_assoc in H3. auto.
Qed.

Lemma double_rebuild_small fuel t bs :
  (length bs <= MAX_BODIES_PER_NODE)%nat ->
  exists t',
    rebuild (S fuel) t bs = Some t' /\
    isLeaf (root t') = true /\ bodies (root t') = bs /\
    children (root t') = [].
Proof.
  intro Hlen. unfold rebuild.
  destruct (double_insert_all_room fuel bs (clear t)) as (t' & H1 & H2 & H3 & H4);
    auto.
  exists t'. auto.
Qed.

(** *** The force walk *)

Lemma fold_left_ext {A B : Type} (f g : A -> B -> A) l :
  (forall a b, f a b = g a b) ->
  forall a, fold_left f l a = fold_left g l a.
Proof.
  intro H. induction l as [|b l IH]; intro a; cbn [fold_left]; auto.
  now rewrite H, IH.
Qed.

Lemma double_walk_unfold G n b theta force :
  _calculateGravity G n b theta force =
  if isLeaf n then fold_left (leaf_term G b) (bodies n) force
  else if accepts n b theta then vadd force (node_term G n b)
       else fold_left (fun f child => _calculateGravity G child b theta f)
                      (children n) force.
Proof. destruct n as [c h m cm [|] bs cs]; reflexivity. Qed.

(** A distance of zero at an internal node: the quotient of the test is
    below no [theta]. *)
Lemma double_accepts_zero_distance n b theta :
  (0 <=? halfSize n) = true ->
  norm (vsub (com n) (Body.position b)) = 0 ->
  accepts n b theta = false.
Proof.
  intros Hh Hd. unfold accepts. rewrite Hd. now apply quotient_by_zero.
Qed.

(** A NaN coordinate of the position makes the coordinate of the centre
    of mass NaN. *)
Lemma mul_nan_l a : nan * a = nan.
Proof.
  apply Prim2SF_inj. rewrite mul_spec.
  change (Prim2SF nan) with S754_nan. reflexivity.
Qed.

Lemma add_nan_r a : a + nan = nan.
Proof.
  apply Prim2SF_inj. rewrite add_spec.
  change (Prim2SF nan) with S754_nan.
  destruct (Prim2SF a) as [s|s| |s m e]; try destruct s; reflexivity.
Qed.

Lemma div_nan_l a : nan / a = nan.
Proof.
  apply Prim2SF_inj. rewrite div_spec.
  change (Prim2SF nan) with S754_nan. reflexivity.
Qed.

Lemma nan_moment c m mb : (c * m + nan * mb) / (m + mb) = nan.
Proof. now rewrite mul_nan_l, add_nan_r, div_nan_l. Qed.

(** *** The mass of a node counts the bodies that arrived at it *)

Lemma running_mass_last l b :
  running_mass (l ++ [b]) = running_mass l + Body.mass b.
Proof. unfold running_mass. now rewrite fold_left_app. Qed.

Lemma new_children_counted c h :
  Forall2 counted (map (fun _ => []) (new_children c h)) (new_children c h).
Proof.
  unfold new_children.
  induction octant_signs as [|s l IH]; cbn [map]; constructor; auto.
  apply (counted_intro _ _ _ _ _ _ _ _ [] []);
    [reflexivity|constructor|reflexivity].
Qed.

Lemma concat_no_bodies {A : Type} (l : list A) :
  concat (map (fun _ => @nil Body.body) l) = [].
Proof. induction l; cbn [map concat app]; auto. Qed.

Section Counted.
Variable ins : OctreeNode -> Body.body -> option OctreeNode.
Hypothesis Hins : forall l n b n',
  counted l n -> ins n b = Some n' -> counted (l ++ [b]) n'.

Lemma insert_first_counted b : forall below cs cs',
  Forall2 counted below cs -> insert_first ins cs b = Some cs' ->
  exists below' e,
    Forall2 counted below' cs' /\
    Permutation (concat below' ++ e) (b :: concat below).
Proof.
  intros below cs cs' Hall. revert cs'.
  induction Hall as [|l k below cs Hk Hcs IH]; intros cs' H;
    cbn [insert_first] in H.
  - inversion H; subst. exists [], [b]. split; [constructor|reflexivity].
  - destruct (contains k (Body.position b)).
    + destruct (ins k b) as [k'|] eqn:Ek; cbn [bind] in H; [|discriminate].
      inversion H; subst. exists ((l ++ [b]) :: below), [].
      split; [constructor; [eapply Hins; eauto|exact Hcs]|].
      cbn [concat]. rewrite app_nil_r, <- app_assoc. cbn [app].
      symmetry. apply Permutation_middle.
    + destruct (insert_first ins cs b) as [r|] eqn:Er; cbn [bind] in H;
        [|discriminate].
      inversion H; subst. destruct (IH _ eq_refl) as (below' & e & H1 & H2).
      exists (l :: below'), e. split; [constructor; assumption|].
      cbn [concat]. rewrite <- app_assoc, H2.
      symmetry. apply Permutation_middle.
Qed.

Lemma _insertIntoChild_counted n b n' below :
  Forall2 counted below (children n) ->
  _insertIntoChild ins n b = Some n' ->
  bodies n' = bodies n /\
  exists below' e,
    Forall2 counted below' (children n') /\
    Permutation (concat below' ++ e) (b :: concat below).
Proof.
  unfold _insertIntoChild. intros Hall H.
  destruct (insert_first ins (children n) b) as [cs'|] eqn:E;
    cbn [bind] in H; [|discriminate].
  inversion H; subst. cbn [bodies children]. split; [reflexivity|].
  eapply insert_first_counted; eauto.
Qed.

Lemma move_bodies_counted bs : forall n n' below,
  Forall2 counted below (children n) ->
  move_bodies ins n bs = Some n' ->
  bodies n' = bodies n /\
  exists below' e,
    Forall2 counted below' (children n') /\
    Permutation (concat below' ++ e) (bs ++ concat below).
Proof.
  induction bs as [|b bs IH]; intros n n' below Hall H;
    cbn [move_bodies] in H.
  - inversion H; subst. split; [reflexivity|].
    exists below, []. split; [exact Hall|]. now rewrite app_nil_r.
  - destruct (_insertIntoChild ins n b) as [n1|] eqn:E; cbn [bind] in H;
      [|discriminate].
    destruct (_insertIntoChild_counted _ _ _ _ Hall E)
      as (Hb1 & below1 & e1 & H1 & P1).
    destruct (IH _ _ _ H1 H) as (Hb2 & below2 & e2 & H2 & P2).
    split; [congruence|].
    exists below2, (e2 ++ e1). split; [exact H2|].
    rewrite app_assoc, P2, <- app_assoc, P1. cbn [app].
    symmetry. apply Permutation_middle.
Qed.

Lemma subdivide_counted n n' below :
  Forall2 counted below (children n) ->
  subdivide ins n = Some n' ->
  bodies n' = [] /\
  exists below' e,
    Forall2 counted below' (children n') /\
    Permutation (concat below' ++ e) (bodies n ++ concat below).
Proof.
  intros Hall H. unfold subdivide in H.
  apply (move_bodies_counted _ _ _
           (below ++ map (fun _ => [])
                         (new_children (center n) (halfSize n)))) in H.
  - destruct H as (Hb & below' & e & H1 & P). cbn [bodies] in Hb.
    split; [exact Hb|]. exists below', e. split; [exact H1|].
    rewrite P, concat_app, concat_no_bodies, app_nil_r. reflexivity.
  - cbn [children]. apply Forall2_app; [exact Hall|].
    apply new_children_counted.
Qed.

End Counted.

Lemma insert_counted fuel : forall l n b n',
  counted l n -> insert fuel n b = Some n' -> counted (l ++ [b]) n'.
Proof.
  induction fuel as [|f IH]; intros l n b n' Hn H; [discriminate|].
  pose proof (double_insert_mass _ _ _ _ H) as (Hm & _).
  inversion Hn as [c h m cm leaf bs cs ? below here Hl Hcs Hp]; subst.
  cbn [mass] in Hm.
  assert (Hfin : exists below' here',
             Forall2 counted below' (children n') /\
             Permutation (bodies n' ++ concat below' ++ here') (b :: l)).
  { cbn [insert] in H.
    match type of H with (bind ?m _ = _) => destruct m as [n1|] eqn:E1 end;
      cbn [bind] in H; [|discriminate].
    assert (G1 : exists below1 here1,
               Forall2 counted below1 (children n1) /\
               Permutation (bodies n1 ++ concat below1 ++ here1) (b :: l)).
    { cbn [isLeaf center halfSize mass com bodies children] in E1.
      destruct (negb leaf).
      - destruct (_insertIntoChild_counted
                    (insert f) IH
                    (mkNode c h (running_mass l) cm leaf bs cs) b n1 below
                    Hcs E1)
          as (Hb & below1 & e1 & H1 & P1).
        cbn [bodies] in Hb. exists below1, (e1 ++ here).
        split; [exact H1|]. rewrite Hb, app_assoc, app_assoc.
        rewrite <- (app_assoc bs), P1, Hp. cbn [app].
        rewrite <- app_assoc. cbn [app].
        symmetry. apply Permutation_middle.
      - match type of E1 with (if ?c then _ else _) = _ => destruct c end.
        + destruct (subdivide_counted
                      (insert f) IH
                      (mkNode c h (running_mass l) cm leaf (bs ++ [b]) cs)
                      n1 below Hcs E1)
            as (Hb & below1 & e1 & H1 & P1).
          cbn [bodies] in P1. exists below1, (e1 ++ here).
          split; [exact H1|]. rewrite Hb. cbn [app].
          rewrite app_assoc, P1, Hp. repeat rewrite <- app_assoc.
          cbn [app]. symmetry. apply Permutation_middle.
        + inversion E1; subst. cbn [bodies children].
          exists below, here. split; [exact Hcs|].
          rewrite Hp, <- app_assoc. cbn [app].
          symmetry. apply Permutation_middle. }
    destruct G1 as (below1 & here1 & H1 & P1).
    match type of H with (if ?c then _ else _) = _ => destruct c end.
    - assert (Hc2 : Forall2 counted below1
                            (children (updateMassDistribution n1 b)))
        by (destruct n1; exact H1).
      destruct (subdivide_counted (insert f) IH
                                  (updateMassDistribution n1 b) n' below1
                                  Hc2 H)
        as (Hb & below2 & e2 & H2 & P2).
      exists below2, (e2 ++ here1). split; [exact H2|].
      rewrite Hb. cbn [app]. rewrite app_assoc, P2, <- P1.
      assert (Eb : bodies (updateMassDistribution n1 b) = bodies n1)
        by (destruct n1; reflexivity).
      rewrite Eb. now rewrite <- app_assoc.
    - inversion H; subst. exists below1, here1.
      assert (Eb : bodies (updateMassDistribution n1 b) = bodies n1)
        by (destruct n1; reflexivity).
      assert (Ec : children (updateMassDistribution n1 b) = children n1)
        by (destruct n1; reflexivity).
      rewrite Eb, Ec. auto. }
  destruct Hfin as (below' & here' & H1 & P1).
  destruct n' as [c' h' m' cm' leaf' bs' cs'].
  cbn [mass bodies children] in *.
  apply (counted_intro _ _ _ _ _ _ _ _ below' here').
  - now rewrite running_mass_last, Hm.
  - exact H1.
  - rewrite P1. symmetry. apply Permutation_cons_append.
Qed.

Lemma insert_all_counted fuel bs : forall l t t',
  counted l (root t) -> insert_all fuel t bs = Some t' ->
  counted (l ++ bs) (root t').
Proof.
  induction bs as [|b bs IH]; intros l t t' Ht H; cbn [insert_all] in H.
  - inversion H; subst. now rewrite app_nil_r.
  - unfold Octree_insert in H.
    destruct (insert fuel (root t) b) as [r|] eqn:E; cbn [bind] in H;
      [|discriminate].
    replace (l ++ b :: bs) with ((l ++ [b]) ++ bs)
      by (now rewrite <- app_assoc).
    eapply IH; [|exact H]. cbn [root]. eapply insert_counted; eauto.
Qed.

Lemma rebuild_counted fuel t bs t' :
  rebuild fuel t bs = Some t' -> counted bs (root t').
Proof.
  unfold rebuild. intro H.
  apply (insert_all_counted fuel bs [] (clear t) t'); [|exact H].
  cbn [clear root new_OctreeNode].
  apply (counted_intro _ _ _ _ _ _ _ _ [] []);
    [reflexivity|constructor|reflexivity].
Qed.

Lemma double_OctreeNode_ind (P : OctreeNode -> Prop) :
  (forall c h m cm leaf bs cs,
      Forall P cs -> P (mkNode c h m cm leaf bs cs)) ->
  forall n, P n.
Proof.
  intro H. fix IH 1. intros [c h m cm leaf bs cs]. apply H.
  induction cs as [|k cs IHcs]; constructor; [apply IH | exact IHcs].
Qed.

(** The bodies that arrived at a node: those stored in its subtree, and
    bodies that were dropped. *)
Lemma counted_stored n : forall l,
  counted l n ->
  exists dropped, Permutation l (subtree_bodies n ++ dropped).
Proof.
  induction n as [c h m cm leaf bs cs IH] using double_OctreeNode_ind.
  intros l Hn. inversion Hn as [? ? ? ? ? ? ? ? below here Hl Hcs Hp]; subst.
  assert (Hbelow : exists d,
             Permutation (concat below) (flat_map subtree_bodies cs ++ d)).
  { clear Hp Hn. revert IH. induction Hcs as [|l0 k below cs Hk Hcs IHcs];
      intro IH.
    - exists []. reflexivity.
    - inversion IH as [|? ? IHk IHrest]; subst.
      destruct (IHk _ Hk) as (d1 & P1).
      destruct (IHcs IHrest) as (d2 & P2).
      exists (d1 ++ d2). cbn [concat flat_map]. rewrite P1, P2.
      repeat rewrite <- app_assoc. apply Permutation_app_head.
      rewrite app_assoc, app_assoc.
      apply Permutation_app_tail. apply Permutation_app_comm. }
  destruct Hbelow as (d & Pd).
  exists (d ++ here). cbn [subtree_bodies]. rewrite Hp, Pd.
  now repeat rewrite <- app_assoc.
Qed.

Lemma concat_member {A : Type} (l : list A) ls :
  In l ls -> exists others, Permutation (concat ls) (l ++ others).
Proof.
  induction ls as [|l0 ls IH]; intro H; [contradiction|destruct H as [H|H]].
  - subst. exists (concat ls). reflexivity.
  - destruct (IH H) as (o & Ho). exists (l0 ++ o). cbn [concat].
    rewrite Ho, app_assoc, app_assoc.
    apply Permutation_app_tail. apply Permutation_app_comm.
Qed.

(** What [counted] says of every node of the tree. *)
Lemma counted_nodes n : forall l,
  counted l n ->
  Forall (fun k =>
            exists arrived others dropped,
              mass k = fold_left (fun m b => m + Body.mass b) arrived 0 /\
              Permutation (arrived ++ others) l /\
              Permutation arrived (subtree_bodies k ++ dropped))
         (nodes n).
Proof.
  induction n as [c h m cm leaf bs cs IH] using double_OctreeNode_ind.
  intros l Hn.
  destruct (counted_stored _ _ Hn) as (d & Hd).
  inversion Hn as [? ? ? ? ? ? ? ? below here Hl Hcs Hp]; subst.
  cbn [nodes]. constructor.
  - exists l, [], d. cbn [mass]. split; [reflexivity|].
    split; [now rewrite app_nil_r|exact Hd].
  - rewrite Forall_flat_map. rewrite Forall_forall in *.
    intros k Hk.
    assert (Hlk : exists lk, In lk below /\ counted lk k).
    { clear - Hcs Hk. induction Hcs as [|l0 k0 below cs H0 Hcs IHcs];
        [contradiction|].
      destruct Hk as [Hk|Hk].
      - subst. exists l0. split; [now left|exact H0].
      - destruct (IHcs Hk) as (lk & H1 & H2). exists lk.
        split; [now right|exact H2]. }
    destruct Hlk as (lk & Hin & Hck).
    specialize (IH k Hk lk Hck). rewrite Forall_forall in IH.
    apply Forall_forall. intros k' Hk'.
    destruct (IH k' Hk') as (a & o & dr & H1 & H2 & H3).
    destruct (concat_member _ _ Hin) as (o' & Ho').
    exists a, (o ++ o' ++ bs ++ here), dr.
    split; [exact H1|]. split; [|exact H3].
    transitivity (((a ++ o) ++ o') ++ (bs ++ here));
      [now repeat rewrite <- app_assoc|].
    rewrite H2, <- Ho', Hp, app_assoc.
    rewrite (Permutation_app_comm (concat below) bs).
    now rewrite <- app_assoc.
Qed.

(** *** A body that no child region contains, down the tree *)

Lemma double_contains_geom a b p :
  geom a = geom b -> contains a p = contains b p.
Proof.
  unfold geom. intro H. inversion H as [[Hc Hh]].
  unfold contains. now rewrite Hc, Hh.
Qed.

Lemma double_insert_first_homeless f b cs :
  Forall (fun k => homeless (Body.position b) k = true ->
                   (height k <= f)%nat ->
                   insert f k b = Some (credit b k)) cs ->
  first_containing (homeless (Body.position b)) true (Body.position b) cs
  = true ->
  (fold_right (fun child acc => Nat.max (height child) acc) 0%nat cs
   <= f)%nat ->
  insert_first (insert f) cs b
  = Some (replace_first (credit b) (Body.position b) cs).
Proof.
  induction cs as [|k cs IH]; intros Hall Hh Hf; cbn [insert_first].
  - reflexivity.
  - inversion Hall as [|? ? Hk Hcs]; subst.
    cbn [first_containing replace_first fold_right] in *.
    destruct (contains k (Body.position b)).
    + rewrite Hk; auto. lia.
    + rewrite IH; auto. lia.
Qed.

Lemma double_insert_homeless b n : forall fuel,
  homeless (Body.position b) n = true -> (height n <= fuel)%nat ->
  insert fuel n b = Some (credit b n).
Proof.
  induction n as [c h m cm leaf bs cs IH] using double_OctreeNode_ind.
  intros fuel Hh Hf. cbn [homeless height] in Hh, Hf.
  apply andb_true_iff in Hh. destruct Hh as [Hl Hh].
  apply negb_true_iff in Hl. subst leaf.
  destruct fuel as [|f]; [lia|].
  cbn [insert isLeaf negb]. unfold _insertIntoChild.
  cbn [children center halfSize mass com isLeaf bodies].
  assert (E : insert_first (insert f) cs b
              = Some (replace_first (credit b) (Body.position b) cs)).
  { apply double_insert_first_homeless; [|exact Hh|lia].
    eapply Forall_impl; [|exact IH]. intros k Hk H1 H2. now apply Hk. }
  rewrite E. reflexivity.
Qed.

Lemma double_replace_first_bodies b cs :
  Forall (fun k => subtree_bodies (credit b k) = subtree_bodies k) cs ->
  flat_map subtree_bodies (replace_first (credit b) (Body.position b) cs)
  = flat_map subtree_bodies cs.
Proof.
  induction cs as [|k cs IH]; intro Hall; cbn [replace_first]; auto.
  inversion Hall as [|? ? Hk Hcs]; subst.
  destruct (contains k (Body.position b)); cbn [flat_map].
  - now rewrite Hk.
  - now rewrite IH.
Qed.

Lemma double_credit_bodies b n :
  subtree_bodies (credit b n) = subtree_bodies n.
Proof.
  induction n as [c h m cm leaf bs cs IH] using double_OctreeNode_ind.
  cbn [credit updateMassDistribution subtree_bodies bodies children].
  now rewrite double_replace_first_bodies.
Qed.

Section Path.
Variables (A : Type) (f : OctreeNode -> A) (g : OctreeNode -> A).
Variable b : Body.body.

Lemma path_replace_first cs :
Forall (fun k => map f (path (Body.position b) (credit b k))
                 = map g (path (Body.position b) k)) cs ->
map f (first_containing (path (Body.position b)) [] (Body.position b)
         (replace_first (credit b) (Body.position b) cs))
= map g (first_containing (path (Body.position b)) [] (Body.position b)
           cs).
Proof.
induction cs as [|k cs IHcs]; intro IH;
  cbn [replace_first first_containing]; auto.
inversion IH as [|? ? Hk Hcs]; subst.
destruct (contains k (Body.position b)) eqn:Ek.
- cbn [first_containing].
  assert (Eg : contains (credit b k) (Body.position b) = true).
  { rewrite <- Ek. apply double_contains_geom. destruct k; reflexivity. }
  rewrite Eg. exact Hk.
- cbn [first_containing]. rewrite Ek. now apply IHcs.
Qed.
End Path.

Lemma double_path_credit b n :
  map aggregates (path (Body.position b) (credit b n))
  = map (fun k => aggregates (updateMassDistribution k b))
        (path (Body.position b) n).
Proof.
  induction n as [c h m cm leaf bs cs IH] using double_OctreeNode_ind.
  cbn [credit]. unfold updateMassDistribution at 1.
  cbn [path map children center halfSize mass com isLeaf bodies]. f_equal.
  now apply path_replace_first.
Qed.

Lemma double_path_credit_geom b n :
  map geom (path (Body.position b) (credit b n))
  = map geom (path (Body.position b) n).
Proof.
  induction n as [c h m cm leaf bs cs IH] using double_OctreeNode_ind.
  cbn [credit]. unfold updateMassDistribution at 1.
  cbn [path map children center halfSize mass com isLeaf bodies]. f_equal.
  now apply path_replace_first.
Qed.

End DoubleFacts.

(** * The claims *)

Import Samples.
Local Open Scope num_scope.

(** ** C1: what a node contributes to the force *)




(** ** C2: conservation of mass *)




(** ** C3: termination of insertion *)




(** ** C4: a ceiling on the force *)

(** C4, counterexample.  No ceiling bounds the force that the walk of
    [octree.js] returns: whatever [C], the force on a unit mass at unit
    distance of a mass [C*C + 1] is larger. *)
Lemma no_force_ceiling :
  ~ (exists C : Q,
        forall bs b t,
          Bucket.rebuild 1 world bs = Some t ->
          (norm2 (Bucket.calculateGravity sqrt_floor t b (Fin 0.5))
           <=? Fin (C * C)) = true).
Proof.
  intros (C & H).
  destruct (SampleFacts.heavy_force_exceeds C) as (t & Ht & Hf).
  rewrite (H _ probe _ Ht) in Hf. discriminate.
Qed.

(** C4, amended.  The walk applies no ceiling to the force: for every
    [C] there are a tree and a target body for which the squared
    magnitude of the returned force exceeds [C*C]. *)
Theorem force_exceeds_every_ceiling :
  forall C : Q,
  exists bs b t,
    Bucket.rebuild 1 world bs = Some t /\
    (norm2 (Bucket.calculateGravity sqrt_floor t b (Fin 0.5))
     <=? Fin (C * C)) = false.
Proof.
  intro C. destruct (SampleFacts.heavy_force_exceeds C) as (t & Ht & Hf).
  exists [heavy (C * C + 1); probe], probe, t. auto.
Qed.

(** ** C5: bodies that are not valid *)




(** ** C6: no force of a body on itself *)

(** C6.  The force of a body against a tree that holds only that body is
    the zero vector, in both octrees.  In [OctreeNode.js] a node of mass
    0 and a leaf whose occupant is the target leave the force as it is;
    in [octree.js] so do a leaf whose sole occupant is the target and, in
    a tree built from bodies of positive mass, every node of mass 0. *)
Theorem zero_self_force (sqrtQ : Q -> Q) :
  (forall fuel t b theta t',
      Bucket.rebuild fuel t [b] = Some t' ->
      Bucket.calculateGravity sqrtQ t' b theta = Vec3.zero) /\
  (forall fuel n b theta G n',
      Strict.rebuild fuel n [b] = Some n' ->
      Strict.calculateForcesOnBody sqrtQ n' b theta Vec3.zero G = Vec3.zero) /\
  (forall n b theta force G,
      (Strict.mass n === JS.zero) = true ->
      Strict.calculateForcesOnBody sqrtQ n b theta force G = force) /\
  (forall n b theta force G,
      Strict.body n = Some b ->
      Strict.calculateForcesOnBody sqrtQ n b theta force G = force) /\
  (forall G n b theta force,
      Bucket.isLeaf n = true -> Bucket.bodies n = [b] ->
      Bucket._calculateGravity sqrtQ G n b theta force = force) /\
  (forall fuel t bs t' k G b theta force,
      Forall (fun a => positive (Body.mass a)) bs ->
      Bucket.rebuild fuel t bs = Some t' ->
      In k (Bucket.nodes (Bucket.root t')) ->
      Bucket.mass k =n= JS.zero ->
      Bucket._calculateGravity sqrtQ G k b theta force = force).
Proof.
  repeat apply conj.
  - intros. eapply BucketFacts.walk_single_body; eauto.
  - intros. eapply StrictFacts.strict_walk_single_body; eauto.
  - intros. now apply StrictFacts.walk_no_mass.
  - intros. now apply StrictFacts.walk_own_leaf.
  - intros. now apply BucketFacts.walk_sole_occupant.
  - intros fuel t bs t' k G b theta force Hbs H Hk Hm.
    apply BucketFacts.walk_massless; auto.
    pose proof (BucketFacts.weighty_nodes _
                  (BucketFacts.rebuild_weighty _ _ _ _ Hbs H)) as Hall.
    rewrite Forall_forall in Hall. now apply Hall.
Qed.

Lemma zero_self_force_witness :
  (exists t',
      Bucket.rebuild 1 world [bodyA] = Some t' /\
      Bucket.calculateGravity sqrt_floor t' bodyA (Fin 0.5) = Vec3.zero) /\
  (exists n',
      Strict.rebuild 1 sroot [bodyA] = Some n' /\
      Strict.calculateForcesOnBody sqrt_floor n' bodyA (Fin 0.5) Vec3.zero
                                   (Fin 1) = Vec3.zero) /\
  (exists t' k,
      Forall (fun a => positive (Body.mass a)) crowd /\
      Bucket.rebuild 3 world crowd = Some t' /\
      In k (Bucket.nodes (Bucket.root t')) /\
      Bucket.mass k =n= JS.zero /\
      Bucket._calculateGravity sqrt_floor (Fin 1) k bodyA (Fin 0.5) Vec3.zero
      = Vec3.zero).
Proof.
  split; [|split].
  - eexists. split; [vm_compute; reflexivity|].
    apply (proj1 (zero_self_force sqrt_floor) 1%nat world bodyA).
    vm_compute; reflexivity.
  - eexists. split; [vm_compute; reflexivity|].
    apply (proj1 (proj2 (zero_self_force sqrt_floor)) 1%nat sroot bodyA).
    vm_compute; reflexivity.
  - assert (Hpos : Forall (fun a => positive (Body.mass a)) crowd)
      by (repeat constructor).
    eexists.
    exists (Bucket.new_OctreeNode (v3 (-500 # 20) (-500 # 20) (-500 # 20))
                                  (Fin (500 # 20))).
    split; [exact Hpos|].
    split; [vm_compute; reflexivity|].
    match goal with
    | |- In ?k ?l /\ _ =>
        assert (Hin : In k l) by (vm_compute; right; left; reflexivity)
    end.
    split; [exact Hin|]. split; [reflexivity|].
    eapply (proj2 (proj2 (proj2 (proj2 (proj2 (zero_self_force sqrt_floor))))))
      with (fuel := 3%nat) (t := world) (bs := crowd);
      [exact Hpos | vm_compute; reflexivity | exact Hin | reflexivity].
Defined.

(** ** C7: degenerate distances *)




(** ** C8: the children of a subdivided leaf *)

(** C8, the defect.  [subdivide] of [OctreeNode.js] on the node of centre
    (0,0,0) and half extent 8 builds eight children of half extent 4
    whose centres are at 2 from the centre on each axis, a quarter of the
    half extent and not the half of it: the last child is centred at
    (2,2,2), and the point (7,7,7) of the region of the node lies in the
    region of no child.  The child that [insert] builds for an empty
    slot of the same node is centred at (4,4,4). *)
Theorem subdivide_quarter_offsets :
  length (Strict.children (Strict.subdivide cube)) = 8%nat /\
  (exists child,
      Strict.get_child (Strict.subdivide cube) 7 = Some child /\
      vec_eqb (Strict.center child) (v3 2 2 2) = true /\
      vec_eqb (Strict.halfDimension child) (v3 4 4 4) = true) /\
  Strict.in_region (Strict.center cube) (Strict.halfDimension cube) corner
  = true /\
  forallb (fun child =>
             match child with
             | Some c => negb (Strict.in_region (Strict.center c)
                                                (Strict.halfDimension c)
                                                corner)
             | None => true
             end) (Strict.children (Strict.subdivide cube)) = true /\
  vec_eqb (Strict.center (Strict.insert_child cube 7)) (v3 4 4 4) = true /\
  vec_eqb (Strict.halfDimension (Strict.insert_child cube 7)) (v3 4 4 4)
  = true.
Proof.
  split; [reflexivity|]. split.
  - eexists. split; [reflexivity|]. split; vm_compute; reflexivity.
  - repeat split; vm_compute; reflexivity.
Qed.

(** ** C9: rebuilding twice *)

(** C9.  A rebuild that completes, repeated with the same bodies,
    completes again and yields the same tree, hence the same mass and
    centre of mass of the root: in [octree.js] for every tree, in
    [OctreeNode.js] for a root with its eight slots. *)
Theorem rebuild_twice :
  (forall fuel t bs t1,
      Bucket.rebuild fuel t bs = Some t1 ->
      exists t2,
        Bucket.rebuild fuel t1 bs = Some t2 /\
        Bucket.aggregates (Bucket.root t2)
        = Bucket.aggregates (Bucket.root t1) /\
        t2 = t1) /\
  (forall fuel n bs n1,
      length (Strict.children n) = 8%nat ->
      Strict.rebuild fuel n bs = Some n1 ->
      exists n2,
        Strict.rebuild fuel n1 bs = Some n2 /\
        Strict.mass n2 = Strict.mass n1 /\
        Strict.centerOfMass n2 = Strict.centerOfMass n1 /\
        n2 = n1).
Proof.
  split.
  - intros fuel t bs t1 H. exists t1.
    split; [eapply BucketFacts.rebuild_again; eauto|auto].
  - intros fuel n bs n1 Hlen H. exists n1.
    split; [eapply StrictFacts.strict_rebuild_again; eauto|auto].
Qed.

Lemma rebuild_twice_witness :
  (exists t1 t2,
      Bucket.rebuild 3 world crowd = Some t1 /\
      Bucket.rebuild 3 t1 crowd = Some t2 /\
      Bucket.aggregates (Bucket.root t2)
      = Bucket.aggregates (Bucket.root t1)) /\
  (exists n1 n2,
      length (Strict.children sroot) = 8%nat /\
      Strict.rebuild 3 sroot [bodyA; bodyB] = Some n1 /\
      Strict.rebuild 3 n1 [bodyA; bodyB] = Some n2 /\
      Strict.mass n2 = Strict.mass n1 /\
      Strict.centerOfMass n2 = Strict.centerOfMass n1).
Proof.
  split.
  - destruct (Bucket.rebuild 3 world crowd) as [t1|] eqn:E;
      [|vm_compute in E; discriminate].
    destruct (proj1 rebuild_twice 3%nat world crowd t1 E)
      as (t2 & H1 & H2 & _).
    exists t1, t2. auto.
  - destruct (Strict.rebuild 3 sroot [bodyA; bodyB]) as [n1|] eqn:E;
      [|vm_compute in E; discriminate].
    destruct (proj2 rebuild_twice 3%nat sroot [bodyA; bodyB] n1 eq_refl E)
      as (n2 & H1 & H2 & H3 & _).
    exists n1, n2. auto.
Defined.

(** ** C10: a body that no child region contains *)

(** C10.  In [octree.js], on doubles, when [insert] reaches an internal
    node none of whose children contains the position of the body, it
    returns: the node keeps its region, its bodies and its children, its
    mass has grown by the mass of the body, and each coordinate of its
    centre of mass has become
    [(com * mass + position * body.mass) / (mass + body.mass)].  So for
    every node on the insertion path, from the node that received the
    body down to the one without a child for it, while the tree stores
    the same bodies as before. *)
Theorem homeless_body_is_counted :
  (forall fuel n b,
      Double.Bucket.isLeaf n = false ->
      forallb (fun child =>
                 negb (Double.Bucket.contains child (Double.Body.position b)))
              (Double.Bucket.children n) = true ->
      Double.Bucket.insert (S fuel) n b =
      Some (Double.Bucket.mkNode
              (Double.Bucket.center n) (Double.Bucket.halfSize n)
              (Double.Bucket.mass n + Double.Body.mass b)%float
              (Double.Vec3.mk
                 ((Double.Vec3.x (Double.Bucket.com n) * Double.Bucket.mass n
                   + Double.Vec3.x (Double.Body.position b)
                     * Double.Body.mass b)
                  / (Double.Bucket.mass n + Double.Body.mass b))%float
                 ((Double.Vec3.y (Double.Bucket.com n) * Double.Bucket.mass n
                   + Double.Vec3.y (Double.Body.position b)
                     * Double.Body.mass b)
                  / (Double.Bucket.mass n + Double.Body.mass b))%float
                 ((Double.Vec3.z (Double.Bucket.com n) * Double.Bucket.mass n
                   + Double.Vec3.z (Double.Body.position b)
                     * Double.Body.mass b)
                  / (Double.Bucket.mass n + Double.Body.mass b))%float)
              false (Double.Bucket.bodies n) (Double.Bucket.children n))) /\
  (forall fuel n b,
      Double.Bucket.homeless (Double.Body.position b) n = true ->
      (Double.Bucket.height n <= fuel)%nat ->
      exists n',
        Double.Bucket.insert fuel n b = Some n' /\
        Double.Bucket.subtree_bodies n' = Double.Bucket.subtree_bodies n /\
        map Double.Bucket.geom
            (Double.Bucket.path (Double.Body.position b) n')
        = map Double.Bucket.geom
              (Double.Bucket.path (Double.Body.position b) n) /\
        map Double.Bucket.aggregates
            (Double.Bucket.path (Double.Body.position b) n')
        = map (fun k =>
                 ((Double.Bucket.mass k + Double.Body.mass b)%float,
                  Double.Vec3.mk
                    ((Double.Vec3.x (Double.Bucket.com k)
                      * Double.Bucket.mass k
                      + Double.Vec3.x (Double.Body.position b)
                        * Double.Body.mass b)
                     / (Double.Bucket.mass k + Double.Body.mass b))%float
                    ((Double.Vec3.y (Double.Bucket.com k)
                      * Double.Bucket.mass k
                      + Double.Vec3.y (Double.Body.position b)
                        * Double.Body.mass b)
                     / (Double.Bucket.mass k + Double.Body.mass b))%float
                    ((Double.Vec3.z (Double.Bucket.com k)
                      * Double.Bucket.mass k
                      + Double.Vec3.z (Double.Body.position b)
                        * Double.Body.mass b)
                     / (Double.Bucket.mass k + Double.Body.mass b))%float))
              (Double.Bucket.path (Double.Body.position b) n)).
Proof.
  split.
  - intros fuel n b Hl Hnone.
    rewrite DoubleFacts.insert_internal_nowhere by assumption.
    destruct n as [c h m cm leaf bs cs]. cbn [Double.Bucket.isLeaf] in Hl.
    subst. reflexivity.
  - intros fuel n b Hh Hf. exists (Double.Bucket.credit b n).
    split; [now apply DoubleFacts.double_insert_homeless|].
    split; [apply DoubleFacts.double_credit_bodies|].
    split; [apply DoubleFacts.double_path_credit_geom|].
    rewrite DoubleFacts.double_path_credit. apply map_ext.
    intro k. reflexivity.
Qed.

Lemma homeless_body_is_counted_witness :
  (exists t n',
      Double.Bucket.rebuild 2 Double.Samples.world Double.Samples.crowd
      = Some t /\
      Double.Bucket.isLeaf (Double.Bucket.root t) = false /\
      forallb (fun child =>
                 negb (Double.Bucket.contains
                         child (Double.Body.position Double.Samples.far)))
              (Double.Bucket.children (Double.Bucket.root t)) = true /\
      Double.Bucket.aggregates (Double.Bucket.root t)
      = (11%float, Double.Vec3.mk 0 8 (-16)) /\
      Double.Bucket.insert 1 (Double.Bucket.root t) Double.Samples.far
      = Some n' /\
      Double.Bucket.subtree_bodies n'
      = Double.Bucket.subtree_bodies (Double.Bucket.root t) /\
      Double.Bucket.aggregates n'
      = (12%float, Double.Vec3.mk (1000 / 12) 8 (-16))) /\
  (exists t n',
      Double.Bucket.rebuild 60 Double.Samples.world
        Double.Samples.eleven_twins = Some t /\
      Double.Bucket.homeless
        (Double.Body.position (Double.Samples.twin 12)) (Double.Bucket.root t)
      = true /\
      (Double.Bucket.height (Double.Bucket.root t) <= 61)%nat /\
      map Double.Bucket.aggregates
          (Double.Bucket.path (Double.Body.position (Double.Samples.twin 12))
                              (Double.Bucket.root t))
      = repeat (11%float, Double.Vec3.mk 1 1 1) 60 /\
      Double.Bucket.insert 61 (Double.Bucket.root t) (Double.Samples.twin 12)
      = Some n' /\
      Double.Bucket.subtree_bodies n' = [] /\
      map Double.Bucket.aggregates
          (Double.Bucket.path (Double.Body.position (Double.Samples.twin 12))
                              n')
      = repeat (12%float, Double.Vec3.mk 1 1 1) 60).
Proof.
  split.
  - assert (H0 : option_map
                   (fun t =>
                      (Double.Bucket.isLeaf (Double.Bucket.root t),
                       forallb
                         (fun child =>
                            negb (Double.Bucket.contains
                                    child
                                    (Double.Body.position
                                       Double.Samples.far)))
                         (Double.Bucket.children (Double.Bucket.root t)),
                       Double.Bucket.aggregates (Double.Bucket.root t)))
                   (Double.Bucket.rebuild 2 Double.Samples.world
                      Double.Samples.crowd)
                 = Some (false, true,
                         (11%float, Double.Vec3.mk 0 8 (-16))))
      by (vm_compute; reflexivity).
    destruct (Double.Bucket.rebuild 2 Double.Samples.world
                Double.Samples.crowd) as [t|] eqn:E;
      [|discriminate H0].
    cbn [option_map] in H0.
    assert (Hl : Double.Bucket.isLeaf (Double.Bucket.root t) = false)
      by congruence.
    assert (Hn : forallb
                   (fun child =>
                      negb (Double.Bucket.contains
                              child
                              (Double.Body.position Double.Samples.far)))
                   (Double.Bucket.children (Double.Bucket.root t)) = true)
      by congruence.
    assert (Ha : Double.Bucket.aggregates (Double.Bucket.root t)
                 = (11%float, Double.Vec3.mk 0 8 (-16)))
      by congruence.
    clear H0.
    pose proof (proj1 homeless_body_is_counted 0%nat (Double.Bucket.root t)
                      Double.Samples.far Hl Hn) as H1.
    eexists t, _. split; [reflexivity|]. split; [exact Hl|].
    split; [exact Hn|]. split; [exact Ha|]. split; [exact H1|].
    unfold Double.Bucket.aggregates in Ha |- *.
    cbn [Double.Bucket.subtree_bodies Double.Bucket.mass Double.Bucket.com].
    split.
    + destruct (Double.Bucket.root t) as [c h m cm leaf bs cs]. reflexivity.
    + assert (Hm : Double.Bucket.mass (Double.Bucket.root t) = 11%float)
        by congruence.
      assert (Hc : Double.Bucket.com (Double.Bucket.root t)
                   = Double.Vec3.mk 0 8 (-16)) by congruence.
      rewrite Hm, Hc. vm_compute. reflexivity.
  - set (b := Double.Samples.twin 12).
    assert (H0 : option_map
                   (fun t =>
                      (Double.Bucket.homeless (Double.Body.position b)
                                              (Double.Bucket.root t),
                       Nat.leb (Double.Bucket.height (Double.Bucket.root t))
                               61,
                       map Double.Bucket.aggregates
                           (Double.Bucket.path (Double.Body.position b)
                                               (Double.Bucket.root t)),
                       Double.Bucket.subtree_bodies (Double.Bucket.root t)))
                   (Double.Bucket.rebuild 60 Double.Samples.world
                      Double.Samples.eleven_twins)
                 = Some (true, true,
                         repeat (11%float, Double.Vec3.mk 1 1 1) 60, []))
      by (vm_compute; reflexivity).
    destruct (Double.Bucket.rebuild 60 Double.Samples.world
                Double.Samples.eleven_twins) as [t|] eqn:E;
      [|discriminate H0].
    cbn [option_map] in H0.
    assert (Hh : Double.Bucket.homeless (Double.Body.position b)
                                        (Double.Bucket.root t) = true)
      by congruence.
    assert (Hf : (Double.Bucket.height (Double.Bucket.root t) <= 61)%nat)
      by (apply Nat.leb_le; congruence).
    assert (Hp : map Double.Bucket.aggregates
                     (Double.Bucket.path (Double.Body.position b)
                                         (Double.Bucket.root t))
                 = repeat (11%float, Double.Vec3.mk 1 1 1) 60)
      by congruence.
    assert (Hs : Double.Bucket.subtree_bodies (Double.Bucket.root t) = [])
      by congruence.
    clear H0.
    destruct (proj2 homeless_body_is_counted 61%nat (Double.Bucket.root t) b
                    Hh Hf) as (n' & H1 & H2 & _ & H4).
    exists t, n'. split; [reflexivity|]. split; [exact Hh|].
    split; [exact Hf|]. split; [exact Hp|].
    split; [exact H1|]. split; [now rewrite H2|].
    rewrite H4.
    transitivity
      (map (fun a : float * Double.Vec3.vec3 =>
              ((fst a + Double.Body.mass b)%float,
               Double.Vec3.mk
                 ((Double.Vec3.x (snd a) * fst a
                   + Double.Vec3.x (Double.Body.position b)
                     * Double.Body.mass b)
                  / (fst a + Double.Body.mass b))%float
                 ((Double.Vec3.y (snd a) * fst a
                   + Double.Vec3.y (Double.Body.position b)
                     * Double.Body.mass b)
                  / (fst a + Double.Body.mass b))%float
                 ((Double.Vec3.z (snd a) * fst a
                   + Double.Vec3.z (Double.Body.position b)
                     * Double.Body.mass b)
                  / (fst a + Double.Body.mass b))%float))
           (map Double.Bucket.aggregates
                (Double.Bucket.path (Double.Body.position b)
                                    (Double.Bucket.root t)))).
    + rewrite map_map. apply map_ext. intro k. reflexivity.
    + rewrite Hp. vm_compute. reflexivity.
Defined.

(** * Further properties *)

(** ** The bucketed octree: storage, shape and maintenance *)

Module BucketExtra.
Import Bucket BucketFacts Samples.
Local Open Scope num_scope.

(** *** The children lie in the region of their parent *)

Lemma axis_inside (c h : Q) (s : Q) (p : num) :
  s = (-1)%Q \/ s = 1%Q ->
  axis_in (Fin c + Fin s * (Fin h * Fin 0.5)) (Fin h * Fin 0.5) p = true ->
  axis_in (Fin c) (Fin h) p = true.
Proof.
  unfold axis_in, nge, nadd, nsub, nmul.
  destruct p as [q| | |]; simpl; try discriminate;
    try (rewrite andb_false_r; discriminate).
  rewrite !andb_true_iff, !Qle_bool_iff.
  intros [-> | ->] [H1 H2]; split; lra.
Qed.

Lemma child_inside c h child p :
  Vec3.finite c -> JS.finite h ->
  In child (new_children c h) ->
  contains child p = true -> contains (new_OctreeNode c h) p = true.
Proof.
  intros (Hx & Hy & Hz) Hh.
  destruct c as [cx cy cz]; simpl in Hx, Hy, Hz.
  destruct cx as [cx| | |], cy as [cy| | |], cz as [cz| | |]; try contradiction.
  destruct h as [h| | |]; try contradiction.
  unfold new_children, octant_signs. cbn [flat_map map app].
  intros Hin. rewrite !contains_axes.
  cbn [center halfSize new_OctreeNode Vec3.x Vec3.y Vec3.z].
  repeat (destruct Hin as [<- | Hin];
          [cbn [center halfSize new_OctreeNode childCenter
                Vec3.x Vec3.y Vec3.z];
           rewrite !andb_true_iff; intros [[Ax Ay] Az];
           apply axis_inside in Ax, Ay, Az; auto;
           now rewrite Ax, Ay, Az|]).
  contradiction.
Qed.

(** *** Insertion stores the body and keeps the shape *)

Section ShapeStep.
Variable ins : OctreeNode -> body -> option OctreeNode.
Hypothesis Hins : ins_shape ins.

Lemma insert_first_shape cs b cs' :
  Forall shape cs ->
  existsb (fun child => contains child (Body.position b)) cs = true ->
  insert_first ins cs b = Some cs' ->
  Forall shape cs' /\ map geom cs' = map geom cs /\
  Permutation (flat_map subtree_bodies cs')
              (b :: flat_map subtree_bodies cs).
Proof.
  revert cs'. induction cs as [|c cs IH]; simpl; intros cs' Hall Hex H.
  - discriminate.
  - inversion Hall as [|? ? Hc Hcs]; subst.
    destruct (contains c (Body.position b)) eqn:Ec.
    + destruct (ins c b) as [c'|] eqn:E; simpl in H; inversion H; subst.
      destruct (Hins _ _ _ Hc Ec E) as (Hc' & Hg & HP).
      split; [constructor; assumption|]. split; [simpl; now rewrite Hg|].
      simpl. rewrite HP. reflexivity.
    + simpl in Hex.
      destruct (insert_first ins cs b) as [r|] eqn:E; simpl in H;
        inversion H; subst.
      destruct (IH _ Hcs Hex eq_refl) as (Hr & Hg & HP).
      split; [constructor; assumption|]. split; [simpl; now rewrite Hg|].
      simpl. rewrite HP. symmetry. apply Permutation_middle.
Qed.

Lemma move_bodies_shape c h m cm bs : forall cs n',
  Vec3.finite c -> JS.finite h ->
  map geom cs = map geom (new_children c h) ->
  Forall shape cs ->
  Forall (in_bounds (new_OctreeNode c h)) bs ->
  move_bodies ins (mkNode c h m cm false [] cs) bs = Some n' ->
  exists cs',
    n' = mkNode c h m cm false [] cs' /\
    map geom cs' = map geom (new_children c h) /\
    Forall shape cs' /\
    Permutation (flat_map subtree_bodies cs')
                (bs ++ flat_map subtree_bodies cs).
Proof.
  induction bs as [|b bs IH]; intros cs n' Hc Hh Hg Hall Hin H;
    cbn [move_bodies] in H.
  - inversion H; subst. exists cs. repeat split; auto.
  - inversion Hin as [|? ? Hb Hbs]; subst.
    unfold _insertIntoChild in H.
    cbn [children center halfSize mass com isLeaf bodies] in H.
    destruct (insert_first ins cs b) as [cs1|] eqn:E; simpl in H;
      try discriminate.
    assert (Hex : existsb (fun child => contains child (Body.position b)) cs
                  = true).
    { rewrite (existsb_geom _ _ _ Hg). now apply cover. }
    destruct (insert_first_shape _ _ _ Hall Hex E) as (Hall1 & Hg1 & HP1).
    destruct (IH cs1 n' Hc Hh (eq_trans Hg1 Hg) Hall1 Hbs H)
      as (cs' & Hn' & Hg' & Hall' & HP').
    exists cs'. repeat split; auto.
    rewrite HP', HP1. simpl. symmetry. apply Permutation_middle.
Qed.
End ShapeStep.

Lemma new_children_shape c h :
  Vec3.finite c -> JS.finite h -> Forall shape (new_children c h).
Proof.
  intros (Hx & Hy & Hz) Hh.
  destruct c as [cx cy cz]; simpl in Hx, Hy, Hz.
  destruct cx, cy, cz, h; try contradiction.
  unfold new_children, octant_signs. cbn [flat_map map app].
  repeat constructor; simpl; auto with qarith.
Qed.

Lemma new_children_no_bodies c h :
  flat_map subtree_bodies (new_children c h) = [].
Proof. reflexivity. Qed.

Lemma insert_shape fuel : ins_shape (insert fuel).
Proof.
  induction fuel as [|f IH]; intros n b n' Hn Hb H; simpl in H;
    try discriminate.
  inversion Hn as [c h m cm bs Hc Hh Hin Hlen|c h m cm cs Hc Hh Hg Hall];
    subst; cbn [isLeaf negb center halfSize mass com bodies children] in H.
  - (* a leaf *)
    destruct (Nat.ltb MAX_BODIES_PER_NODE (length (bs ++ [b]))) eqn:Elen.
    + (* the bucket overflows: subdivision *)
      unfold subdivide in H at 1.
      cbn [isLeaf negb center halfSize mass com bodies children app] in H.
      match type of H with (bind ?mv _ = _) => destruct mv as [n1|] eqn:E1 end;
        simpl in H; try discriminate.
      assert (Hin' : Forall (in_bounds (new_OctreeNode c h)) (bs ++ [b])).
      { apply Forall_app; split; auto. }
      destruct (move_bodies_shape _ IH c h m cm (bs ++ [b]) _ _ Hc Hh eq_refl
                  (new_children_shape c h Hc Hh) Hin' E1)
        as (cs' & -> & Hg' & Hall' & HP').
      cbn [isLeaf andb updateMassDistribution center halfSize mass com bodies
           children] in H.
      inversion H; subst.
      unfold updateMassDistribution.
      cbn [center halfSize mass com isLeaf bodies children].
      split; [|split].
      * constructor; auto.
      * reflexivity.
      * cbn [subtree_bodies app]. rewrite HP', new_children_no_bodies.
        rewrite !app_nil_r. symmetry. apply Permutation_cons_append.
    + simpl in H.
      cbn [isLeaf andb updateMassDistribution center halfSize mass com bodies
           children] in H.
      rewrite Elen in H. simpl in H. inversion H; subst.
      unfold updateMassDistribution.
      cbn [center halfSize mass com isLeaf bodies children].
      split; [|split].
      * constructor; auto.
        -- apply Forall_app; split; auto.
        -- apply Nat.ltb_ge in Elen. exact Elen.
      * reflexivity.
      * cbn [subtree_bodies flat_map]. rewrite !app_nil_r.
        symmetry. apply Permutation_cons_append.
  - (* an internal node *)
    unfold _insertIntoChild in H.
    cbn [isLeaf negb center halfSize mass com bodies children] in H.
    destruct (insert_first (insert f) cs b) as [cs1|] eqn:E; simpl in H;
      try discriminate.
    cbn [isLeaf andb updateMassDistribution center halfSize mass com bodies
         children] in H.
    inversion H; subst.
    assert (Hex : existsb (fun child => contains child (Body.position b)) cs
                  = true).
    { rewrite (existsb_geom _ _ _ Hg). apply cover; auto. }
    destruct (insert_first_shape _ IH _ _ _ Hall Hex E) as (Hall1 & Hg1 & HP1).
    unfold updateMassDistribution.
    cbn [center halfSize mass com isLeaf bodies children].
    split; [|split].
    + constructor; auto. now rewrite Hg1.
    + reflexivity.
    + cbn [subtree_bodies app]. exact HP1.
Qed.

Lemma new_OctreeNode_shape c h :
  Vec3.finite c -> JS.finite h -> shape (new_OctreeNode c h).
Proof.
  intros Hc Hh. constructor; auto. simpl. unfold MAX_BODIES_PER_NODE. lia.
Qed.

Lemma insert_all_shape fuel bs : forall t t',
  shape (root t) -> Forall (in_bounds (root t)) bs ->
  insert_all fuel t bs = Some t' ->
  shape (root t') /\ geom (root t') = geom (root t) /\
  Permutation (subtree_bodies (root t')) (rev bs ++ subtree_bodies (root t)).
Proof.
  induction bs as [|b bs IH]; intros t t' Ht Hin H; cbn [insert_all] in H.
  - inversion H; subst. repeat split; auto.
  - inversion Hin as [|? ? Hb Hbs]; subst.
    unfold Octree_insert in H.
    destruct (insert fuel (root t) b) as [r|] eqn:E; simpl in H;
      try discriminate.
    destruct (insert_shape fuel _ _ _ Ht Hb E) as (Hr & Hg & HP).
    assert (Hbs' : Forall (in_bounds (root (mkOctree (gravityConstant t) r)))
                          bs).
    { eapply Forall_impl; [|exact Hbs]. intros a Ha. unfold in_bounds in *.
      cbn [root]. now rewrite (contains_geom _ _ _ Hg). }
    destruct (IH (mkOctree (gravityConstant t) r) _ Hr Hbs' H)
      as (H1 & H2 & H3).
    cbn [root] in *. repeat split; auto.
    + now rewrite H2.
    + rewrite H3, HP. cbn [rev]. rewrite <- app_assoc. reflexivity.
Qed.

Lemma rebuild_shape fuel t bs t' :
  Vec3.finite (center (root t)) -> JS.finite (halfSize (root t)) ->
  Forall (in_bounds (root t)) bs ->
  rebuild fuel t bs = Some t' ->
  shape (root t') /\ Permutation (subtree_bodies (root t')) bs.
Proof.
  intros Hc Hh Hin H. unfold rebuild in H.
  assert (Hin' : Forall (in_bounds (root (clear t))) bs).
  { eapply Forall_impl; [|exact Hin]. intros a Ha. exact Ha. }
  destruct (insert_all_shape fuel bs (clear t) _
              (new_OctreeNode_shape _ _ Hc Hh) Hin' H)
    as (H1 & _ & H3).
  split; auto. rewrite H3. cbn [clear root new_OctreeNode subtree_bodies].
  cbn [flat_map app]. rewrite app_nil_r. symmetry. apply Permutation_rev.
Qed.

(** *** Removal *)

Lemma splice_body_absent b bs :
  ~ In (Body.id b) (ids bs) -> splice_body b bs = None.
Proof.
  unfold ids. induction bs as [|o bs IH]; simpl; auto.
  intro H. destruct (Body.same o b) eqn:E.
  - apply Nat.eqb_eq in E. tauto.
  - rewrite IH; [reflexivity|tauto].
Qed.

Lemma others_absent b l : ~ In (Body.id b) (ids l) -> others b l = l.
Proof.
  unfold others, ids. induction l as [|o l IH]; simpl; auto.
  intro H. destruct (Body.same o b) eqn:E; simpl.
  - apply Nat.eqb_eq in E. tauto.
  - f_equal. apply IH. tauto.
Qed.

Lemma splice_body_none b bs :
  splice_body b bs = None -> others b bs = bs.
Proof.
  unfold others. induction bs as [|o bs IH]; simpl; auto.
  destruct (Body.same o b) eqn:E; simpl; [discriminate|].
  destruct (splice_body b bs); simpl; [discriminate|].
  intros _. f_equal. now apply IH.
Qed.

Lemma splice_body_some b bs bs' :
  NoDup (ids bs) -> splice_body b bs = Some bs' ->
  bs' = others b bs /\ In (Body.id b) (ids bs).
Proof.
  unfold others, ids. revert bs'.
  induction bs as [|o bs IH]; simpl; intros bs' Hnd H; [discriminate|].
  inversion Hnd as [|? ? Hnot Hnd']; subst.
  destruct (Body.same o b) eqn:E; simpl.
  - inversion H; subst. apply Nat.eqb_eq in E. split; auto.
    symmetry. apply others_absent. unfold ids. now rewrite <- E.
  - destruct (splice_body b bs) as [r|] eqn:Er; simpl in H; inversion H; subst.
    destruct (IH _ Hnd' eq_refl) as [-> Hin]. auto.
Qed.

Lemma splice_body_sub (P : body -> Prop) b bs bs' :
  splice_body b bs = Some bs' ->
  (Forall P bs -> Forall P bs') /\ (length bs' <= length bs)%nat.
Proof.
  revert bs'. induction bs as [|o bs IH]; simpl; intros bs' H; [discriminate|].
  destruct (Body.same o b).
  - inversion H; subst. split; [|lia]. intro HF. now inversion HF.
  - destruct (splice_body b bs) as [r|]; simpl in H; inversion H; subst.
    destruct (IH _ eq_refl) as [H1 H2]. split; [|simpl; lia].
    intro HF. inversion HF; subst. constructor; auto.
Qed.

Lemma remove_frame n b :
  map frame (nodes (remove n b)) = map frame (nodes n).
Proof.
  induction n as [c h m cm leaf bs cs IH] using OctreeNode_ind'.
  cbn [remove]. destruct (splice_body b bs) as [bs'|]; [reflexivity|].
  destruct leaf; cbn [negb]; [reflexivity|].
  cbn [nodes map]. f_equal.
  induction cs as [|k cs IHcs]; [reflexivity|].
  inversion IH as [|? ? Hk Hcs]; subst.
  cbn [map flat_map]. rewrite !map_app, Hk. f_equal. now apply IHcs.
Qed.

Lemma remove_geom n b : geom (remove n b) = geom n.
Proof.
  destruct n as [c h m cm leaf bs cs]. cbn [remove].
  destruct (splice_body b bs); [reflexivity|]. now destruct leaf.
Qed.

Lemma remove_shape n b : shape n -> shape (remove n b).
Proof.
  induction n as [c h m cm leaf bs cs IH] using OctreeNode_ind'.
  intro Hn.
  inversion Hn as [? ? ? ? ? Hc Hh Hin Hlen|? ? ? ? ? Hc Hh Hg Hall]; subst;
    cbn [remove].
  - destruct (splice_body b bs) as [bs'|] eqn:E; cbn [negb]; auto.
    destruct (splice_body_sub (in_bounds (new_OctreeNode c h)) _ _ _ E)
      as [H1 H2].
    constructor; auto. lia.
  - cbn [splice_body negb]. constructor; auto.
    + rewrite <- Hg, map_map. apply map_ext. intro k. apply remove_geom.
    + rewrite Forall_forall in *. intros k Hk.
      apply in_map_iff in Hk. destruct Hk as (k0 & <- & Hk0). auto.
Qed.

Lemma others_app b l1 l2 : others b (l1 ++ l2) = others b l1 ++ others b l2.
Proof. unfold others. apply filter_app. Qed.

Lemma ids_app l1 l2 : ids (l1 ++ l2) = ids l1 ++ ids l2.
Proof. unfold ids. apply map_app. Qed.

Lemma remove_bodies n b :
  shape n -> NoDup (ids (subtree_bodies n)) ->
  subtree_bodies (remove n b) = others b (subtree_bodies n).
Proof.
  induction n as [c h m cm leaf bs cs IH] using OctreeNode_ind'.
  intros Hn Hnd.
  inversion Hn as [? ? ? ? ? Hc Hh Hin Hlen|? ? ? ? ? Hc Hh Hg Hall]; subst;
    cbn [remove].
  - cbn [subtree_bodies flat_map] in *. rewrite app_nil_r in *.
    destruct (splice_body b bs) as [bs'|] eqn:E; cbn [negb subtree_bodies
      flat_map]; rewrite ?app_nil_r.
    + exact (proj1 (splice_body_some _ _ _ Hnd E)).
    + symmetry. now apply splice_body_none.
  - cbn [splice_body negb subtree_bodies app] in *.
    clear Hg Hn. induction cs as [|k cs IHcs]; [reflexivity|].
    inversion IH as [|? ? Hk Hcs]; subst.
    inversion Hall as [|? ? Sk Scs]; subst.
    cbn [map flat_map] in *. rewrite ids_app in Hnd.
    rewrite others_app, Hk; auto.
    + f_equal. apply IHcs; auto. eapply NoDup_app_remove_l; eauto.
    + eapply NoDup_app_remove_r; eauto.
Qed.

Lemma remove_absent n b :
  ~ In (Body.id b) (ids (subtree_bodies n)) -> remove n b = n.
Proof.
  induction n as [c h m cm leaf bs cs IH] using OctreeNode_ind'.
  cbn [subtree_bodies remove]. rewrite ids_app, in_app_iff. intro H.
  rewrite splice_body_absent by tauto.
  destruct leaf; cbn [negb]; [reflexivity|]. f_equal.
  assert (H2 : ~ In (Body.id b) (ids (flat_map subtree_bodies cs))) by tauto.
  clear H.
  induction cs as [|k cs IHcs]; [reflexivity|].
  inversion IH as [|? ? Hk Hcs]; subst.
  cbn [flat_map map] in *. rewrite ids_app, in_app_iff in H2.
  rewrite Hk, IHcs; auto.
Qed.

(** X4: [remove] changes no aggregate: the tree has the same nodes after
    the call, each of the region, the mass, the centre of mass and the
    flag it had, whatever the body and whether or not it was stored. *)
Theorem remove_changes_no_aggregate n b :
  map frame (nodes (remove n b)) = map frame (nodes n).
Proof. apply remove_frame. Qed.

(** X5: from a well-formed tree of distinct bodies [remove] takes the
    body out and nothing else: the bodies are the others, in the order
    they were in, and the tree remains well formed. *)
Theorem remove_takes_the_body_out n b :
  shape n -> NoDup (ids (subtree_bodies n)) ->
  shape (remove n b) /\
  subtree_bodies (remove n b) = others b (subtree_bodies n).
Proof.
  intros Hn Hnd. split; [now apply remove_shape|now apply remove_bodies].
Qed.

Lemma remove_takes_the_body_out_witness :
  exists t',
    rebuild 3 world crowd = Some t' /\
    shape (root t') /\ NoDup (ids (subtree_bodies (root t'))) /\
    In mover (subtree_bodies (root t')) /\
    shape (remove (root t') mover) /\
    subtree_bodies (remove (root t') mover)
    = others mover (subtree_bodies (root t')).
Proof.
  assert (Hc : Vec3.finite (center (root world))) by (repeat split).
  assert (Hh : JS.finite (halfSize (root world))) by exact I.
  assert (Hin : Forall (in_bounds (root world)) crowd)
    by (repeat constructor).
  destruct (rebuild 3 world crowd) as [t'|] eqn:E;
    [|vm_compute in E; discriminate].
  assert (Hs : shape (root t'))
    by exact (proj1 (rebuild_shape _ _ _ _ Hc Hh Hin E)).
  assert (Hnd : NoDup (ids (subtree_bodies (root t')))).
  { vm_compute in E. inversion E; subst. vm_compute.
    repeat constructor; simpl; intuition discriminate. }
  exists t'. split; [reflexivity|]. split; [exact Hs|]. split; [exact Hnd|].
  split; [vm_compute in E; inversion E; subst; vm_compute; tauto|].
  exact (remove_takes_the_body_out (root t') mover Hs Hnd).
Defined.

(** X6: [remove] of a body that the tree does not hold changes nothing. *)
Theorem remove_of_absent_body n b :
  ~ In (Body.id b) (ids (subtree_bodies n)) -> remove n b = n.
Proof. apply remove_absent. Qed.

Lemma remove_of_absent_body_witness :
  exists t',
    rebuild 3 world crowd = Some t' /\
    ~ In (Body.id stranger) (ids (subtree_bodies (root t'))) /\
    remove (root t') stranger = root t'.
Proof.
  destruct (rebuild 3 world crowd) as [t'|] eqn:E;
    [|vm_compute in E; discriminate].
  assert (Hno : ~ In (Body.id stranger) (ids (subtree_bodies (root t')))).
  { vm_compute in E. inversion E; subst. vm_compute. intuition discriminate. }
  exists t'. split; [reflexivity|]. split; [exact Hno|].
  exact (remove_of_absent_body (root t') stranger Hno).
Defined.

(** *** Merging *)

Lemma total_bodies cs : forall a,
  fold_left (fun sum child => (sum + length (bodies child))%nat) cs a
  = (a + length (concat (map bodies cs)))%nat.
Proof.
  induction cs as [|k cs IH]; intro a; simpl; [lia|].
  rewrite IH, length_app. lia.
Qed.

Lemma leaf_children_bodies cs :
  Forall shape cs -> forallb isLeaf cs = true ->
  flat_map subtree_bodies cs = concat (map bodies cs).
Proof.
  induction cs as [|k cs IH]; intros Hall Hl; [reflexivity|].
  inversion Hall as [|? ? Hk Hcs]; subst.
  cbn [forallb] in Hl. apply andb_true_iff in Hl. destruct Hl as [Hlk Hl].
  cbn [flat_map map concat]. rewrite (IH Hcs Hl). f_equal.
  inversion Hk; subst; [|discriminate].
  cbn [subtree_bodies flat_map bodies]. apply app_nil_r.
Qed.

Lemma geom_counterpart (cs cs0 : list OctreeNode) k :
  map geom cs = map geom cs0 -> In k cs ->
  exists k0, In k0 cs0 /\ geom k0 = geom k.
Proof.
  intros Hg Hk. apply (in_map geom) in Hk. rewrite Hg in Hk.
  apply in_map_iff in Hk. destruct Hk as (k0 & H1 & H2). eauto.
Qed.

Lemma children_in_parent c h cs :
  Vec3.finite c -> JS.finite h ->
  map geom cs = map geom (new_children c h) ->
  Forall shape cs -> forallb isLeaf cs = true ->
  Forall (in_bounds (new_OctreeNode c h)) (concat (map bodies cs)).
Proof.
  intros Hc Hh Hg Hall Hl. apply Forall_forall. intros b Hb.
  apply in_concat in Hb. destruct Hb as (l & Hl1 & Hb).
  apply in_map_iff in Hl1. destruct Hl1 as (k & <- & Hk).
  destruct (geom_counterpart _ _ _ Hg Hk) as (k0 & Hk0 & Hgk).
  rewrite Forall_forall in Hall. pose proof (Hall k Hk) as Sk.
  rewrite forallb_forall in Hl. pose proof (Hl k Hk) as Lk.
  inversion Sk as [? ? ? ? ? Hck Hhk Hin _|]; subst; [|discriminate].
  cbn [bodies] in Hb. rewrite Forall_forall in Hin.
  pose proof (Hin b Hb) as Hbk. unfold in_bounds in *.
  apply (child_inside c h k0); auto.
  rewrite <- Hbk. apply contains_geom. exact Hgk.
Qed.

Lemma merge_unfold n :
  merge n =
  if negb (isLeaf n) && forallb isLeaf (children n)
     && Nat.ltb (length (concat (map bodies (children n))))
                MIN_BODIES_PER_NODE
  then mkNode (center n) (halfSize n) (mass n) (com n) true
              (concat (map bodies (children n))) []
  else n.
Proof.
  unfold merge. rewrite total_bodies. cbn [Nat.add].
  destruct (negb (isLeaf n) && forallb isLeaf (children n)); reflexivity.
Qed.

Lemma merge_shape n :
  shape n -> shape (merge n) /\ subtree_bodies (merge n) = subtree_bodies n.
Proof.
  intro Hn. rewrite merge_unfold.
  inversion Hn as [? ? ? ? ? Hc Hh Hin Hlen|? ? ? ? ? Hc Hh Hg Hall]; subst;
    cbn [isLeaf negb andb children center halfSize mass com]; auto.
  destruct (forallb isLeaf cs) eqn:El; cbn [andb]; auto.
  destruct (Nat.ltb (length (concat (map bodies cs))) MIN_BODIES_PER_NODE)
    eqn:Et; auto.
  apply Nat.ltb_lt in Et. split.
  - constructor; auto.
    + now apply children_in_parent.
    + unfold MIN_BODIES_PER_NODE, MAX_BODIES_PER_NODE in *. lia.
  - cbn [subtree_bodies flat_map app]. rewrite app_nil_r.
    symmetry. now apply leaf_children_bodies.
Qed.

(** X8: [merge] on a well-formed tree keeps it well formed and keeps its
    bodies, their order and the aggregates of the node; it turns the node
    into a leaf exactly when the node is internal, its children are all
    leaves and the subtree holds fewer than [MIN_BODIES_PER_NODE]
    bodies. *)
Theorem merge_keeps_bodies n :
  shape n ->
  shape (merge n) /\
  subtree_bodies (merge n) = subtree_bodies n /\
  frame (merge n)
  = (center n, halfSize n, aggregates n, isLeaf (merge n)) /\
  isLeaf (merge n)
  = isLeaf n || (forallb isLeaf (children n)
                 && Nat.ltb (length (subtree_bodies n)) MIN_BODIES_PER_NODE).
Proof.
  intro Hn. destruct (merge_shape n Hn) as [H1 H2].
  split; [exact H1|]. split; [exact H2|]. rewrite merge_unfold. split.
  - destruct (negb (isLeaf n) && forallb isLeaf (children n)
              && Nat.ltb (length (concat (map bodies (children n))))
                         MIN_BODIES_PER_NODE); reflexivity.
  - inversion Hn as [? ? ? ? ? Hc Hh Hin Hlen|? ? ? ? ? Hc Hh Hg Hall]; subst;
      cbn [isLeaf negb andb orb children subtree_bodies app]; auto.
    destruct (forallb isLeaf cs) eqn:El; cbn [andb]; auto.
    rewrite (leaf_children_bodies cs Hall El).
    destruct (Nat.ltb (length (concat (map bodies cs))) MIN_BODIES_PER_NODE);
      reflexivity.
Qed.

Lemma merge_keeps_bodies_witness :
  exists t',
    rebuild 3 world crowd = Some t' /\
    shape (fold_left remove (firstn 7 crowd) (root t')) /\
    isLeaf (fold_left remove (firstn 7 crowd) (root t')) = false /\
    isLeaf (merge (fold_left remove (firstn 7 crowd) (root t'))) = true /\
    subtree_bodies (merge (fold_left remove (firstn 7 crowd) (root t')))
    = subtree_bodies (fold_left remove (firstn 7 crowd) (root t')).
Proof.
  assert (Hc : Vec3.finite (center (root world))) by (repeat split).
  assert (Hh : JS.finite (halfSize (root world))) by exact I.
  assert (Hin : Forall (in_bounds (root world)) crowd)
    by (repeat constructor).
  destruct (rebuild 3 world crowd) as [t'|] eqn:E;
    [|vm_compute in E; discriminate].
  assert (Hs : shape (root t'))
    by exact (proj1 (rebuild_shape _ _ _ _ Hc Hh Hin E)).
  assert (Hn : shape (fold_left remove (firstn 7 crowd) (root t'))).
  { cbn [crowd seq map firstn fold_left]. repeat apply remove_shape.
    exact Hs. }
  exists t'. split; [reflexivity|]. split; [exact Hn|].
  split; [vm_compute in E; inversion E; subst; vm_compute; reflexivity|].
  split; [vm_compute in E; inversion E; subst; vm_compute; reflexivity|].
  exact (proj1 (proj2 (merge_keeps_bodies _ Hn))).
Defined.

(** *** Pruning *)

Lemma prune_geom n : geom (_pruneEmptyNodes n) = geom n.
Proof. destruct n as [c h m cm [|] bs cs]; reflexivity. Qed.

Lemma prune_aggregates n : aggregates (_pruneEmptyNodes n) = aggregates n.
Proof. destruct n as [c h m cm [|] bs cs]; reflexivity. Qed.

Lemma prune_again_children cs :
  Forall (fun k => _pruneEmptyNodes (_pruneEmptyNodes k)
                   = _pruneEmptyNodes k) cs ->
  filter (fun child => negb (isEmpty child))
         (map _pruneEmptyNodes
              (filter (fun child => negb (isEmpty child))
                      (map _pruneEmptyNodes cs)))
  = filter (fun child => negb (isEmpty child)) (map _pruneEmptyNodes cs).
Proof.
  induction cs as [|k cs IH]; intro Hall; [reflexivity|].
  inversion Hall as [|? ? Hk Hcs]; subst. cbn [map filter].
  destruct (negb (isEmpty (_pruneEmptyNodes k))) eqn:E; [|now apply IH].
  cbn [map filter]. rewrite Hk, E. f_equal. now apply IH.
Qed.

Lemma prune_idem n :
  _pruneEmptyNodes (_pruneEmptyNodes n) = _pruneEmptyNodes n.
Proof.
  induction n as [c h m cm leaf bs cs IH] using OctreeNode_ind'.
  cbn [_pruneEmptyNodes]. destruct leaf; cbn [negb]; [reflexivity|].
  destruct (Nat.eqb (length (filter (fun child => negb (isEmpty child))
                                    (map _pruneEmptyNodes cs))) 0) eqn:E;
    cbn [_pruneEmptyNodes negb]; [reflexivity|].
  rewrite (prune_again_children cs IH), E. reflexivity.
Qed.

Lemma isEmpty_bodies k :
  isEmpty k = true -> children k = [] -> subtree_bodies k = [].
Proof.
  destruct k as [c h m cm leaf bs cs]. unfold isEmpty.
  cbn [isLeaf bodies children subtree_bodies].
  intros H ->. apply andb_true_iff in H. destruct H as [_ H].
  apply Nat.eqb_eq in H. apply length_zero_iff_nil in H. now subst.
Qed.

Lemma prune_children_bodies cs :
  Forall (fun k =>
            subtree_bodies (_pruneEmptyNodes k) = subtree_bodies k /\
            (isLeaf (_pruneEmptyNodes k) = true ->
             children (_pruneEmptyNodes k) = [])) cs ->
  flat_map subtree_bodies
           (filter (fun child => negb (isEmpty child))
                   (map _pruneEmptyNodes cs))
  = flat_map subtree_bodies cs.
Proof.
  induction cs as [|k cs IH]; intro Hall; [reflexivity|].
  inversion Hall as [|? ? [Hb Hl] Hcs]; subst. cbn [map filter flat_map].
  destruct (isEmpty (_pruneEmptyNodes k)) eqn:E; cbn [negb flat_map].
  - rewrite (IH Hcs), <- Hb, (isEmpty_bodies _ E); [reflexivity|].
    apply Hl. unfold isEmpty in E. apply andb_true_iff in E. tauto.
  - now rewrite (IH Hcs), Hb.
Qed.

Lemma prune_shape_facts n :
  shape n ->
  subtree_bodies (_pruneEmptyNodes n) = subtree_bodies n /\
  (isLeaf (_pruneEmptyNodes n) = true -> children (_pruneEmptyNodes n) = []).
Proof.
  induction n as [c h m cm leaf bs cs IH] using OctreeNode_ind'.
  intro Hn.
  inversion Hn as [? ? ? ? ? Hc Hh Hin Hlen|? ? ? ? ? Hc Hh Hg Hall]; subst;
    cbn [_pruneEmptyNodes negb]; [auto|].
  assert (Hcs : Forall (fun k =>
            subtree_bodies (_pruneEmptyNodes k) = subtree_bodies k /\
            (isLeaf (_pruneEmptyNodes k) = true ->
             children (_pruneEmptyNodes k) = [])) cs).
  { rewrite Forall_forall in *. intros k Hk. exact (IH k Hk (Hall k Hk)). }
  cbn [subtree_bodies app isLeaf children]. split.
  - now apply prune_children_bodies.
  - destruct (Nat.eqb (length (filter (fun child => negb (isEmpty child))
                                      (map _pruneEmptyNodes cs))) 0) eqn:E;
      [|discriminate].
    intros _. apply Nat.eqb_eq in E. now apply length_zero_iff_nil in E.
Qed.

Lemma prune_trimmed n : shape n -> Forall trimmed (nodes (_pruneEmptyNodes n)).
Proof.
  induction n as [c h m cm leaf bs cs IH] using OctreeNode_ind'.
  intro Hn.
  inversion Hn as [? ? ? ? ? Hc Hh Hin Hlen|? ? ? ? ? Hc Hh Hg Hall]; subst;
    cbn [_pruneEmptyNodes negb].
  - repeat constructor. intro Hx. discriminate.
  - remember (filter (fun child => negb (isEmpty child))
                     (map _pruneEmptyNodes cs)) as cs' eqn:Ecs.
    cbn [nodes]. constructor.
    + unfold trimmed. cbn [isLeaf children].
      destruct (Nat.eqb (length cs') 0) eqn:E; [discriminate|].
      intros _. split.
      * intros ->. discriminate.
      * apply Forall_forall. intros k Hk. rewrite Ecs in Hk.
        apply filter_In in Hk. now apply negb_true_iff.
    + rewrite Forall_flat_map. apply Forall_forall. intros k Hk.
      rewrite Ecs in Hk. apply filter_In in Hk. destruct Hk as [Hk _].
      apply in_map_iff in Hk. destruct Hk as (k0 & <- & Hk0).
      rewrite Forall_forall in IH, Hall. exact (IH k0 Hk0 (Hall k0 Hk0)).
Qed.

(** X9: pruning a well-formed tree keeps the bodies, their order and the
    aggregates; afterwards every internal node has a child and no empty
    one; and pruning again changes nothing. *)
Theorem prune_keeps_bodies n :
  shape n ->
  subtree_bodies (_pruneEmptyNodes n) = subtree_bodies n /\
  aggregates (_pruneEmptyNodes n) = aggregates n /\
  Forall trimmed (nodes (_pruneEmptyNodes n)) /\
  _pruneEmptyNodes (_pruneEmptyNodes n) = _pruneEmptyNodes n.
Proof.
  intro Hn. split; [exact (proj1 (prune_shape_facts n Hn))|].
  split; [apply prune_aggregates|].
  split; [now apply prune_trimmed|apply prune_idem].
Qed.

Lemma prune_keeps_bodies_witness :
  exists t',
    rebuild 3 world crowd = Some t' /\
    shape (root t') /\
    length (children (root t')) = 8%nat /\
    length (children (_pruneEmptyNodes (root t'))) = 2%nat /\
    subtree_bodies (_pruneEmptyNodes (root t')) = subtree_bodies (root t').
Proof.
  assert (Hc : Vec3.finite (center (root world))) by (repeat split).
  assert (Hh : JS.finite (halfSize (root world))) by exact I.
  assert (Hin : Forall (in_bounds (root world)) crowd)
    by (repeat constructor).
  destruct (rebuild 3 world crowd) as [t'|] eqn:E;
    [|vm_compute in E; discriminate].
  assert (Hs : shape (root t'))
    by exact (proj1 (rebuild_shape _ _ _ _ Hc Hh Hin E)).
  exists t'. split; [reflexivity|]. split; [exact Hs|].
  split; [vm_compute in E; inversion E; subst; vm_compute; reflexivity|].
  split; [vm_compute in E; inversion E; subst; vm_compute; reflexivity|].
  exact (proj1 (prune_keeps_bodies _ Hs)).
Defined.

Lemma flat_map_nil {A B : Type} (f : A -> list B) l :
  flat_map f l = [] -> Forall (fun a => f a = []) l.
Proof.
  induction l as [|a l IH]; simpl; intro H; constructor.
  - now apply app_eq_nil in H.
  - apply IH. now apply app_eq_nil in H.
Qed.

Lemma prune_empty_child k :
  shape k -> subtree_bodies k = [] -> isEmpty (_pruneEmptyNodes k) = true.
Proof.
  induction k as [c h m cm leaf bs cs IH] using OctreeNode_ind'.
  intros Hk Hb.
  inversion Hk as [? ? ? ? ? Hc Hh Hin Hlen|? ? ? ? ? Hc Hh Hg Hall]; subst;
    cbn [_pruneEmptyNodes negb].
  - cbn [subtree_bodies flat_map] in Hb. rewrite app_nil_r in Hb. now subst.
  - cbn [subtree_bodies app] in Hb. apply flat_map_nil in Hb.
    assert (E : filter (fun child => negb (isEmpty child))
                       (map _pruneEmptyNodes cs) = []).
    { clear Hg Hk. induction cs as [|k cs IHcs]; [reflexivity|].
      inversion IH as [|? ? IHk IHr]; inversion Hall as [|? ? Sk Sr];
        inversion Hb as [|? ? Bk Br]; subst.
      cbn [map filter]. rewrite (IHk Sk Bk). cbn [negb]. now apply IHcs. }
    rewrite E. reflexivity.
Qed.

Lemma insert_first_nowhere ins cs b :
  Forall (fun k => contains k (Body.position b) = false) cs ->
  insert_first ins cs b = Some cs.
Proof.
  induction 1 as [|k cs Hk _ IH]; cbn [insert_first]; auto.
  now rewrite Hk, IH.
Qed.

(** X10: pruning takes the empty octants away, and [insert] looks for a
    child that contains the position without creating one: after the
    pruning of a well-formed internal node that holds a body, a body
    inserted at a position whose octants were empty is not stored
    anywhere, while its mass is added to the node. *)
Theorem insert_after_prune_drops_body fuel n b :
  shape n -> isLeaf n = false -> subtree_bodies n <> [] ->
  (forall k, In k (children n) -> contains k (Body.position b) = true ->
             subtree_bodies k = []) ->
  exists n',
    insert (Datatypes.S fuel) (_pruneEmptyNodes n) b = Some n' /\
    subtree_bodies n' = subtree_bodies n /\
    mass n' = mass n + Body.mass b.
Proof.
  intros Hn Hl Hb Hp.
  inversion Hn as [? ? ? ? ? Hc Hh Hin Hlen|? ? ? ? ? Hc Hh Hg Hall]; subst;
    [discriminate|].
  cbn [children subtree_bodies app] in *.
  cbn [_pruneEmptyNodes negb].
  remember (filter (fun child => negb (isEmpty child))
                   (map _pruneEmptyNodes cs)) as cs' eqn:Ecs.
  assert (Hne : Nat.eqb (length cs') 0 = false).
  { apply Nat.eqb_neq. intro H0. apply length_zero_iff_nil in H0.
    apply Hb. rewrite <- (prune_children_bodies cs).
    - rewrite <- Ecs, H0. reflexivity.
    - rewrite Forall_forall in *. intros k Hk.
      exact (prune_shape_facts k (Hall k Hk)). }
  assert (Hno : Forall (fun k => contains k (Body.position b) = false) cs').
  { apply Forall_forall. intros k Hk. rewrite Ecs in Hk.
    apply filter_In in Hk. destruct Hk as [Hk Hk'].
    apply in_map_iff in Hk. destruct Hk as (k0 & <- & Hk0).
    rewrite (contains_geom _ k0 _ (prune_geom k0)).
    destruct (contains k0 (Body.position b)) eqn:Ek; auto.
    rewrite Forall_forall in Hall.
    rewrite (prune_empty_child k0 (Hall k0 Hk0) (Hp k0 Hk0 Ek)) in Hk'.
    discriminate. }
  rewrite Hne. cbn [insert isLeaf negb]. unfold _insertIntoChild.
  cbn [children center halfSize mass com isLeaf bodies].
  rewrite (insert_first_nowhere _ _ _ Hno). cbn [bind].
  unfold updateMassDistribution. cbn [isLeaf andb mass bodies children].
  eexists. split; [reflexivity|]. cbn [subtree_bodies mass app]. split; auto.
  rewrite Ecs. apply prune_children_bodies.
  rewrite Forall_forall in *. intros k Hk.
  exact (prune_shape_facts k (Hall k Hk)).
Qed.

Lemma insert_after_prune_drops_body_witness :
  exists t' n',
    rebuild 3 world crowd = Some t' /\
    shape (root t') /\ isLeaf (root t') = false /\
    subtree_bodies (root t') <> [] /\
    in_bounds (root t') settler /\
    insert 1 (_pruneEmptyNodes (root t')) settler = Some n' /\
    subtree_bodies n' = subtree_bodies (root t') /\
    mass n' = mass (root t') + Body.mass settler.
Proof.
  assert (Hc : Vec3.finite (center (root world))) by (repeat split).
  assert (Hh : JS.finite (halfSize (root world))) by exact I.
  assert (Hin : Forall (in_bounds (root world)) crowd)
    by (repeat constructor).
  destruct (rebuild 3 world crowd) as [t'|] eqn:E;
    [|vm_compute in E; discriminate].
  assert (Hs : shape (root t'))
    by exact (proj1 (rebuild_shape _ _ _ _ Hc Hh Hin E)).
  assert (Hl : isLeaf (root t') = false)
    by (vm_compute in E; inversion E; subst; reflexivity).
  assert (Hb : subtree_bodies (root t') <> [])
    by (vm_compute in E; inversion E; subst; vm_compute; discriminate).
  assert (Hp : forall k, In k (children (root t')) ->
                         contains k (Body.position settler) = true ->
                         subtree_bodies k = []).
  { vm_compute in E. inversion E; subst. cbn [root children].
    intros k Hk Hk'. cbn [In] in Hk.
    repeat (destruct Hk as [<-|Hk];
            [first [reflexivity | vm_compute in Hk'; discriminate]|]).
    contradiction. }
  destruct (insert_after_prune_drops_body 0%nat (root t') settler Hs Hl Hb Hp)
    as (n' & H1 & H2 & H3).
  exists t', n'. split; [reflexivity|]. split; [exact Hs|].
  split; [exact Hl|]. split; [exact Hb|].
  split; [vm_compute in E; inversion E; subst; reflexivity|].
  split; [exact H1|]. split; [exact H2|exact H3].
Defined.

(** *** The update of the structure *)

Lemma each_shape fuel cs :
  Forall (fun k => shape k ->
            exists k', _updateNodeStructure fuel k = Some k' /\
                       shape k' /\ geom k' = geom k /\
                       subtree_bodies k' = subtree_bodies k) cs ->
  Forall shape cs ->
  exists cs',
    each (_updateNodeStructure fuel) cs = Some cs' /\
    Forall shape cs' /\ map geom cs' = map geom cs /\
    flat_map subtree_bodies cs' = flat_map subtree_bodies cs.
Proof.
  induction cs as [|k cs IHcs]; intros IH Hall.
  - exists []. auto.
  - inversion IH as [|? ? IHk IHr]; inversion Hall as [|? ? Sk Sr]; subst.
    destruct (IHk Sk) as (k' & E & Sk' & Gk & Bk).
    destruct (IHcs IHr Sr) as (cs' & Ecs & Scs' & Gcs & Bcs).
    exists (k' :: cs'). cbn [each]. rewrite E, Ecs. cbn [bind map flat_map].
    rewrite Gk, Gcs, Bk, Bcs. auto.
Qed.

Lemma _updateNodeStructure_shape fuel n :
  shape n ->
  exists n',
    _updateNodeStructure fuel n = Some n' /\
    shape n' /\ geom n' = geom n /\ subtree_bodies n' = subtree_bodies n.
Proof.
  induction n as [c h m cm leaf bs cs IH] using OctreeNode_ind'.
  intro Hn.
  inversion Hn as [? ? ? ? ? Hc Hh Hin Hlen|? ? ? ? ? Hc Hh Hg Hall]; subst;
    cbn [_updateNodeStructure].
  - assert (E : Nat.ltb MAX_BODIES_PER_NODE (length bs) = false)
      by (apply Nat.ltb_ge; exact Hlen).
    rewrite E. eauto.
  - destruct (merge_shape _ Hn) as [Sm Bm].
    cbv zeta.
    destruct (isLeaf (merge (mkNode c h m cm false [] cs))) eqn:El.
    + eexists. split; [reflexivity|]. split; [exact Sm|]. split; [|exact Bm].
      rewrite merge_unfold.
      match goal with |- geom (if ?c then _ else _) = _ => destruct c end;
        reflexivity.
    + destruct (each_shape fuel cs IH Hall) as (cs' & E & Scs' & Gcs & Bcs).
      rewrite E. cbn [bind]. eexists. split; [reflexivity|].
      split; [|split].
      * constructor; auto. now rewrite Gcs.
      * reflexivity.
      * cbn [subtree_bodies app]. exact Bcs.
Qed.

Lemma _updateNodeStructure_aggregates fuel n n' :
  shape n -> _updateNodeStructure fuel n = Some n' ->
  aggregates n' = aggregates n.
Proof.
  intro Hn.
  inversion Hn as [? ? ? ? ? Hc Hh Hin Hlen|? ? ? ? ? Hc Hh Hg Hall]; subst;
    cbn [_updateNodeStructure].
  - assert (E : Nat.ltb MAX_BODIES_PER_NODE (length bs) = false)
      by (apply Nat.ltb_ge; exact Hlen).
    rewrite E. intro H. now inversion H.
  - cbv zeta.
    destruct (isLeaf (merge (mkNode c h m cm false [] cs))) eqn:El.
    + intro H. inversion H; subst. rewrite merge_unfold.
      match goal with |- aggregates (if ?c then _ else _) = _ => destruct c end;
        reflexivity.
    + destruct (each (_updateNodeStructure fuel) cs); cbn [bind]; intro H;
        inversion H; reflexivity.
Qed.

(** X11: on a well-formed tree [_updateNodeStructure] returns whatever
    the call depth allowed to [insert], since no leaf is subdivided; the
    tree remains well formed, with the same region, the same aggregates
    at the root and the same bodies in the same order. *)
Theorem update_of_structure_keeps_bodies fuel n :
  shape n ->
  exists n',
    _updateNodeStructure fuel n = Some n' /\
    shape n' /\ geom n' = geom n /\ aggregates n' = aggregates n /\
    subtree_bodies n' = subtree_bodies n.
Proof.
  intro Hn.
  destruct (_updateNodeStructure_shape fuel n Hn) as (n' & E & H1 & H2 & H3).
  exists n'. split; [exact E|]. split; [exact H1|]. split; [exact H2|].
  split; [|exact H3]. eapply _updateNodeStructure_aggregates; eauto.
Qed.

Lemma update_of_structure_keeps_bodies_witness :
  exists t' n',
    rebuild 3 world crowd = Some t' /\
    shape (fold_left remove (firstn 7 crowd) (root t')) /\
    isLeaf (fold_left remove (firstn 7 crowd) (root t')) = false /\
    _updateNodeStructure 0 (fold_left remove (firstn 7 crowd) (root t'))
    = Some n' /\
    isLeaf n' = true /\
    subtree_bodies n'
    = subtree_bodies (fold_left remove (firstn 7 crowd) (root t')).
Proof.
  assert (Hc : Vec3.finite (center (root world))) by (repeat split).
  assert (Hh : JS.finite (halfSize (root world))) by exact I.
  assert (Hin : Forall (in_bounds (root world)) crowd)
    by (repeat constructor).
  destruct (rebuild 3 world crowd) as [t'|] eqn:E;
    [|vm_compute in E; discriminate].
  assert (Hs : shape (root t'))
    by exact (proj1 (rebuild_shape _ _ _ _ Hc Hh Hin E)).
  assert (Hn : shape (fold_left remove (firstn 7 crowd) (root t'))).
  { cbn [crowd seq map firstn fold_left]. repeat apply remove_shape.
    exact Hs. }
  destruct (update_of_structure_keeps_bodies 0%nat _ Hn)
    as (n' & H1 & H2 & H3 & H5 & H4).
  exists t', n'. split; [reflexivity|]. split; [exact Hn|].
  split; [vm_compute in E; inversion E; subst; vm_compute; reflexivity|].
  split; [exact H1|]. split; [|exact H4].
  vm_compute in E. inversion E; subst. vm_compute in H1.
  inversion H1; subst. reflexivity.
Defined.

(** *** Small systems *)



End BucketExtra.

(** ** The octree with one body per leaf: the walk and the storage *)

Module StrictExtra.
Import Strict StrictFacts Samples.
Local Open Scope num_scope.

(** *** The walk never reads [theta] *)

Lemma walk_any_theta sqrtQ G b theta theta' n : forall force,
  calculateForcesOnBody sqrtQ n b theta force G
  = calculateForcesOnBody sqrtQ n b theta' force G.
Proof.
  induction n as [c h cs ob m cm IH] using strict_OctreeNode_ind.
  intro force. rewrite !calculateForcesOnBody_unfold.
  destruct ((mass _ === JS.zero) || is_body _ b); auto.
  destruct (distanceSquared _ _ === JS.zero); auto.
  rewrite !accepts_leaf. destruct (isLeaf _); auto.
  cbn [children]. revert force.
  induction cs as [|k cs IHcs]; intro force; simpl; auto.
  destruct k as [k|].
  - rewrite (IH k (or_introl eq_refl)). apply IHcs.
    intros k0 Hk0. apply IH. now right.
  - apply IHcs. intros k0 Hk0. apply IH. now right.
Qed.

(** X12: the force that [calculateForcesOnBody] computes does not depend
    on [theta], whatever the tree, the body and the force so far: the
    test of the opening angle reads [this.size], which no node has, so a
    node is taken as a point mass exactly when it is a leaf. *)
Theorem theta_is_never_used sqrtQ G n b theta theta' force :
  calculateForcesOnBody sqrtQ n b theta force G
  = calculateForcesOnBody sqrtQ n b theta' force G /\
  accepts n b theta = isLeaf n.
Proof. split; [apply walk_any_theta|apply accepts_leaf]. Qed.

(** *** A rebuild stores every body once *)

(** X13: whatever the root, a rebuild of the single-occupant octree that
    completes stores every body exactly once: the bodies at the leaves
    are the inserted bodies, in some order. *)
Theorem strict_rebuild_stores_each_body_once fuel n bs n' :
  rebuild fuel n bs = Some n' ->
  Permutation (subtree_bodies n') bs.
Proof.
  unfold rebuild. intro H. rewrite (insert_all_stores _ _ _ _ H).
  unfold clear. cbn [subtree_bodies occupant app]. fold bodies_opt.
  rewrite leaf_no_bodies.
  - rewrite app_nil_r. symmetry. apply Permutation_rev.
  - induction (children n) as [|k cs IH]; simpl; auto.
Qed.

Lemma strict_rebuild_stores_each_body_once_witness :
  exists n',
    rebuild 6 sroot crowd = Some n' /\
    length (nodes n') = 81%nat /\
    Permutation (subtree_bodies n') crowd.
Proof.
  destruct (rebuild 6 sroot crowd) as [n'|] eqn:E;
    [|vm_compute in E; discriminate].
  exists n'. split; [reflexivity|].
  split; [vm_compute in E; inversion E; subst; reflexivity|].
  exact (strict_rebuild_stores_each_body_once 6%nat sroot crowd n' E).
Defined.

(** *** Every body is in the octant of its slot *)

Lemma nth_set_nth_other v : forall j cs i,
  i <> j -> nth_child (set_nth j v cs) i = nth_child cs i.
Proof.
  unfold nth_child.
  induction j as [|j IH]; intros [|c cs] [|i] Hne; cbn [set_nth nth_error];
    try congruence; auto;
    first [ now destruct i
          | rewrite IH by congruence; now destruct i
          | apply IH; congruence ].
Qed.

Lemma proper_slots c h cs ob m cm i k :
  proper (mkNode c h cs ob m cm) -> nth_child cs i = Some k ->
  proper k /\
  Forall (fun b => octant c (Body.position b) = i) (subtree_bodies k).
Proof. intros Hn Hk. inversion Hn; subst. auto. Qed.

Lemma proper_new c h : proper (new_OctreeNode c h).
Proof.
  constructor; [reflexivity|]. intros i k Hk.
  apply nth_child_In in Hk. simpl in Hk. intuition discriminate.
Qed.

Section Proper.
Variable ins : OctreeNode -> Body.body -> option OctreeNode.
Hypothesis Hins : ins_proper ins.
Hypothesis Hst : ins_stores ins.

Lemma slot_proper c cs j fresh b child' :
  (forall i k, nth_child cs i = Some k ->
               proper k /\
               Forall (fun a => octant c (Body.position a) = i)
                      (subtree_bodies k)) ->
  proper fresh -> subtree_bodies fresh = [] ->
  octant c (Body.position b) = j ->
  ins (match nth_child cs j with Some c0 => c0 | None => fresh end) b
  = Some child' ->
  forall i k, nth_child (set_nth j (Some child') cs) i = Some k ->
              proper k /\
              Forall (fun a => octant c (Body.position a) = i)
                     (subtree_bodies k).
Proof.
  intros Hcs Hf Hfb Hj E i k Hk.
  destruct (Nat.eq_dec i j) as [->|Hne].
  - rewrite nth_set_nth in Hk. inversion Hk; subst k. clear Hk.
    pose proof (Hst _ _ _ E) as HP.
    destruct (nth_child cs j) as [c0|] eqn:En.
    + destruct (Hcs _ _ En) as [Hc0 Hb0].
      split; [exact (proj1 (Hins _ _ _ Hc0 E))|].
      eapply Permutation_Forall; [symmetry; exact HP|].
      constructor; auto.
    + split; [exact (proj1 (Hins _ _ _ Hf E))|].
      eapply Permutation_Forall; [symmetry; exact HP|].
      rewrite Hfb. constructor; auto.
  - rewrite nth_set_nth_other in Hk by exact Hne. now apply Hcs.
Qed.

Lemma insert_in_octant_proper n b n' :
  proper n -> body n = None ->
  insert_in_octant ins n b = Some n' ->
  proper n' /\ center n' = center n.
Proof.
  destruct n as [c h cs ob m cm]. cbn [body]. intros Hn -> H.
  unfold insert_in_octant in H.
  set (j := getOctantIndex (mkNode c h cs None m cm) (Body.position b)) in *.
  unfold get_child in H. cbn [children] in H. fold (nth_child cs j) in H.
  match type of H with (bind ?mv _ = _) => destruct mv as [child'|] eqn:E end;
    simpl in H; try discriminate.
  inversion H; subst. clear H.
  unfold updateMassAndCenterOfMass, set_child.
  cbn [center halfDimension children body mass centerOfMass].
  split; [|reflexivity]. constructor; [congruence|].
  apply (slot_proper c cs j (insert_child (mkNode c h cs None m cm) j) b);
    auto.
  - intros i k Hk. exact (proper_slots _ _ _ _ _ _ _ _ Hn Hk).
  - apply proper_new.
Qed.
End Proper.

Lemma insert_proper fuel : ins_proper (insert fuel).
Proof.
  induction fuel as [|f IH]; intros n b n' Hn H; simpl in H; try discriminate.
  destruct n as [c h cs ob m cm].
  cbn [body] in H. fold (isLeaf (mkNode c h cs ob m cm)) in H.
  pose proof (insert_stores f) as Hst.
  destruct (isLeaf (mkNode c h cs ob m cm)) eqn:El.
  - destruct ob as [this_body|].
    + match type of H with (bind ?mv _ = _) => destruct mv as [n1|] eqn:E1 end;
        simpl in H; try discriminate.
      unfold split_leaf in E1.
      rewrite get_child_subdivide in E1 by apply getOctantIndex_lt.
      match type of E1 with (bind ?mv _ = _) =>
        destruct mv as [child'|] eqn:E2 end; simpl in E1; try discriminate.
      inversion E1; subst n1. clear E1.
      set (n0 := subdivide (mkNode c h cs (Some this_body) m cm)) in *.
      set (i := getOctantIndex n0 (Body.position this_body)) in *.
      assert (Hslot : nth_child (children n0) i
                      = Some (subdivide_child
                                (mkNode c h cs (Some this_body) m cm) i)).
      { apply (get_child_subdivide (mkNode c h cs (Some this_body) m cm)).
        apply getOctantIndex_lt. }
      assert (E2' : insert f (match nth_child (children n0) i with
                              | Some c0 => c0
                              | None => new_OctreeNode Vec3.zero Vec3.zero
                              end) this_body = Some child').
      { rewrite Hslot. exact E2. }
      assert (H0 : forall i0 k, nth_child (children n0) i0 = Some k ->
                     proper k /\
                     Forall (fun a => octant c (Body.position a) = i0)
                            (subtree_bodies k)).
      { intros i0 k Hk. apply nth_child_In in Hk. unfold n0 in Hk.
        unfold subdivide in Hk. cbn [children] in Hk.
        apply in_app_or in Hk. destruct Hk as [Hk|Hk].
        - apply in_map_iff in Hk. destruct Hk as (i1 & Hi1 & _).
          inversion Hi1. split; [apply proper_new|constructor].
        - exfalso. unfold isLeaf in El. cbn [children] in El.
          rewrite <- (firstn_skipn 8 cs), forallb_app in El.
          apply andb_true_iff in El. destruct El as [_ El].
          rewrite forallb_forall in El. apply El in Hk. discriminate. }
      assert (Hi : octant c (Body.position this_body) = i).
      { reflexivity. }
      pose proof (slot_proper _ IH Hst c (children n0) i
                    (new_OctreeNode Vec3.zero Vec3.zero) this_body child'
                    H0 (proper_new _ _) eq_refl Hi E2') as H1.
      assert (Hn1 : proper (mkNode (center n0) (halfDimension n0)
                              (set_nth i (Some child') (children n0)) None
                              (mass n0) (centerOfMass n0))).
      { constructor; [congruence|exact H1]. }
      destruct (insert_in_octant_proper _ IH Hst _ _ _ Hn1 eq_refl H)
        as [H2 H3].
      split; [exact H2|]. rewrite H3. reflexivity.
    + inversion H; subst. split; [|reflexivity].
      constructor; [intros _; exact El|].
      intros i k Hk. exact (proper_slots _ _ _ _ _ _ _ _ Hn Hk).
  - assert (Hob : ob = None).
    { destruct ob as [o|]; auto. inversion Hn as [? ? ? ? ? ? Hl _]; subst.
      unfold isLeaf in El. cbn [children] in El.
      rewrite Hl in El by congruence. discriminate. }
    subst ob. exact (insert_in_octant_proper _ IH Hst _ _ _ Hn eq_refl H).
Qed.

Lemma insert_all_proper fuel bs : forall n n',
  proper n -> insert_all fuel n bs = Some n' -> proper n'.
Proof.
  induction bs as [|b bs IH]; intros n n' Hn H; cbn [insert_all] in H.
  - now inversion H; subst.
  - destruct (insert fuel n b) as [r|] eqn:E; simpl in H; try discriminate.
    apply (IH r); auto. exact (proj1 (insert_proper fuel _ _ _ Hn E)).
Qed.

Lemma clear_proper n : proper (clear n).
Proof.
  unfold clear. constructor; [congruence|]. intros i k Hk.
  apply nth_child_In in Hk. apply in_map_iff in Hk.
  destruct Hk as (x & Hx & _). discriminate.
Qed.

Lemma proper_placed n : proper n -> Forall placed (nodes n).
Proof.
  induction n as [c h cs ob m cm IH] using strict_OctreeNode_ind.
  intro Hn. cbn [nodes]. constructor.
  - unfold placed, isLeaf. cbn [body children]. split.
    + inversion Hn; subst; auto.
    + intros i k Hk. exact (proj2 (proper_slots _ _ _ _ _ _ _ _ Hn Hk)).
  - rewrite Forall_flat_map. apply Forall_forall. intros [k|] Hk;
      [|constructor].
    apply IH; auto.
    destruct (In_nth_error _ _ Hk) as [i Hi].
    assert (Hc : nth_child cs i = Some k) by (unfold nth_child; now rewrite Hi).
    exact (proj1 (proper_slots _ _ _ _ _ _ _ _ Hn Hc)).
Qed.

(** X14: in a rebuilt tree of the single-occupant octree a node that
    holds a body is a leaf, and every body below slot [i] of a node has
    [getOctantIndex] [i] at that node: a body is found again by the
    descent that inserted it. *)
Theorem strict_rebuilt_nodes_placed fuel n bs n' :
  rebuild fuel n bs = Some n' -> Forall placed (nodes n').
Proof.
  unfold rebuild. intro H. apply proper_placed.
  exact (insert_all_proper fuel bs _ _ (clear_proper n) H).
Qed.

Lemma strict_rebuilt_nodes_placed_witness :
  exists n',
    rebuild 6 sroot crowd = Some n' /\
    isLeaf n' = false /\
    Forall placed (nodes n').
Proof.
  destruct (rebuild 6 sroot crowd) as [n'|] eqn:E;
    [|vm_compute in E; discriminate].
  exists n'. split; [reflexivity|].
  split; [vm_compute in E; inversion E; subst; reflexivity|].
  exact (strict_rebuilt_nodes_placed 6%nat sroot crowd n' E).
Defined.

(** *** Two bodies part where their octants differ *)

Lemma insert_S f n b :
  insert (Datatypes.S f) n b =
  match body n, isLeaf n with
  | None, true =>
      Some (mkNode (center n) (halfDimension n) (children n) (Some b)
                   (Body.mass b) (Body.position b))
  | Some this_body, true =>
      n1 <- split_leaf (insert f) n this_body ;;
      insert_in_octant (insert f) n1 b
  | _, false => insert_in_octant (insert f) n b
  end.
Proof. reflexivity. Qed.

Lemma split_leaf_settles f n tb :
  split_leaf (insert (Datatypes.S f)) n tb
  = Some (mkNode (center n) (halfDimension n)
            (set_nth (getOctantIndex n (Body.position tb))
                     (Some (mkNode
                              (center (subdivide_child n
                                 (getOctantIndex n (Body.position tb))))
                              (halfDimension (subdivide_child n
                                 (getOctantIndex n (Body.position tb))))
                              (repeat None 8) (Some tb) (Body.mass tb)
                              (Body.position tb)))
                     (children (subdivide n)))
            None (mass n) (centerOfMass n)).
Proof.
  unfold split_leaf.
  replace (getOctantIndex (subdivide n) (Body.position tb))
    with (getOctantIndex n (Body.position tb))
    by (apply getOctantIndex_center; reflexivity).
  rewrite get_child_subdivide by apply getOctantIndex_lt.
  rewrite insert_empty_leaf by reflexivity. reflexivity.
Qed.

Lemma insert_in_same_octant n tb b :
  isLeaf n = true -> body n = Some tb ->
  getOctantIndex n (Body.position tb) = getOctantIndex n (Body.position b) ->
  insert 2 n b = None.
Proof.
  intros Hl Hb Hij. rewrite insert_S, Hb, Hl, split_leaf_settles.
  cbn [bind]. unfold insert_in_octant.
  set (i := getOctantIndex n (Body.position tb)) in *.
  match goal with |- context [getOctantIndex ?n1 (Body.position b)] =>
    replace (getOctantIndex n1 (Body.position b)) with i
      by (rewrite Hij; apply getOctantIndex_center; reflexivity) end.
  unfold get_child. cbn [children].
  match goal with |- context [nth_error (set_nth i ?v ?cs) i] =>
    fold (nth_child (set_nth i v cs) i); rewrite nth_set_nth end.
  rewrite insert_S. cbn [body isLeaf children forallb repeat is_null andb].
  unfold split_leaf.
  rewrite get_child_subdivide by apply getOctantIndex_lt.
  reflexivity.
Qed.

Lemma insert_in_other_octant fuel n tb b :
  isLeaf n = true -> body n = Some tb ->
  getOctantIndex n (Body.position tb) <> getOctantIndex n (Body.position b) ->
  exists n' ci cj,
    insert (Datatypes.S (Datatypes.S fuel)) n b = Some n' /\
    body n' = None /\
    nth_child (children n') (getOctantIndex n (Body.position tb)) = Some ci /\
    body ci = Some tb /\ isLeaf ci = true /\
    nth_child (children n') (getOctantIndex n (Body.position b)) = Some cj /\
    body cj = Some b /\ isLeaf cj = true.
Proof.
  intros Hl Hb Hij. rewrite insert_S, Hb, Hl, split_leaf_settles.
  cbn [bind]. unfold insert_in_octant.
  set (i := getOctantIndex n (Body.position tb)) in *.
  set (j := getOctantIndex n (Body.position b)) in *.
  assert (Hj : (j < 8)%nat) by apply getOctantIndex_lt.
  match goal with |- context [getOctantIndex ?n1 (Body.position b)] =>
    replace (getOctantIndex n1 (Body.position b)) with j
      by (apply getOctantIndex_center; reflexivity) end.
  unfold get_child at 1. cbn [children].
  match goal with |- context [nth_error (set_nth i ?v ?cs) j] =>
    fold (nth_child (set_nth i v cs) j);
    rewrite (nth_set_nth_other v i cs j) by congruence
  end.
  change (nth_child (children (subdivide n)) j)
    with (get_child (subdivide n) j).
  rewrite (get_child_subdivide n j Hj).
  rewrite insert_empty_leaf by reflexivity. cbn [bind].
  unfold updateMassAndCenterOfMass, set_child.
  cbn [center halfDimension children body mass centerOfMass].
  do 3 eexists. split; [reflexivity|]. cbn [body children].
  split; [reflexivity|].
  split; [rewrite nth_set_nth_other by congruence; apply nth_set_nth|].
  split; [reflexivity|]. split; [reflexivity|].
  split; [apply nth_set_nth|]. split; reflexivity.
Qed.

(** X22: a second body inserted into an occupied leaf of the
    single-occupant octree is settled at call depth 2 exactly when its
    octant in the leaf is not that of the occupant: the two bodies then
    are the bodies of two leaves, children of the node in the slots of
    their octants; in the same octant the depth does not suffice. *)
Theorem second_body_settles_where_octants_differ fuel n tb b :
  isLeaf n = true -> body n = Some tb ->
  (getOctantIndex n (Body.position tb) = getOctantIndex n (Body.position b) ->
   insert 2 n b = None) /\
  (getOctantIndex n (Body.position tb) <> getOctantIndex n (Body.position b) ->
   exists n' ci cj,
     insert (Datatypes.S (Datatypes.S fuel)) n b = Some n' /\
     body n' = None /\
     nth_child (children n') (getOctantIndex n (Body.position tb)) = Some ci /\
     body ci = Some tb /\ isLeaf ci = true /\
     nth_child (children n') (getOctantIndex n (Body.position b)) = Some cj /\
     body cj = Some b /\ isLeaf cj = true).
Proof.
  intros Hl Hb. split.
  - now apply insert_in_same_octant.
  - now apply insert_in_other_octant.
Qed.

Lemma second_body_settles_where_octants_differ_witness :
  isLeaf cube = true /\ body cube = Some near1 /\
  getOctantIndex cube (Body.position near1)
  <> getOctantIndex cube (Body.position bodyA) /\
  getOctantIndex cube (Body.position near1)
  = getOctantIndex cube (Body.position near3) /\
  insert 2 cube near3 = None /\
  exists n', insert 2 cube bodyA = Some n' /\ body n' = None.
Proof.
  assert (Hl : isLeaf cube = true) by reflexivity.
  assert (Hb : body cube = Some near1) by reflexivity.
  assert (Hd : getOctantIndex cube (Body.position near1)
               <> getOctantIndex cube (Body.position bodyA))
    by (vm_compute; discriminate).
  assert (Hs : getOctantIndex cube (Body.position near1)
               = getOctantIndex cube (Body.position near3)) by reflexivity.
  split; [exact Hl|]. split; [exact Hb|]. split; [exact Hd|].
  split; [exact Hs|].
  split.
  - exact (proj1 (second_body_settles_where_octants_differ 0%nat cube near1
                    near3 Hl Hb) Hs).
  - destruct (proj2 (second_body_settles_where_octants_differ 0%nat cube near1
                       bodyA Hl Hb) Hd)
      as (n' & ci & cj & H1 & H2 & _).
    exists n'. split; [exact H1|exact H2].
Defined.

End StrictExtra.

(** ** The simulation: the two ways in which [sim.js] computes the forces *)

Module SimExtra.
Import Bucket BucketFacts Sim Samples.
Local Open Scope num_scope.

(** *** Insertion does not read the identity of a body *)

Section Relabel.
Variable r : body -> body.
Hypothesis Hpos : forall b, Body.position (r b) = Body.position b.
Hypothesis Hmass : forall b, Body.mass (r b) = Body.mass b.

Lemma relabel_contains n p : contains (relabel r n) p = contains n p.
Proof. now destruct n. Qed.

Lemma relabel_update n b :
  updateMassDistribution (relabel r n) (r b)
  = relabel r (updateMassDistribution n b).
Proof.
  destruct n as [c h m cm leaf bs cs]. unfold updateMassDistribution.
  cbn [relabel center halfSize mass com isLeaf bodies children].
  now rewrite Hpos, Hmass.
Qed.

Lemma relabel_new_children c h :
  map (relabel r) (new_children c h) = new_children c h.
Proof. reflexivity. Qed.

Section RStep.
Variable ins : OctreeNode -> body -> option OctreeNode.
Hypothesis Hins : forall n b,
  ins (relabel r n) (r b) = option_map (relabel r) (ins n b).

Lemma insert_first_relabel cs b :
  insert_first ins (map (relabel r) cs) (r b)
  = option_map (map (relabel r)) (insert_first ins cs b).
Proof.
  induction cs as [|k cs IH]; cbn [map insert_first]; [reflexivity|].
  rewrite relabel_contains, Hpos.
  destruct (contains k (Body.position b)).
  - rewrite Hins. now destruct (ins k b).
  - rewrite IH. now destruct (insert_first ins cs b).
Qed.

Lemma _insertIntoChild_relabel n b :
  _insertIntoChild ins (relabel r n) (r b)
  = option_map (relabel r) (_insertIntoChild ins n b).
Proof.
  destruct n as [c h m cm leaf bs cs]. unfold _insertIntoChild.
  cbn [relabel center halfSize mass com isLeaf bodies children].
  rewrite insert_first_relabel. now destruct (insert_first ins cs b).
Qed.

Lemma move_bodies_relabel bs : forall n,
  move_bodies ins (relabel r n) (map r bs)
  = option_map (relabel r) (move_bodies ins n bs).
Proof.
  induction bs as [|b bs IH]; intro n; cbn [map move_bodies]; [reflexivity|].
  rewrite _insertIntoChild_relabel.
  destruct (_insertIntoChild ins n b) as [n1|]; cbn [option_map bind];
    [apply IH|reflexivity].
Qed.

Lemma subdivide_relabel n :
  subdivide ins (relabel r n) = option_map (relabel r) (subdivide ins n).
Proof.
  destruct n as [c h m cm leaf bs cs]. unfold subdivide.
  cbn [relabel center halfSize mass com isLeaf bodies children].
  rewrite <- move_bodies_relabel. cbn [relabel map].
  now rewrite map_app, relabel_new_children.
Qed.
End RStep.

Lemma insert_relabel fuel : forall n b,
  insert fuel (relabel r n) (r b) = option_map (relabel r) (insert fuel n b).
Proof.
  induction fuel as [|f IH]; intros n b; [reflexivity|].
  destruct n as [c h m cm leaf bs cs].
  cbn [insert relabel center halfSize mass com isLeaf bodies children].
  assert (E1 :
    (if negb leaf
     then _insertIntoChild (insert f)
            (mkNode c h m cm leaf (map r bs) (map (relabel r) cs)) (r b)
     else
       if Nat.ltb MAX_BODIES_PER_NODE (length (map r bs ++ [r b]))
       then subdivide (insert f)
              (mkNode c h m cm leaf (map r bs ++ [r b])
                      (map (relabel r) cs))
       else Some (mkNode c h m cm leaf (map r bs ++ [r b])
                         (map (relabel r) cs)))
    = option_map (relabel r)
        (if negb leaf
         then _insertIntoChild (insert f) (mkNode c h m cm leaf bs cs) b
         else
           if Nat.ltb MAX_BODIES_PER_NODE (length (bs ++ [b]))
           then subdivide (insert f) (mkNode c h m cm leaf (bs ++ [b]) cs)
           else Some (mkNode c h m cm leaf (bs ++ [b]) cs))).
  { destruct (negb leaf).
    - exact (_insertIntoChild_relabel _ IH (mkNode c h m cm leaf bs cs) b).
    - change (map r bs ++ [r b]) with (map r bs ++ map r [b]).
      rewrite <- map_app, length_map.
      destruct (Nat.ltb MAX_BODIES_PER_NODE (length (bs ++ [b]))).
      + exact (subdivide_relabel _ IH (mkNode c h m cm leaf (bs ++ [b]) cs)).
      + reflexivity. }
  rewrite E1. clear E1.
  match goal with
  | |- context [option_map (relabel r) ?mv] => destruct mv as [n1|]
  end; cbn [option_map bind]; [|reflexivity].
  rewrite relabel_update.
  set (n2 := updateMassDistribution n1 b).
  assert (E2 : isLeaf (relabel r n2) = isLeaf n2 /\
               length (bodies (relabel r n2)) = length (bodies n2)).
  { destruct n2. cbn [relabel isLeaf bodies]. now rewrite length_map. }
  destruct E2 as [-> ->].
  destruct (isLeaf n2 && Nat.ltb MAX_BODIES_PER_NODE (length (bodies n2))).
  - apply subdivide_relabel. exact IH.
  - reflexivity.
Qed.

Lemma insert_all_relabel fuel bs : forall t,
  insert_all fuel (relabel_tree r t) (map r bs)
  = option_map (relabel_tree r) (insert_all fuel t bs).
Proof.
  induction bs as [|b bs IH]; intro t; cbn [map insert_all]; [reflexivity|].
  unfold Octree_insert. cbn [relabel_tree root gravityConstant].
  rewrite insert_relabel.
  destruct (insert fuel (root t) b) as [n1|]; cbn [option_map bind];
    [|reflexivity].
  apply (IH (mkOctree (gravityConstant t) n1)).
Qed.
End Relabel.

(** *** The walk tells a body from the object made for it by the distance *)

Lemma coincident_is_near p : (norm2 (vsub p p) >? Fin 1e-10) = false.
Proof.
  destruct p as [[px| | |] [py| | |] [pz| | |]]; try reflexivity.
  unfold vsub, norm2, ngt, nlt, nsub, nadd, nmul. cbn [x y z].
  apply Qltb_ge.
  setoid_replace ((px - px) * (px - px) + (py - py) * (py - py)
                  + (pz - pz) * (pz - pz))%Q with 0%Q by ring.
  intro H. vm_compute in H. discriminate.
Qed.

Section WalkRelabel.
Variable sqrtQ : Q -> Q.
Variable r : body -> body.
Variable b : body.
Hypothesis Hpos : forall o, Body.position (r o) = Body.position o.
Hypothesis Hmass : forall o, Body.mass (r o) = Body.mass o.

Lemma leaf_term_relabel G f o :
  told_apart r b o ->
  leaf_term sqrtQ G b f (r o) = leaf_term sqrtQ G b f o.
Proof.
  intros [H1 H2]. unfold leaf_term. rewrite H1, Hpos, Hmass. cbn [negb].
  destruct (Body.same o b); cbn [negb]; [|reflexivity].
  rewrite (H2 eq_refl), coincident_is_near. reflexivity.
Qed.

Lemma walk_relabel G theta n : forall f,
  Forall (told_apart r b) (subtree_bodies n) ->
  _calculateGravity sqrtQ G (relabel r n) b theta f
  = _calculateGravity sqrtQ G n b theta f.
Proof.
  induction n as [c h m cm leaf bs cs IH] using OctreeNode_ind'.
  intros f Hall. cbn [subtree_bodies] in Hall.
  apply Forall_app in Hall. destruct Hall as [Hbs Hcs].
  cbn [relabel _calculateGravity]. destruct leaf; cbn [negb].
  - clear IH Hcs. revert f.
    induction bs as [|o bs IHbs]; intro f; cbn [map fold_left];
      [reflexivity|].
    inversion Hbs as [|? ? Ho Hbs']; subst.
    rewrite leaf_term_relabel by exact Ho. now apply IHbs.
  - change (accepts sqrtQ (mkNode c h m cm false (map r bs)
                                  (map (relabel r) cs)) b theta)
      with (accepts sqrtQ (mkNode c h m cm false bs cs) b theta).
    destruct (accepts sqrtQ (mkNode c h m cm false bs cs) b theta);
      [reflexivity|].
    clear Hbs. revert f.
    induction cs as [|k cs IHcs]; intro f; cbn [map fold_left];
      [reflexivity|].
    inversion IH as [|? ? Hk Hks]; subst.
    cbn [flat_map] in Hcs. apply Forall_app in Hcs.
    destruct Hcs as [Hck Hcks].
    rewrite (Hk f Hck). now apply IHcs.
Qed.
End WalkRelabel.

(** X17: [applyGravity] inserts an object of its own for every body and
    asks for the force on the body itself, so no stored object is ever
    the body; the body is still left out of its own force, by the test of
    the distance: for bodies inside the world the forces of
    [applyGravity] are those of [update], body by body. *)
Theorem applyGravity_agrees_with_update
        sqrtQ fresh fuel worldSize G bs t1 forces :
  JS.finite worldSize ->
  Forall (in_bounds (root (new_Octree worldSize G))) bs ->
  (forall a b, In a bs -> In b bs -> fresh (Body.id a) <> Body.id b) ->
  (forall a b, In a bs -> In b bs -> Body.id a = Body.id b ->
               Body.position a = Body.position b) ->
  Sim.update sqrtQ fuel (new_Octree worldSize G) bs = Some (t1, forces) ->
  Sim.applyGravity sqrtQ fresh fuel worldSize G bs = Some forces.
Proof.
  intros HW Hin Hfresh Hsame H.
  unfold Sim.update in H.
  destruct (rebuild fuel (new_Octree worldSize G) bs) as [t|] eqn:E;
    cbn [bind] in H; [|discriminate].
  inversion H; subst t forces. clear H.
  assert (Hc : Vec3.finite (center (root (new_Octree worldSize G))))
    by (repeat split).
  assert (Hh : JS.finite (halfSize (root (new_Octree worldSize G)))).
  { cbn [new_Octree root new_OctreeNode halfSize].
    destruct worldSize; try contradiction. exact I. }
  pose proof (BucketExtra.rebuild_shape _ _ _ _ Hc Hh Hin E) as [_ HP].
  unfold Sim.applyGravity.
  set (r := fun b => bodyObject (fresh (Body.id b)) b).
  change (new_Octree worldSize G)
    with (relabel_tree r (new_Octree worldSize G)) at 1.
  rewrite (insert_all_relabel r (fun _ => eq_refl) (fun _ => eq_refl)).
  unfold rebuild in E.
  change (clear (new_Octree worldSize G)) with (new_Octree worldSize G) in E.
  rewrite E. cbn [option_map bind]. f_equal.
  apply map_ext_in. intros b Hb. unfold calculateGravity.
  cbn [relabel_tree gravityConstant root].
  apply (walk_relabel sqrtQ r b (fun _ => eq_refl) (fun _ => eq_refl)).
  apply Forall_forall. intros o Ho.
  assert (Ho' : In o bs) by (eapply Permutation_in; eauto).
  split.
  - unfold Body.same, r, bodyObject. cbn [Body.id].
    apply Nat.eqb_neq. now apply Hfresh.
  - unfold Body.same. intro Hid. apply Nat.eqb_eq in Hid. now apply Hsame.
Qed.

Lemma applyGravity_agrees_with_update_witness :
  exists t1 forces,
    JS.finite (Fin 100) /\
    Forall (in_bounds (root (new_Octree (Fin 100) (Fin 1)))) crowd /\
    (forall a b, In a crowd -> In b crowd ->
                 (100 + Body.id a)%nat <> Body.id b) /\
    (forall a b, In a crowd -> In b crowd -> Body.id a = Body.id b ->
                 Body.position a = Body.position b) /\
    Sim.update sqrt_floor 3 (new_Octree (Fin 100) (Fin 1)) crowd
    = Some (t1, forces) /\
    length forces = 11%nat /\
    Sim.applyGravity sqrt_floor (fun i => (100 + i)%nat) 3 (Fin 100) (Fin 1)
                     crowd
    = Some forces.
Proof.
  assert (HW : JS.finite (Fin 100)) by exact I.
  assert (Hin : Forall (in_bounds (root (new_Octree (Fin 100) (Fin 1)))) crowd)
    by (repeat constructor).
  assert (Hids : forall a, In a crowd -> (Body.id a < 11)%nat).
  { apply Forall_forall. repeat constructor. }
  assert (Hfresh : forall a b, In a crowd -> In b crowd ->
                               (100 + Body.id a)%nat <> Body.id b).
  { intros a b Ha Hb. apply Hids in Hb. lia. }
  assert (Hsame : forall a b, In a crowd -> In b crowd ->
                              Body.id a = Body.id b ->
                              Body.position a = Body.position b).
  { intros a b Ha Hb. cbn [crowd map seq In] in Ha, Hb.
    repeat (destruct Ha as [<-|Ha]); try contradiction;
      repeat (destruct Hb as [<-|Hb]); try contradiction;
      cbn [Body.id]; intro Hid; first [reflexivity | discriminate Hid]. }
  destruct (Sim.update sqrt_floor 3 (new_Octree (Fin 100) (Fin 1)) crowd)
    as [[t1 forces]|] eqn:E; [|vm_compute in E; discriminate].
  exists t1, forces. split; [exact HW|]. split; [exact Hin|].
  split; [exact Hfresh|]. split; [exact Hsame|]. split; [reflexivity|].
  split; [vm_compute in E; inversion E; subst; reflexivity|].
  exact (applyGravity_agrees_with_update sqrt_floor (fun i => (100 + i)%nat)
           3%nat (Fin 100) (Fin 1) crowd t1 forces HW Hin Hfresh Hsame E).
Defined.

(** *** The acceleration divides by the mass of the body *)

Lemma nmul_null_l a b : a =n= JS.zero -> JS.finite b -> a * b =n= JS.zero.
Proof.
  destruct a as [p| | |], b as [q| | |];
    unfold num_eq, JS.zero, nmul, JS.finite; try contradiction.
  intros H _. rewrite H. ring.
Qed.

Lemma nmul_null_r a b : JS.finite a -> b =n= JS.zero -> a * b =n= JS.zero.
Proof.
  destruct a as [p| | |], b as [q| | |];
    unfold num_eq, JS.zero, nmul, JS.finite; try contradiction.
  intros _ H. rewrite H. ring.
Qed.

Lemma nadd_null a b : a =n= JS.zero -> b =n= JS.zero -> a + b =n= JS.zero.
Proof.
  destruct a as [p| | |], b as [q| | |];
    unfold num_eq, JS.zero, nadd; try contradiction.
  intros Ha Hb. rewrite Ha, Hb. ring.
Qed.

Lemma ndiv_null a q : a =n= JS.zero -> ~ (q == 0)%Q -> a / Fin q =n= JS.zero.
Proof.
  destruct a as [p| | |]; unfold num_eq, JS.zero; try contradiction.
  intros Ha Hq. unfold ndiv.
  destruct (Qeq_bool q 0) eqn:E;
    [apply Qeq_bool_iff in E; contradiction|].
  rewrite Ha. field. exact Hq.
Qed.

Lemma null_term u s f :
  Vec3.finite u -> s =n= JS.zero -> vec_eq f Vec3.zero ->
  vec_eq (vadd f (mult u s)) Vec3.zero.
Proof.
  intros (U1 & U2 & U3) Hs (F1 & F2 & F3).
  repeat split; cbn [vadd mult x y z Vec3.zero];
    apply nadd_null; auto; apply nmul_null_l; auto.
Qed.

Section Massless.
Variable sqrtQ : Q -> Q.
Variable G : num.
Variable b : body.
Hypothesis HG : JS.finite G.
Hypothesis Hbp : Vec3.finite (Body.position b).
Hypothesis Hbm : Body.mass b =n= JS.zero.

Lemma leaf_term_null f o :
  Body.finite_body o -> vec_eq f Vec3.zero ->
  vec_eq (leaf_term sqrtQ G b f o) Vec3.zero.
Proof.
  intros [Hop Hom] Hf. unfold leaf_term.
  destruct (negb (Body.same o b)); auto.
  set (direction := vsub (Body.position o) (Body.position b)).
  assert (Hd : Vec3.finite direction)
    by (apply FiniteFacts.vsub_finite; auto).
  destruct (norm2 direction >? Fin 1e-10) eqn:E; auto.
  apply null_term; auto.
  - now apply FiniteFacts.unit_finite.
  - destruct (FiniteFacts.finite_inv _ (FiniteFacts.norm2_finite _ Hd))
      as [q Hq].
    rewrite Hq in *. unfold ngt in E. simpl in E. apply Qltb_lt in E.
    apply ndiv_null.
    + apply nmul_null_l; auto. apply nmul_null_r; auto.
    + intro Hz. rewrite Hz in E. vm_compute in E. discriminate.
Qed.

Lemma node_term_null n theta :
  tame n -> accepts sqrtQ n b theta = true ->
  vec_eq (node_term sqrtQ G n b) Vec3.zero.
Proof.
  intros Hn Ha.
  inversion Hn as [c h m cm leaf bs cs Hh Hm Hcm Hbs Hcs]; subst.
  unfold node_term, accepts in *. cbn [com mass halfSize] in *.
  set (dir := vsub cm (Body.position b)) in *.
  assert (Hd : Vec3.finite dir) by (apply FiniteFacts.vsub_finite; auto).
  assert (Hu : Vec3.finite (unit sqrtQ dir))
    by (now apply FiniteFacts.unit_finite).
  assert (Hs : (G * Body.mass b * m) / (norm sqrtQ dir * norm sqrtQ dir)
               =n= JS.zero).
  { destruct (FiniteFacts.norm_of_finite sqrtQ dir Hd) as [E|[d E]];
      rewrite E in *; [discriminate|].
    assert (Hnz : ~ (d == 0)%Q).
    { intro Hz. unfold ndiv in Ha. apply Qeq_bool_iff in Hz.
      rewrite Hz in Ha. destruct (h ?= 0)%Q eqn:Eh; simpl in Ha;
        try discriminate.
      apply Qlt_alt in Eh. lra. }
    unfold nmul at 3. apply ndiv_null.
    - apply nmul_null_l; auto. apply nmul_null_r; auto.
    - intro Hz. apply Hnz.
      destruct (Qeq_dec d 0) as [|Hne]; auto.
      exfalso. apply (Qmult_integral d d) in Hz. tauto. }
  destruct Hu as (U1 & U2 & U3).
  repeat split; cbn [mult x y z Vec3.zero]; apply nmul_null_l; auto.
Qed.

Lemma walk_null theta n : forall f,
  tame n -> vec_eq f Vec3.zero ->
  vec_eq (_calculateGravity sqrtQ G n b theta f) Vec3.zero.
Proof.
  induction n as [c h m cm leaf bs cs IH] using OctreeNode_ind'.
  intros f Hn Hf. rewrite _calculateGravity_unfold.
  cbn [isLeaf bodies children].
  assert (Hbs : Forall Body.finite_body bs) by (inversion Hn; auto).
  assert (Hcs : Forall tame cs) by (inversion Hn; auto).
  destruct leaf.
  - clear IH Hn Hcs. revert f Hf.
    induction bs as [|o bs IHbs]; intros f Hf; simpl; auto.
    inversion Hbs; subst. apply IHbs; auto.
    now apply leaf_term_null.
  - destruct (accepts sqrtQ (mkNode c h m cm false bs cs) b theta) eqn:Ea.
    + pose proof (node_term_null _ _ Hn Ea) as (N1 & N2 & N3).
      destruct Hf as (F1 & F2 & F3).
      repeat split; cbn [vadd x y z Vec3.zero]; apply nadd_null; auto.
    + clear Hn Ea. revert f Hf.
      induction cs as [|k cs IHcs]; intros f Hf; simpl; auto.
      inversion IH; inversion Hcs; subst. apply IHcs; auto.
Qed.

Lemma massless_acceleration t :
  tame (root t) -> gravityConstant t = G ->
  Sim.calculateAcceleration sqrtQ t b = Vec3.mk NaN NaN NaN.
Proof.
  intros Ht EG. unfold Sim.calculateAcceleration, calculateGravity.
  rewrite EG.
  assert (Hz : vec_eq Vec3.zero Vec3.zero) by (repeat split; reflexivity).
  pose proof (walk_null (Fin 0.5) (root t) Vec3.zero Ht Hz) as (F1 & F2 & F3).
  destruct (_calculateGravity sqrtQ G (root t) b (Fin 0.5) Vec3.zero)
    as [fx fy fz].
  cbn [x y z] in *.
  destruct (Body.mass b) as [q0| | |]; try contradiction.
  destruct fx as [qx| | |], fy as [qy| | |], fz as [qz| | |];
    try contradiction.
  simpl in Hbm, F1, F2, F3.
  unfold scale, mult, ndiv, JS.one. cbn [x y z].
  rewrite (proj2 (Qeq_bool_iff q0 0) Hbm).
  change (signed_inf (1 ?= 0)%Q) with PInf. unfold nmul.
  rewrite (proj1 (Qeq_alt qx 0) F1), (proj1 (Qeq_alt qy 0) F2),
    (proj1 (Qeq_alt qz 0) F3).
  reflexivity.
Qed.
End Massless.

Lemma nmax_NaN_r a : nmax a NaN = NaN.
Proof. now destruct a. Qed.

Lemma max_stays_NaN sqrtQ t bs :
  fold_left
    (fun m b => nmax m (norm sqrtQ (Sim.calculateAcceleration sqrtQ t b)))
    bs NaN = NaN.
Proof. induction bs as [|a bs IH]; simpl; auto. Qed.

(** X20: [calculateAcceleration] divides the force by the mass of the
    body without a test: for a body without mass at a finite position, in
    a tree of finite numbers, the force is zero and the acceleration is
    NaN on every axis; and one such body among those of the simulation
    makes [calculateMaxAcceleration] return NaN, whatever the others. *)
Theorem massless_body_has_no_acceleration sqrtQ t b bodies :
  tame (root t) -> JS.finite (gravityConstant t) ->
  Vec3.finite (Body.position b) -> Body.mass b =n= JS.zero ->
  In b bodies ->
  Sim.calculateAcceleration sqrtQ t b = Vec3.mk NaN NaN NaN /\
  Sim.calculateMaxAcceleration sqrtQ t bodies = NaN.
Proof.
  intros Ht HG Hp Hm Hin.
  pose proof (massless_acceleration sqrtQ (gravityConstant t) b HG Hp Hm t Ht
                eq_refl) as Ha.
  split; [exact Ha|].
  apply in_split in Hin. destruct Hin as (l1 & l2 & ->).
  unfold Sim.calculateMaxAcceleration. rewrite fold_left_app.
  cbn [fold_left]. rewrite Ha.
  change (norm sqrtQ (Vec3.mk NaN NaN NaN)) with NaN.
  rewrite nmax_NaN_r. apply max_stays_NaN.
Qed.


Lemma massless_body_has_no_acceleration_witness :
  exists t',
    rebuild 3 world crowd = Some t' /\
    tame (root t') /\ JS.finite (gravityConstant t') /\
    Vec3.finite (Body.position ghost) /\ Body.mass ghost =n= JS.zero /\
    In ghost (crowd ++ [ghost]) /\
    Sim.calculateAcceleration sqrt_floor t' ghost = Vec3.mk NaN NaN NaN /\
    Sim.calculateMaxAcceleration sqrt_floor t' (crowd ++ [ghost]) = NaN.
Proof.
  destruct (rebuild 3 world crowd) as [t'|] eqn:E;
    [|vm_compute in E; discriminate].
  assert (Ht : tame (root t')).
  { apply (rebuild_tame 3 world crowd t' (100 / 2)%Q); auto.
    - intro H. vm_compute in H. discriminate.
    - repeat constructor.
    - repeat constructor. }
  assert (HG : JS.finite (gravityConstant t')).
  { rewrite (SampleFacts.rebuild_gravityConstant _ _ _ _ E). exact I. }
  assert (Hp : Vec3.finite (Body.position ghost)) by (repeat split).
  assert (Hm : Body.mass ghost =n= JS.zero) by reflexivity.
  assert (Hin : In ghost (crowd ++ [ghost]))
    by (apply in_or_app; right; left; reflexivity).
  exists t'. split; [reflexivity|]. split; [exact Ht|]. split; [exact HG|].
  split; [exact Hp|]. split; [exact Hm|]. split; [exact Hin|].
  exact (massless_body_has_no_acceleration sqrt_floor t' ghost
           (crowd ++ [ghost]) Ht HG Hp Hm Hin).
Defined.

End SimExtra.

(** ** The bucketed octree on doubles: what becomes of the bodies *)

Module DoubleExtra.
Import Double Double.Vec3 Double.Bucket DoubleFacts.
Local Open Scope float_scope.

Lemma splice_body_length b bs bs' :
  splice_body b bs = Some bs' -> length bs = S (length bs').
Proof.
  revert bs'. induction bs as [|o bs IH]; simpl; intros bs' H; [discriminate|].
  destruct (Body.same o b).
  - now inversion H.
  - destruct (splice_body b bs) as [r|]; simpl in H; inversion H; subst.
    simpl. f_equal. now apply IH.
Qed.

(** X7: [remove] and then [insert], the two calls that [update] makes
    for a body that has moved, on a leaf that holds the body, which
    pruning leaves as it is: the leaf holds the body once again, last of
    its bodies, but its mass has grown by the mass of the body, which it
    now counts twice, and its centre of mass has been averaged with the
    position of the body once more. *)
Theorem reinsert_counts_mass_twice fuel n b bs' :
  isLeaf n = true ->
  (length (bodies n) <= MAX_BODIES_PER_NODE)%nat ->
  splice_body b (bodies n) = Some bs' ->
  _pruneEmptyNodes n = n /\
  insert (S fuel) (remove n b) b =
  Some (mkNode (center n) (halfSize n) (mass n + Body.mass b)
          (Vec3.mk
             ((x (com n) * mass n + x (Body.position b) * Body.mass b)
              / (mass n + Body.mass b))
             ((y (com n) * mass n + y (Body.position b) * Body.mass b)
              / (mass n + Body.mass b))
             ((z (com n) * mass n + z (Body.position b) * Body.mass b)
              / (mass n + Body.mass b)))
          true (bs' ++ [b]) (children n)).
Proof.
  intros Hl Hlen Hs. destruct n as [c h m cm leaf bs cs].
  cbn [isLeaf bodies center halfSize mass com children] in *. subst leaf.
  split; [reflexivity|].
  cbn [remove]. rewrite Hs.
  rewrite double_insert_leaf_room; [reflexivity|reflexivity|].
  cbn [bodies]. apply splice_body_length in Hs. lia.
Qed.

Lemma reinsert_counts_mass_twice_witness :
  exists t,
    rebuild 1 Samples.world [Samples.bodyA; Samples.bodyB] = Some t /\
    isLeaf (root t) = true /\
    (length (bodies (root t)) <= MAX_BODIES_PER_NODE)%nat /\
    splice_body Samples.bodyA (bodies (root t)) = Some [Samples.bodyB] /\
    mass (root t) = 200 /\
    exists n',
      insert 1 (remove (root t) Samples.bodyA) Samples.bodyA = Some n' /\
      bodies n' = [Samples.bodyB; Samples.bodyA] /\
      mass n' = 300 /\
      com n' = Vec3.mk (-1000 / 300) 0 0.
Proof.
  eexists. split; [vm_compute; reflexivity|].
  split; [reflexivity|].
  match goal with
  | |- (length (bodies (root ?t)) <= _)%nat /\ _ =>
      assert (Hlen : (length (bodies (root t)) <= MAX_BODIES_PER_NODE)%nat)
        by (apply Nat.leb_le; reflexivity);
      assert (Hs : splice_body Samples.bodyA (bodies (root t))
                   = Some [Samples.bodyB])
        by reflexivity;
      split; [exact Hlen|]; split; [exact Hs|];
      split; [vm_compute; reflexivity|];
      eexists;
      split; [exact (proj2 (reinsert_counts_mass_twice 0%nat (root t)
                              Samples.bodyA [Samples.bodyB] eq_refl Hlen
                              Hs))|]
  end.
  split; [reflexivity|]. split; vm_compute; reflexivity.
Defined.



End DoubleExtra.
